(** * vaultctl: global vaults, project vaults and mounts

    A shallow embedding of [src/vaultctl/cli.py] and the properties of its
    vault-discovery rules, its materialisers and its mount engine.

    The program is written against [pathlib]; its behaviour is decided by
    what the filesystem answers.  The development therefore has three
    layers:

    - pure paths as [pathlib.PurePosixPath] has them (a list of components
      below the root [/]), with [name], [parent], [relative_to] and the [/]
      operator on strings;
    - the filesystem: a finite map from physical paths to nodes
      (directory, regular file, symbolic link) with POSIX path lookup that
      follows symbolic links, and the [pathlib.Path] calls the program
      uses ([exists], [is_dir], [is_symlink], [resolve], [mkdir],
      [iterdir], [write_text], [symlink_to]);
    - the functions of [cli.py], one definition per function, in a state
      and exception monad over the filesystem.

    Conventions.  The library is the one of Python 3.11, the version the
    program asks for.  Paths are absolute lists of names: [.], [..] and
    the empty name are no components, neither of a path nor of the target
    of a symbolic link, so [expanduser] and [abspath] change nothing;
    names are ASCII and short enough for the platform.  Symbolic links
    hold absolute targets, as the ones the program creates.  Permissions
    are not modelled.  [iterdir] lists in the order of the map, which is
    as arbitrary as the one of the operating system.

    Two lookups are told apart.  The calls that ask the operating system
    ([exists], [is_dir], [is_symlink], [mkdir], [iterdir], [write_text],
    [symlink_to]) follow at most [limit] symbolic links and fail beyond
    that; [exists], [is_dir] and [is_symlink] answer [False] then, as for
    a path that is not found.  [limit] is a parameter: the properties hold
    for every limit, and the program is run under the one of Linux,
    [MAXSYMLINKS].  [resolve] is [os.path.realpath], which follows links
    one by one without a bound and remembers the ones it has met; it
    raises [RuntimeError] when the links form a loop.

    The commands take the configuration and the parsed arguments:
    [load_config] and the argument parser of [main] are not part of the
    embedding.  [cmd_list] prints; its embedding returns what was printed
    beside the way the call ended. *)

From Stdlib Require Import String Ascii List Sorted Permutation.
From stdpp Require Import base option list strings gmap.

Open Scope string_scope.
Open Scope list_scope.

(** ** Pure paths *)

Notation path := (list string) (only parsing).

(** [p.name]: the last component, the empty string for the root. *)
Definition name (p : path) : string := default "" (last p).

(** [p.parent]: the root is its own parent. *)
Definition parent (p : path) : path := removelast p.

(** The segments of a string between its slashes. *)
Fixpoint segments (s : string) : list string :=
  match s with
  | EmptyString => [EmptyString]
  | String c s' =>
      if Ascii.eqb c "/" then EmptyString :: segments s'
      else match segments s' with
           | seg :: rest => String c seg :: rest
           | [] => [String c EmptyString]
           end
  end.

(** The components [pathlib] keeps of a string: empty segments and [.]
    are dropped. *)
Definition parts_of (s : string) : list string :=
  filter (λ seg, seg ≠ "" ∧ seg ≠ ".") (segments s).

Definition is_absolute (s : string) : bool := String.prefix "/" s.

(** [p / s] for a string [s]: an absolute [s] replaces [p]. *)
Definition joinpath (p : path) (s : string) : path :=
  if is_absolute s then parts_of s else p ++ parts_of s.

(** A plain name: a string that is one path component (not empty,
    without a slash, neither [.] nor [..]). *)
Definition plain (s : string) : bool :=
  bool_decide (parts_of s = [s]) && negb (is_absolute s) && negb (String.eqb s "..").

(** [p.relative_to(base)]: [None] stands for the [ValueError]. *)
Fixpoint relative_to (p base : path) {struct base} : option path :=
  match base with
  | [] => Some p
  | b :: base' =>
      match p with
      | c :: p' => if decide (b = c) then relative_to p' base' else None
      | [] => None
      end
  end.

(** [str(p)] *)
Definition path_str (p : path) : string :=
  match p with
  | [] => "/"
  | _ => String.concat "" (map (λ c, "/" +:+ c) p)
  end.

(** [s.lower()] on ASCII. *)
Definition lower_ascii (c : ascii) : ascii :=
  let n := nat_of_ascii c in
  if (65 <=? n)%nat && (n <=? 90)%nat then ascii_of_nat (n + 32) else c.

Fixpoint lower (s : string) : string :=
  match s with
  | EmptyString => EmptyString
  | String c s' => String (lower_ascii c) (lower s')
  end.

(** ** The filesystem *)

Inductive node :=
| Dir
| File (content : string)
| Link (target : path).

Global Instance node_eq_dec : EqDecision node.
Proof. solve_decision. Defined.

(** The state: what lies at each physical path.  The root is a directory
    and has no entry. *)
Notation fsT := (gmap path node) (only parsing).

(** What a path lookup ends in. *)
Inductive lookup_result :=
| Found (phys : path) (nd : node)
    (** the node at the physical path [phys] *)
| Missing (dir : path) (rest : path)
    (** the directory [dir] was reached and has no entry for the first
        component of [rest] *)
| NotDir (file : path) (rest : path)
    (** the regular file [file] was reached with [rest] left *)
| Loop
    (** too many levels of symbolic links *).

(** Linux follows at most 40 symbolic links in one lookup. *)
Definition MAXSYMLINKS : nat := 40.

(** Path lookup from the directory [cur] along [rest].  A symbolic link
    met on the way restarts the lookup at the root with its target in
    front of what is left; [follow] says whether a link that is the last
    component is followed ([stat]) or returned ([lstat]). *)
Fixpoint walk (fuel : nat) (follow : bool) (fs : fsT) : path → path → lookup_result :=
  fix go (cur rest : path) {struct rest} : lookup_result :=
    match rest with
    | [] => Found cur Dir
    | c :: rest' =>
        match fs !! (cur ++ [c]) with
        | None => Missing cur rest
        | Some Dir => go (cur ++ [c]) rest'
        | Some (File s) =>
            match rest' with
            | [] => Found (cur ++ [c]) (File s)
            | _ => NotDir (cur ++ [c]) rest'
            end
        | Some (Link t) =>
            if bool_decide (rest' = []) && negb follow then Found (cur ++ [c]) (Link t)
            else match fuel with
                 | O => Loop
                 | S fuel' => walk fuel' follow fs [] (t ++ rest')
                 end
        end
    end.

(** From here on [limit] is the number of links the platform follows in
    one lookup. *)
Section vaultctl.
Variable limit : nat.

Definition stat (fs : fsT) (p : path) : lookup_result := walk limit true fs [] p.
Definition lstat (fs : fsT) (p : path) : lookup_result := walk limit false fs [] p.

(** [p.exists()] *)
Definition path_exists (fs : fsT) (p : path) : bool :=
  match stat fs p with Found _ _ => true | _ => false end.

(** [p.is_dir()] *)
Definition is_dir (fs : fsT) (p : path) : bool :=
  match stat fs p with Found _ Dir => true | _ => false end.

(** [p.is_symlink()] *)
Definition is_symlink (fs : fsT) (p : path) : bool :=
  match lstat fs p with Found _ (Link _) => true | _ => false end.

(** [_joinrealpath(path, rest, strict=False, seen)] of [posixpath]: the
    components of [rest] are appended to [path] one by one; one that is a
    symbolic link is replaced by the real path of its target, an absolute
    path, resolved from the root.  [seen] holds the links met: [None] for
    one whose target is being resolved, the real path for one that is
    done.  A link met while it is being resolved is a loop: the answer is
    then the path so far with what is left, and [false].  Nothing bounds
    the number of links; the recursion is as deep as the links that are
    being resolved at once, so the number of entries of the filesystem is
    fuel enough. *)
Fixpoint joinrealpath (fuel : nat) (fs : fsT)
  : path → path → gmap path (option path) → path * bool * gmap path (option path) :=
  fix go (cur rest : path) (seen : gmap path (option path)) {struct rest} :=
    match rest with
    | [] => (cur, true, seen)
    | c :: rest' =>
        let newpath := cur ++ [c] in
        match lstat fs newpath with
        | Found _ (Link target) =>
            match seen !! newpath with
            | Some (Some p) => go p rest' seen
            | Some None => (newpath ++ rest', false, seen)
            | None =>
                match fuel with
                | O => (newpath ++ rest', false, seen)
                | S fuel' =>
                    match joinrealpath fuel' fs [] target (<[newpath := None]> seen) with
                    | (p, true, seen') => go p rest' (<[newpath := Some p]> seen')
                    | (p, false, seen') => (p ++ rest', false, seen')
                    end
                end
            end
        | _ => go newpath rest' seen
        end
    end.

(** [os.path.realpath(p)] *)
Definition realpath (fs : fsT) (p : path) : path :=
  (joinrealpath (size fs) fs [] p ∅).1.1.

(** [p.resolve()], not strict: the real path [s], after a [stat] of it
    that raises [RuntimeError] (here [None]) when the answer is a loop of
    links, and ignores every other failure. *)
Definition resolve (fs : fsT) (p : path) : option path :=
  let s := realpath fs p in
  match stat fs s with
  | Loop => None
  | _ => Some s
  end.

(** The path a lookup result stands for when [p] was looked up. *)
Definition resolved (p : path) (r : lookup_result) : path :=
  match r with
  | Found phys _ => phys
  | Missing dir rest => dir ++ rest
  | NotDir file rest => file ++ rest
  | Loop => p
  end.

(** [p.read_text()] *)
Definition read_text (fs : fsT) (p : path) : option string :=
  match stat fs p with Found _ (File s) => Some s | _ => None end.

(** [os.mkdir(p)] *)
Inductive mkdir_result :=
| Created (fs' : fsT)
| ENOENT
| EOTHER.

Definition os_mkdir (fs : fsT) (p : path) : mkdir_result :=
  match lstat fs p with
  | Missing dir [c] => Created (<[dir ++ [c] := Dir]> fs)
  | Missing _ _ => ENOENT
  | _ => EOTHER
  end.

(** [p.mkdir(parents=True, exist_ok=True)] on the reversed path [rp];
    [None] stands for the [OSError] it raises.  As in [pathlib]: try
    [os.mkdir]; on [FileNotFoundError] make the parent this way and try
    once more without [parents]; on any other error succeed when the path
    is a directory. *)
Fixpoint mkdir_rev (fs : fsT) (rp : list string) : option fsT :=
  match os_mkdir fs (rev rp) with
  | Created fs' => Some fs'
  | ENOENT =>
      match rp with
      | [] => None
      | _ :: rparent =>
          match mkdir_rev fs rparent with
          | Some fs1 =>
              match os_mkdir fs1 (rev rp) with
              | Created fs2 => Some fs2
              | ENOENT => None
              | EOTHER => if is_dir fs1 (rev rp) then Some fs1 else None
              end
          | None => None
          end
      end
  | EOTHER => if is_dir fs (rev rp) then Some fs else None
  end.

Definition mkdir_parents (fs : fsT) (p : path) : option fsT := mkdir_rev fs (rev p).

(** [p.write_text(s)]: the file is created or truncated where the lookup
    ends. *)
Definition write_text (fs : fsT) (p : path) (s : string) : option fsT :=
  match stat fs p with
  | Found phys (File _) => Some (<[phys := File s]> fs)
  | Missing dir [c] => Some (<[dir ++ [c] := File s]> fs)
  | _ => None
  end.

(** [link.symlink_to(target)] *)
Definition symlink_to (fs : fsT) (link target : path) : option fsT :=
  match lstat fs link with
  | Missing dir [c] => Some (<[dir ++ [c] := Link target]> fs)
  | _ => None
  end.

(** The names of the entries of the directory at the physical path [d]. *)
Definition entries (fs : fsT) (d : path) : list string :=
  omap (λ kv, match relative_to kv.1 d with
              | Some [c] => Some c
              | _ => None
              end) (map_to_list fs).

(** [p.iterdir()]: the names; the children are [p ++ [c]]. *)
Definition iterdir (fs : fsT) (p : path) : option (list string) :=
  match stat fs p with
  | Found d Dir => Some (entries fs d)
  | _ => None
  end.

(** A directory entry named [c] in [p], whatever it is. *)
Definition has_entry (fs : fsT) (p : path) (c : string) : bool :=
  match lstat fs (p ++ [c]) with Found _ _ => true | _ => false end.

(** The filesystem with the directories [d/c1], [d/c1/c2], ... added. *)
Fixpoint add_dirs (fs : fsT) (d : path) (rest : path) : fsT :=
  match rest with
  | [] => fs
  | c :: rest' => add_dirs (<[d ++ [c] := Dir]> fs) (d ++ [c]) rest'
  end.

(** No entry lies below something that is not a directory. *)
Definition closed (fs : fsT) : Prop :=
  ∀ k nd, fs !! k = Some nd → parent k = [] ∨ fs !! parent k = Some Dir.

(** ** Failures, and computations that change the filesystem *)

(** The typed failures of the program, by the place that raises them, and
    the other exceptions its calls can end in. *)
Inductive error :=
| InvalidLocation      (** [RuntimeError] of [mount_global_into_project] and [cmd_init] *)
| NotFound             (** [FileNotFoundError] of [mount_global_into_project] *)
| InvalidName          (** [ValueError] of [ensure_global_vault] *)
| StructuralViolation  (** [RuntimeError] of [ensure_global_vault] *)
| AlreadyExists        (** [FileExistsError] of [mount_global_into_project] *)
| FsError              (** an [OSError] raised inside a [pathlib] call *)
| SymlinkLoop          (** the [RuntimeError] of [Path.resolve] *)
| NameError            (** the undefined [cfg_editor] of [ensure_gitignore] *).

Global Instance error_eq_dec : EqDecision error.
Proof. solve_decision. Defined.

(** A call returns or raises, and leaves a filesystem behind either way. *)
Inductive outcome (A : Type) :=
| Ok (a : A) (fs : fsT)
| Raise (e : error) (fs : fsT).
#[global] Arguments Ok {A} a fs.
#[global] Arguments Raise {A} e fs.

Definition M (A : Type) : Type := fsT → outcome A.

Definition ret {A} (a : A) : M A := λ fs, Ok a fs.
Definition raise {A} (e : error) : M A := λ fs, Raise e fs.
Definition bind {A B} (m : M A) (k : A → M B) : M B :=
  λ fs, match m fs with
        | Ok a fs' => k a fs'
        | Raise e fs' => Raise e fs'
        end.
(** Ask the filesystem a question. *)
Definition ask {A} (q : fsT → A) : M A := λ fs, Ok (q fs) fs.
(** Run a [pathlib] call that changes the filesystem or raises [OSError]. *)
Definition fs_call (f : fsT → option fsT) : M unit :=
  λ fs, match f fs with
        | Some fs' => Ok tt fs'
        | None => Raise FsError fs
        end.
Definition fs_read {A} (f : fsT → option A) : M A :=
  λ fs, match f fs with
        | Some a => Ok a fs
        | None => Raise FsError fs
        end.
(** Run a call that resolves paths, and raises on a loop of links. *)
Definition fs_resolve {A} (f : fsT → option A) : M A :=
  λ fs, match f fs with
        | Some a => Ok a fs
        | None => Raise SymlinkLoop fs
        end.

Global Instance M_ret : MRet M := @ret.
Global Instance M_bind : MBind M := λ A B k m, bind m k.

Definition final_fs {A} (o : outcome A) : fsT :=
  match o with Ok _ fs => fs | Raise _ fs => fs end.

(** ** Dictionaries in insertion order *)

Definition dict (V : Type) := list (string * V).

(** [d[k] = v] *)
Fixpoint dict_set {V} (d : dict V) (k : string) (v : V) : dict V :=
  match d with
  | [] => [(k, v)]
  | (k', v') :: d' => if decide (k' = k) then (k, v) :: d' else (k', v') :: dict_set d' k v
  end.

(** [d[k]] *)
Fixpoint dict_get {V} (d : dict V) (k : string) : option V :=
  match d with
  | [] => None
  | (k', v') :: d' => if decide (k' = k) then Some v' else dict_get d' k
  end.

(** [k in d] *)
Definition dict_mem {V} (d : dict V) (k : string) : bool := bool_decide (is_Some (dict_get d k)).

(** [sorted(l, key=...)]: stable, so an insertion sort that puts an item
    after the ones it does not come before. *)
Definition key_le (kv1 kv2 : string * path) : bool :=
  String.leb (lower kv1.1) (lower kv2.1).

Fixpoint insert_sorted {A} (le : A → A → bool) (x : A) (l : list A) : list A :=
  match l with
  | [] => [x]
  | y :: l' => if le y x then y :: insert_sorted le x l' else x :: l
  end.

Definition sorted_by {A} (le : A → A → bool) (l : list A) : list A :=
  foldl (λ acc x, insert_sorted le x acc) [] l.

(** ** The configuration *)

Record Config := {
  config_version : nat;
  vault_root : path;
  project_vault_dir : string;
  mount_dir : string;
  auto_mount : list string;
  create_desktop_launcher_flag : bool;
  desktop_launcher_name : string;
  editor : string;
}.

(** ** Global vault discovery and rules *)

Definition is_ignored_root_entry (p : path) : bool :=
  String.prefix "." (name p) || String.prefix "_" (name p).

Definition is_mountable_global (cfg : Config) (fs : fsT) (p : path) : bool :=
  if negb (path_exists fs p) || negb (is_dir fs p) then false
  else if is_ignored_root_entry p then false
  else if is_symlink fs p then false
  else match relative_to p (vault_root cfg) with
       | None => false
       | Some _ =>
           if bool_decide (parent p ≠ vault_root cfg) then false
           else if path_exists fs (joinpath p (mount_dir cfg)) then false
           else true
       end.

(** The loop of [discover_globals] over the names [iterdir] gave; the
    child of a name is the root with the name appended. *)
Definition collect_globals (cfg : Config) (fs : fsT) (root : path) (names : list string)
  : dict path :=
  foldl (λ out c,
           let child := root ++ [c] in
           if is_mountable_global cfg fs child then dict_set out (name child) child else out)
        [] names.

Definition discover_globals (cfg : Config) : M (dict path) :=
  let root := vault_root cfg in
  fs_call (λ fs, mkdir_parents fs root);;
  names ← fs_read (λ fs, iterdir fs root);
  out ← ask (λ fs, collect_globals cfg fs root names);
  ret (sorted_by key_le out).

(** ** Project vault helpers *)

Definition project_paths (cfg : Config) (project_root : path) : path * path :=
  let vault := joinpath project_root (project_vault_dir cfg) in
  let mount := joinpath vault (mount_dir cfg) in
  (vault, mount).

Definition nl : string := String "010"%char EmptyString.

Definition ensure_project_vault (cfg : Config) (project_root : path) : M (path * path) :=
  let '(vault, mount) := project_paths cfg project_root in
  fs_call (λ fs, mkdir_parents fs vault);;
  fs_call (λ fs, mkdir_parents fs mount);;
  let index := joinpath vault "index.md" in
  index_exists ← ask (λ fs, path_exists fs index);
  (if negb index_exists
   then fs_call (λ fs, write_text fs index ("# Project Notes" +:+ nl +:+ nl))
   else ret tt);;
  ret (vault, mount).

Definition ensure_global_vault (cfg : Config) (nm : string) : M path :=
  if String.prefix "_" nm || String.prefix "." nm then raise InvalidName
  else
    let target := joinpath (vault_root cfg) nm in
    fs_call (λ fs, mkdir_parents fs target);;
    let mount_dir_path := joinpath target (mount_dir cfg) in
    mount_exists ← ask (λ fs, path_exists fs mount_dir_path);
    if (mount_exists : bool) then raise StructuralViolation
    else
      let index := joinpath target "index.md" in
      index_exists ← ask (λ fs, path_exists fs index);
      (if negb index_exists
       then fs_call (λ fs, write_text fs index ("# " +:+ nm +:+ nl +:+ nl))
       else ret tt);;
      ret target.

(** [ensure_gitignore] does nothing outside a git work tree; inside one it
    evaluates [cfg_editor], a name that is bound nowhere. *)
Definition ensure_gitignore (project_root : path) (cfg : Config) : M unit :=
  has_git ← ask (λ fs, path_exists fs (joinpath project_root ".git"));
  if negb has_git then ret tt else raise NameError.

Definition dquote : string := String "034"%char EmptyString.

Definition launcher_content (abs_vault : string) : string :=
  "[Desktop Entry]" +:+ nl +:+
  "Type=Application" +:+ nl +:+
  "Name=Open Project Vault" +:+ nl +:+
  "Exec=obsidian " +:+ dquote +:+ abs_vault +:+ dquote +:+ nl +:+
  "Terminal=false" +:+ nl +:+
  "Icon=obsidian" +:+ nl.

(** The mode bits [chmod] sets are not part of the state. *)
Definition create_desktop_launcher (vault : path) (cfg : Config) : M unit :=
  if negb (String.eqb (editor cfg) "obsidian") then ret tt
  else
    let launcher := joinpath vault (desktop_launcher_name cfg) in
    abs_vault ← fs_resolve (λ fs, resolve fs vault);
    fs_call (λ fs, write_text fs launcher (launcher_content (path_str abs_vault))).

(** [None] stands for the [RuntimeError] of one of the two [resolve()].
    [rel.parts[0]] is a component, so [/] appends it as it is. *)
Definition is_inside_global_vault (cfg : Config) (fs : fsT) (p : path) : option bool :=
  p ← resolve fs p;
  if negb (path_exists fs (vault_root cfg)) then Some false
  else
    root ← resolve fs (vault_root cfg);
    match relative_to p root with
    | None => Some false
    | Some rel =>
        match rel with
        | [] => Some false
        | c :: _ => Some (is_mountable_global cfg fs (vault_root cfg ++ [c]))
        end
    end.

(** ** Mounting *)

Definition mount_global_into_project (cfg : Config) (project_root : path) (nm : string)
  : M unit :=
  inside ← fs_resolve (λ fs, is_inside_global_vault cfg fs project_root);
  if (inside : bool) then raise InvalidLocation
  else
    globals_map ← discover_globals cfg;
    match dict_get globals_map nm with
    | None => raise NotFound
    | Some target =>
        '(vault, mount) ← ensure_project_vault cfg project_root;
        let link := joinpath mount nm in
        occupied ← ask (λ fs, path_exists fs link || is_symlink fs link);
        if (occupied : bool) then
          is_link ← ask (λ fs, is_symlink fs link);
          if (is_link : bool) then
            link_path ← fs_resolve (λ fs, resolve fs link);
            target_path ← fs_resolve (λ fs, resolve fs target);
            if bool_decide (link_path = target_path) then ret tt else raise AlreadyExists
          else raise AlreadyExists
        else fs_call (λ fs, symlink_to fs link target)
    end.

(** ** Commands *)

Record Args := {
  arg_path : path;
  arg_global_name : option string;
  arg_name : string;
}.

(** The loop of [cmd_init] over [auto_mount]. *)
Fixpoint auto_mount_loop (cfg : Config) (project_root : path) (globals_map : dict path)
    (names : list string) : M unit :=
  match names with
  | [] => ret tt
  | nm :: names' =>
      (if dict_mem globals_map nm
       then mount_global_into_project cfg project_root nm
       else ret tt);;
      auto_mount_loop cfg project_root globals_map names'
  end.

(** [cmd_init] after [load_config]. *)
Definition cmd_init (cfg : Config) (args : Args) : M nat :=
  match arg_global_name args with
  | Some (String c s as global_name) =>
      ensure_global_vault cfg global_name;;
      ret 0%nat
  | _ =>
      project_root ← fs_resolve (λ fs, resolve fs (arg_path args));
      inside ← fs_resolve (λ fs, is_inside_global_vault cfg fs project_root);
      if (inside : bool) then raise InvalidLocation
      else
        '(vault, _mount_dir) ← ensure_project_vault cfg project_root;
        globals_map ← discover_globals cfg;
        auto_mount_loop cfg project_root globals_map (auto_mount cfg);;
        ensure_gitignore project_root cfg;;
        (if create_desktop_launcher_flag cfg then create_desktop_launcher vault cfg else ret tt);;
        ret 0%nat
  end.

(** [cmd_mount] after [load_config]. *)
Definition cmd_mount (cfg : Config) (args : Args) : M nat :=
  project_root ← fs_resolve (λ fs, resolve fs (arg_path args));
  mount_global_into_project cfg project_root (arg_name args);;
  ret 0%nat.

(** [closed], as a test. *)
Definition closedb (fs : fsT) : bool :=
  forallb (λ kv, bool_decide (parent kv.1 = []) || bool_decide (fs !! parent kv.1 = Some Dir))
          (map_to_list fs).

(** What a call returned, and what it raised. *)
Definition result {A} (o : outcome A) : option A :=
  match o with Ok a _ => Some a | Raise _ _ => None end.

Definition raised {A} (o : outcome A) : option error :=
  match o with Ok _ _ => None | Raise e _ => Some e end.

(** ** The words of the specification *)

(** The conditions the specification gives for a mountable global vault:
    an existing directory, not ignored, no symbolic link, a direct child of
    [vault_root], and without an entry named [mount_dir]. *)
Definition mountable_as_specified (cfg : Config) (fs : fsT) (p : path) : Prop :=
  is_dir fs p = true ∧ is_ignored_root_entry p = false ∧ is_symlink fs p = false ∧
  parent p = vault_root cfg ∧ has_entry fs p (mount_dir cfg) = false.

(** ** Configurations and filesystems to run the program on *)

(** The defaults of [cli.py], for a user whose home is [/home/u]. *)
Definition DEFAULTS : Config := {|
  config_version := 1;
  vault_root := ["home"; "u"; "vaults"];
  project_vault_dir := ".vault";
  mount_dir := "_m";
  auto_mount := ["global"];
  create_desktop_launcher_flag := true;
  desktop_launcher_name := "Open Project Vault.desktop";
  editor := "obsidian";
|}.

(** The configuration of the specification's scenario: the defaults with
    [vault_root = /vaults]. *)
Definition cfg_vaults : Config := {|
  config_version := 1;
  vault_root := ["vaults"];
  project_vault_dir := ".vault";
  mount_dir := "_m";
  auto_mount := ["global"];
  create_desktop_launcher_flag := true;
  desktop_launcher_name := "Open Project Vault.desktop";
  editor := "obsidian";
|}.

(** The same with [mount_dir = m] and two vaults to mount. *)
Definition cfg_m : Config := {|
  config_version := 1;
  vault_root := ["vaults"];
  project_vault_dir := ".vault";
  mount_dir := "m";
  auto_mount := ["m"; "g2"];
  create_desktop_launcher_flag := true;
  desktop_launcher_name := "Open Project Vault.desktop";
  editor := "obsidian";
|}.

(** [vaultctl init PATH] and [vaultctl mount NAME --path PATH]. *)
Definition args_init (p : path) : Args :=
  {| arg_path := p; arg_global_name := None; arg_name := "" |}.
Definition args_mount (nm : string) (p : path) : Args :=
  {| arg_path := p; arg_global_name := None; arg_name := nm |}.

(** The scenario: the global vault [/vaults/global] and the project
    [/home/u/proj]. *)
Definition fs_scenario : fsT :=
  list_to_map [ (["vaults"], Dir); (["vaults"; "global"], Dir);
                (["home"], Dir); (["home"; "u"], Dir); (["home"; "u"; "proj"], Dir) ].

(** A global vault that holds a link named [_m] to nowhere. *)
Definition fs_dangling : fsT :=
  list_to_map [ (["vaults"], Dir); (["vaults"; "global"], Dir);
                (["vaults"; "global"; "_m"], Link ["nowhere"]) ].

(** The same for a vault named [notes]. *)
Definition fs_dangling_notes : fsT :=
  list_to_map [ (["vaults"], Dir); (["vaults"; "notes"], Dir);
                (["vaults"; "notes"; "_m"], Link ["nowhere"]) ].

(** A global vault that holds a regular file named [_m]. *)
Definition fs_file_entry : fsT :=
  list_to_map [ (["vaults"], Dir); (["vaults"; "notes"], Dir);
                (["vaults"; "notes"; "_m"], File "") ].

(** A project vault without index document whose mount path is taken by a
    regular file. *)
Definition fs_conflict : fsT :=
  list_to_map [ (["vaults"], Dir); (["vaults"; "global"], Dir);
                (["home"], Dir); (["home"; "u"], Dir); (["home"; "u"; "proj"], Dir);
                (["home"; "u"; "proj"; ".vault"], Dir);
                (["home"; "u"; "proj"; ".vault"; "_m"], Dir);
                (["home"; "u"; "proj"; ".vault"; "_m"; "global"], File "notes") ].

(** The same with an index document. *)
Definition fs_conflict_index : fsT :=
  <[ ["home"; "u"; "proj"; ".vault"; "index.md"] := File "# Mine" ]> fs_conflict.

(** [/vaults/work] is a link to the directory [/data]. *)
Definition fs_linked_vault : fsT :=
  list_to_map [ (["vaults"], Dir); (["data"], Dir); (["vaults"; "work"], Link ["data"]) ].

(** The global vaults [m] and [g2]; the mount directory of the project
    [/proj] is a link to [/vaults/g2]. *)
Definition fs_linked_mount : fsT :=
  list_to_map [ (["vaults"], Dir); (["vaults"; "m"], Dir); (["vaults"; "g2"], Dir);
                (["proj"], Dir); (["proj"; ".vault"], Dir);
                (["proj"; ".vault"; "m"], Link ["vaults"; "g2"]) ].

(** A physical directory: every component is a directory entry. *)
Inductive physical (fs : fsT) : path → Prop :=
| physical_root : physical fs []
| physical_snoc d c : physical fs d → fs !! (d ++ [c]) = Some Dir → physical fs (d ++ [c]).

(** Nothing can be found below [q]: it leaves the physical directories at
    a name that is missing or is a regular file. *)
Definition terminal (fs : fsT) (q : path) : Prop :=
  ∃ d c r, q = d ++ c :: r ∧ physical fs d ∧
           (fs !! (d ++ [c]) = None ∨ ∃ s, fs !! (d ++ [c]) = Some (File s)).

(** A path without links on its way. *)
Definition clean (fs : fsT) (q : path) : Prop := physical fs q ∨ terminal fs q.

(** The lookup of [p] with anything after it follows [k] links and is then
    the lookup of [q] with the same after it. *)
Definition flow (fs : fsT) (p q : path) : Prop :=
  ∃ k, ∀ C m, ((m < k)%nat → walk m true fs [] (p ++ C) = Loop) ∧
              walk (m + k) true fs [] (p ++ C) = walk m true fs [] (q ++ C).

(** The lookup of [p] with anything after it never ends. *)
Definition loops (fs : fsT) (p : path) : Prop :=
  ∀ C m, walk m true fs [] (p ++ C) = Loop.

(** What [seen] says while [joinrealpath] is at the path [cp]: its keys
    are links; a finished one holds the clean path its target leads to; the
    lookup of the target of one in progress has come to [cp]. *)
Definition seen_ok (fs : fsT) (seen : gmap path (option path)) (cp : path) : Prop :=
  ∀ j o, seen !! j = Some o →
    ∃ t, fs !! j = Some (Link t) ∧
         match o with
         | Some p => flow fs t p ∧ clean fs p
         | None => ∃ Y, flow fs t (cp ++ Y)
         end.

(** ** Listing *)

Definition tab : string := String "009"%char EmptyString.

(** The order of [sorted(..., key=lambda x: x.name.lower())]. *)
Definition name_le (a b : string) : bool := String.leb (lower a) (lower b).

(** [f"  - {name}\t{dest}"] *)
Definition list_line (nm dest : string) : string := "  - " +:+ nm +:+ tab +:+ dest.

(** What [cmd_list] prints about the global vaults, one string for each
    call of [print]. *)
Definition print_globals (cfg : Config) (globals_map : dict path) : list string :=
  ("vault_root: " +:+ path_str (vault_root cfg)) ::
  match globals_map with
  | [] => ["(no global vaults found)"]
  | _ => "global vaults:" :: map (λ kv, list_line kv.1 (path_str kv.2)) globals_map
  end.

(** The pair [cmd_list] keeps for the child [mount/c] of the mount
    directory; [None] stands for the [RuntimeError] of [resolve].
    [resolve] is not strict and raises no [FileNotFoundError], so the
    handler of that exception is never entered. *)
Definition mount_entry (fs : fsT) (mount : path) (c : string) : option (string * string) :=
  let p := mount ++ [c] in
  if is_symlink fs p then q ← resolve fs p; Some (name p, path_str q)
  else Some (name p, "(not a symlink)").

Definition print_mounts (mounts : list (string * string)) : list string :=
  match mounts with
  | [] => ["mounted: (none)"]
  | _ => "mounted:" :: map (λ nd, list_line nd.1 nd.2) mounts
  end.

(** [cmd_list] after [load_config]: what it has printed, and how it
    ended.  What was printed before an exception stays printed. *)
Definition cmd_list (cfg : Config) (args : Args) (fs : fsT) : list string * outcome nat :=
  match discover_globals cfg fs with
  | Raise e fs1 => ([], Raise e fs1)
  | Ok globals_map fs1 =>
      let out := print_globals cfg globals_map in
      match resolve fs1 (arg_path args) with
      | None => (out, Raise SymlinkLoop fs1)
      | Some project_root =>
          let '(vault, mount) := project_paths cfg project_root in
          if path_exists fs1 vault && path_exists fs1 mount then
            let out := out ++ [nl +:+ "project vault: " +:+ path_str vault] in
            match iterdir fs1 mount with
            | None => (out, Raise FsError fs1)
            | Some names =>
                match mapM (mount_entry fs1 mount) (sorted_by name_le names) with
                | None => (out, Raise SymlinkLoop fs1)
                | Some mounts => (out ++ print_mounts mounts, Ok 0%nat fs1)
                end
            end
          else (out, Ok 0%nat fs1)
      end
  end.

(** [p] can be resolved. *)
Definition resolves (fs : fsT) (p : path) : bool :=
  match resolve fs p with Some _ => true | None => false end.

(** Every symbolic link in the directory [mount] can be resolved. *)
Definition links_resolve (fs : fsT) (mount : path) : bool :=
  match iterdir fs mount with
  | Some names =>
      forallb (λ c, negb (is_symlink fs (mount ++ [c])) || resolves fs (mount ++ [c])) names
  | None => true
  end.

(** ** Relations between filesystems and between lookups *)

(** [fs'] has every entry of [fs], a regular file possibly with another
    content. *)
Definition keeps (fs fs' : fsT) : Prop :=
  ∀ k nd, fs !! k = Some nd →
          fs' !! k = Some nd ∨ ∃ s s', nd = File s ∧ fs' !! k = Some (File s').

(** [fs'] has every entry of [fs] as it was, and the entries it has more
    are all of the kind [new]. *)
Definition adds (new : node → Prop) (fs fs' : fsT) : Prop :=
  fs ⊆ fs' ∧ ∀ k nd, fs !! k = None → fs' !! k = Some nd → new nd.

(** The index document [ensure_project_vault] writes. *)
Definition project_index : node := File ("# Project Notes" +:+ nl +:+ nl).

(** The lookup result when the file at [k] has got the content [s]. *)
Definition with_content (k : path) (s : string) (res : lookup_result) : lookup_result :=
  match res with
  | Found ph (File x) => if decide (ph = k) then Found ph (File s) else res
  | _ => res
  end.


(** ** More filesystems to run the program on *)

(** The scenario with the project vault of [/home/u/proj] in place. *)
Definition fs_project : fsT :=
  list_to_map [ (["vaults"], Dir); (["vaults"; "global"], Dir);
                (["home"], Dir); (["home"; "u"], Dir); (["home"; "u"; "proj"], Dir);
                (["home"; "u"; "proj"; ".vault"], Dir);
                (["home"; "u"; "proj"; ".vault"; "_m"], Dir);
                (["home"; "u"; "proj"; ".vault"; "index.md"], File "# Mine") ].

(** The scenario with the project in a git work tree. *)
Definition fs_git : fsT :=
  <[ ["home"; "u"; "proj"; ".git"] := Dir ]> fs_scenario.

(** A project vault whose mount path is a regular file. *)
Definition fs_mount_file : fsT :=
  list_to_map [ (["vaults"], Dir); (["vaults"; "global"], Dir);
                (["proj"], Dir); (["proj"; ".vault"], Dir);
                (["proj"; ".vault"; "_m"], File "") ].

(** A regular file where [vault_root] should be. *)
Definition fs_root_file : fsT :=
  list_to_map [ (["vaults"], File ""); (["proj"], Dir) ].

(** The scenario with [/loop], a symbolic link to itself. *)
Definition fs_loop : fsT :=
  <[ ["loop"] := Link ["loop"] ]> fs_scenario.

(** The global vault [m]; the mount directory of the project [/proj] is a
    link to it. *)
Definition fs_mount_is_vault : fsT :=
  list_to_map [ (["vaults"], Dir); (["vaults"; "m"], Dir);
                (["proj"], Dir); (["proj"; ".vault"], Dir);
                (["proj"; ".vault"; "m"], Link ["vaults"; "m"]) ].

(** A project vault with its index document whose mount path is taken by
    a symbolic link to itself. *)
Definition fs_conflict_loop : fsT :=
  list_to_map [ (["vaults"], Dir); (["vaults"; "global"], Dir);
                (["home"], Dir); (["home"; "u"], Dir); (["home"; "u"; "proj"], Dir);
                (["home"; "u"; "proj"; ".vault"], Dir);
                (["home"; "u"; "proj"; ".vault"; "_m"], Dir);
                (["home"; "u"; "proj"; ".vault"; "index.md"], File "# Mine");
                (["home"; "u"; "proj"; ".vault"; "_m"; "global"],
                 Link ["home"; "u"; "proj"; ".vault"; "_m"; "global"]) ].


(** * Properties *)


(** ** Pure paths *)

Section paths.
Implicit Types p q base rel : path.

Lemma relative_to_app base rel : relative_to (base ++ rel) base = Some rel.
Proof.
  induction base as [|b base IH]; simpl; [done|].
  by rewrite decide_True.
Qed.

Lemma relative_to_Some p base rel : relative_to p base = Some rel ↔ p = base ++ rel.
Proof.
  split; [|intros ->; apply relative_to_app].
  revert p. induction base as [|b base IH]; intros p; simpl.
  - by intros [= ->].
  - destruct p as [|c p]; [done|]. case_decide; [|done].
    intros ->%IH. by subst.
Qed.


Lemma parent_snoc p c : parent (p ++ [c]) = p.
Proof. apply removelast_last. Qed.

Lemma name_snoc p c : name (p ++ [c]) = c.
Proof. unfold name. by rewrite last_snoc. Qed.

Lemma parent_inv p q : parent p = q → p = [] ∧ q = [] ∨ ∃ c, p = q ++ [c].
Proof.
  destruct p as [|c p _] using rev_ind.
  - intros <-. by left.
  - rewrite parent_snoc. intros ->. right. by exists c.
Qed.

Lemma joinpath_plain p s : plain s = true → joinpath p s = p ++ [s].
Proof.
  unfold plain, joinpath. intros H.
  apply andb_prop in H as [H _]. apply andb_prop in H as [H1 H2].
  apply bool_decide_eq_true in H1. apply negb_true_iff in H2.
  by rewrite H2, H1.
Qed.

Lemma joinpath_index p : joinpath p "index.md" = p ++ ["index.md"].
Proof. by apply joinpath_plain. Qed.
End paths.

(** ** Path lookup *)

Section walk.
Implicit Types fs : gmap path node.
Implicit Types cur rest p q d ph : path.

Lemma walk_nil n b fs cur : walk n b fs cur [] = Found cur Dir.
Proof. by destruct n. Qed.

Lemma walk_cons n b fs cur c rest :
  walk n b fs cur (c :: rest) =
    match fs !! (cur ++ [c]) with
    | None => Missing cur (c :: rest)
    | Some Dir => walk n b fs (cur ++ [c]) rest
    | Some (File s) =>
        match rest with
        | [] => Found (cur ++ [c]) (File s)
        | _ => NotDir (cur ++ [c]) rest
        end
    | Some (Link t) =>
        if bool_decide (rest = []) && negb b then Found (cur ++ [c]) (Link t)
        else match n with
             | O => Loop
             | S n' => walk n' b fs [] (t ++ rest)
             end
    end.
Proof. by destruct n. Qed.

(** Every proof about [walk] goes by induction on the links left to
    follow, then on the components left to look up. *)
Lemma walk_ind (P : nat → path → path → Prop) b fs :
  (∀ n cur, P n cur []) →
  (∀ n cur c rest, fs !! (cur ++ [c]) = None → P n cur (c :: rest)) →
  (∀ n cur c rest, fs !! (cur ++ [c]) = Some Dir →
     P n (cur ++ [c]) rest → P n cur (c :: rest)) →
  (∀ n cur c rest s, fs !! (cur ++ [c]) = Some (File s) → P n cur (c :: rest)) →
  (∀ n cur c rest t, fs !! (cur ++ [c]) = Some (Link t) →
     bool_decide (rest = []) && negb b = true → P n cur (c :: rest)) →
  (∀ cur c rest t, fs !! (cur ++ [c]) = Some (Link t) →
     bool_decide (rest = []) && negb b = false → P O cur (c :: rest)) →
  (∀ n cur c rest t, fs !! (cur ++ [c]) = Some (Link t) →
     bool_decide (rest = []) && negb b = false →
     P n [] (t ++ rest) → P (S n) cur (c :: rest)) →
  ∀ n cur rest, P n cur rest.
Proof.
  intros Hnil Hnone Hdir Hfile Hlink Hloop Hfollow.
  induction n as [|n IHn]; intros cur rest; revert cur;
    (induction rest as [|c rest IHrest]; intros cur; [apply Hnil|]);
    destruct (fs !! (cur ++ [c])) as [[|s|t]|] eqn:E; eauto;
    destruct (bool_decide (rest = []) && negb b) eqn:Eb; eauto.
Qed.
End walk.


Section walk_facts.
Implicit Types fs : gmap path node.
Implicit Types cur rest p q d ph : path.
Implicit Types (n m : nat) (b : bool) (nd : node).

(** More entries keep what a lookup found. *)
Lemma walk_mono n b fs fs' cur rest ph nd :
  fs ⊆ fs' →
  walk n b fs cur rest = Found ph nd →
  walk n b fs' cur rest = Found ph nd.
Proof.
  intros Hsub. revert n cur rest.
  apply (walk_ind (λ n cur rest, walk n b fs cur rest = Found ph nd →
                                 walk n b fs' cur rest = Found ph nd) b fs).
  - intros n cur. by rewrite !walk_nil.
  - intros n cur c rest E. rewrite walk_cons, E. done.
  - intros n cur c rest E IH. rewrite !walk_cons, E.
    by rewrite (lookup_weaken _ _ _ _ E Hsub).
  - intros n cur c rest s E. rewrite !walk_cons, E.
    by rewrite (lookup_weaken _ _ _ _ E Hsub).
  - intros n cur c rest t E Eb. rewrite !walk_cons, E, Eb.
    by rewrite (lookup_weaken _ _ _ _ E Hsub).
  - intros cur c rest t E Eb. rewrite !walk_cons, E, Eb. done.
  - intros n cur c rest t E Eb IH. rewrite !walk_cons, E, Eb.
    by rewrite (lookup_weaken _ _ _ _ E Hsub).
Qed.

(** More links to follow keep every answer but [Loop]. *)
Lemma walk_fuel_mono n m b fs cur rest :
  (n ≤ m)%nat →
  walk n b fs cur rest ≠ Loop →
  walk m b fs cur rest = walk n b fs cur rest.
Proof.
  intros Hle. revert m Hle. revert n cur rest.
  apply (walk_ind (λ n cur rest, ∀ m, (n ≤ m)%nat →
    walk n b fs cur rest ≠ Loop → walk m b fs cur rest = walk n b fs cur rest) b fs).
  - intros n cur m _ _. by rewrite !walk_nil.
  - intros n cur c rest E m _ _. by rewrite !walk_cons, E.
  - intros n cur c rest E IH m Hle. rewrite !walk_cons, E. by apply IH.
  - intros n cur c rest s E m _ _. by rewrite !walk_cons, E.
  - intros n cur c rest t E Eb m _ _. by rewrite !walk_cons, E, Eb.
  - intros cur c rest t E Eb m _. by rewrite !walk_cons, E, Eb.
  - intros n cur c rest t E Eb IH m Hle. rewrite !walk_cons, E, Eb.
    destruct m as [|m]; [lia|]. apply IH. lia.
Qed.

(** [stat] never ends on a link. *)
Lemma walk_follow_not_link n fs cur rest ph t :
  walk n true fs cur rest ≠ Found ph (Link t).
Proof.
  revert n cur rest.
  apply (walk_ind (λ n cur rest, walk n true fs cur rest ≠ Found ph (Link t)) true fs).
  - intros n cur. by rewrite walk_nil.
  - intros n cur c rest E. by rewrite walk_cons, E.
  - intros n cur c rest E IH. by rewrite walk_cons, E.
  - intros n cur c rest s E. rewrite walk_cons, E. by destruct rest.
  - intros n cur c rest t' E Eb. by rewrite andb_false_r in Eb.
  - intros cur c rest t' E Eb. by rewrite walk_cons, E, Eb.
  - intros n cur c rest t' E Eb IH. by rewrite walk_cons, E, Eb.
Qed.

(** [lstat] and [stat] differ on a final link only. *)
Lemma walk_nofollow n fs cur rest :
  (∃ ph t, walk n false fs cur rest = Found ph (Link t)) ∨
  walk n false fs cur rest = walk n true fs cur rest.
Proof.
  revert n cur rest.
  apply (walk_ind (λ n cur rest,
    (∃ ph t, walk n false fs cur rest = Found ph (Link t)) ∨
    walk n false fs cur rest = walk n true fs cur rest) false fs).
  - intros n cur. right. by rewrite !walk_nil.
  - intros n cur c rest E. right. by rewrite !walk_cons, E.
  - intros n cur c rest E IH. by rewrite !walk_cons, E.
  - intros n cur c rest s E. right. by rewrite !walk_cons, E.
  - intros n cur c rest t E Eb. left. rewrite walk_cons, E, Eb. eauto.
  - intros cur c rest t E Eb. right. rewrite !walk_cons, E, Eb.
    by rewrite andb_false_r.
  - intros n cur c rest t E Eb IH. rewrite !walk_cons, E, Eb.
    rewrite andb_true_r in Eb. apply bool_decide_eq_false in Eb.
    rewrite andb_false_r.
    (* the link is not last, so what follows decides *)
    destruct IH as [IH|IH]; [by left|by right].
Qed.

(** What is found lies in the map, unless it is the starting directory. *)
Lemma walk_Found_lookup n b fs cur rest ph nd :
  walk n b fs cur rest = Found ph nd →
  (ph = cur ∨ ph = []) ∧ nd = Dir ∨ fs !! ph = Some nd.
Proof.
  revert n cur rest.
  apply (walk_ind (λ n cur rest, walk n b fs cur rest = Found ph nd →
    (ph = cur ∨ ph = []) ∧ nd = Dir ∨ fs !! ph = Some nd) b fs).
  - intros n cur. rewrite walk_nil. intros [= <- <-]. left. auto.
  - intros n cur c rest E. by rewrite walk_cons, E.
  - intros n cur c rest E IH. rewrite walk_cons, E. intros H.
    destruct (IH H) as [[[->| ->] ->]|?]; auto.
  - intros n cur c rest s E. rewrite walk_cons, E.
    destruct rest; [|done]. intros [= <- <-]. by right.
  - intros n cur c rest t E Eb. rewrite walk_cons, E, Eb. intros [= <- <-]. by right.
  - intros cur c rest t E Eb. by rewrite walk_cons, E, Eb.
  - intros n cur c rest t E Eb IH. rewrite walk_cons, E, Eb. intros H.
    destruct (IH H) as [[[->| ->] ->]|?]; auto.
Qed.

(** What is missing is the entry for the first component left. *)
Lemma walk_Missing_inv n b fs cur rest d r :
  walk n b fs cur rest = Missing d r →
  ∃ c r', r = c :: r' ∧ fs !! (d ++ [c]) = None.
Proof.
  revert n cur rest.
  apply (walk_ind (λ n cur rest, walk n b fs cur rest = Missing d r →
    ∃ c r', r = c :: r' ∧ fs !! (d ++ [c]) = None) b fs).
  - intros n cur. by rewrite walk_nil.
  - intros n cur c rest E. rewrite walk_cons, E. intros [= <- <-]. eauto.
  - intros n cur c rest E IH. by rewrite walk_cons, E.
  - intros n cur c rest s E. rewrite walk_cons, E. by destruct rest.
  - intros n cur c rest t E Eb. by rewrite walk_cons, E, Eb.
  - intros cur c rest t E Eb. by rewrite walk_cons, E, Eb.
  - intros n cur c rest t E Eb IH. by rewrite walk_cons, E, Eb.
Qed.
End walk_facts.


Section walk_app.
Implicit Types fs : gmap path node.
Implicit Types cur rest p q d ph r : path.
Implicit Types (n m : nat) (b : bool) (nd : node) (c : string).

(** A lookup along [r ++ r2] is the lookup along [r] followed, from the
    directory it reaches, by the lookup along [r2]. *)
Lemma walk_app n b fs cur r r2 :
  r2 ≠ [] →
  match walk n true fs cur r with
  | Found d Dir => ∃ n', (n' ≤ n)%nat ∧ walk n b fs cur (r ++ r2) = walk n' b fs d r2
  | Found f (File _) => walk n b fs cur (r ++ r2) = NotDir f r2
  | Found _ (Link _) => False
  | Missing d rest => walk n b fs cur (r ++ r2) = Missing d (rest ++ r2)
  | NotDir f rest => walk n b fs cur (r ++ r2) = NotDir f (rest ++ r2)
  | Loop => walk n b fs cur (r ++ r2) = Loop
  end.
Proof.
  intros Hr2. revert n cur r.
  apply (walk_ind (λ n cur r,
    match walk n true fs cur r with
    | Found d Dir => ∃ n', (n' ≤ n)%nat ∧ walk n b fs cur (r ++ r2) = walk n' b fs d r2
    | Found f (File _) => walk n b fs cur (r ++ r2) = NotDir f r2
    | Found _ (Link _) => False
    | Missing d rest => walk n b fs cur (r ++ r2) = Missing d (rest ++ r2)
    | NotDir f rest => walk n b fs cur (r ++ r2) = NotDir f (rest ++ r2)
    | Loop => walk n b fs cur (r ++ r2) = Loop
    end) true fs).
  - intros n cur. rewrite walk_nil. by exists n.
  - intros n cur c rest E. rewrite <- app_comm_cons. by rewrite !walk_cons, E.
  - intros n cur c rest E IH. rewrite <- app_comm_cons. by rewrite !walk_cons, E.
  - intros n cur c rest s E. rewrite <- app_comm_cons. rewrite !walk_cons, E.
    destruct rest as [|c' rest]; [|done].
    by destruct r2.
  - intros n cur c rest t E Eb. by rewrite andb_false_r in Eb.
  - intros cur c rest t E _. rewrite <- app_comm_cons. rewrite !walk_cons, E.
    rewrite andb_false_r.
    rewrite bool_decide_eq_false_2; [done|]. by destruct rest, r2.
  - intros n cur c rest t E _ IH. rewrite <- app_comm_cons. rewrite !walk_cons, E.
    rewrite andb_false_r.
    rewrite bool_decide_eq_false_2 by (by destruct rest, r2).
    rewrite andb_false_l, (assoc_L (++)).
    destruct (walk n true fs [] (t ++ rest)) as [d [| |]| | |]; try done.
    destruct IH as (n' & Hle & IH). exists n'. split; [lia|done].
Qed.

(** One component, the last one not followed. *)
Lemma walk_last n fs d c :
  walk n false fs d [c] =
    match fs !! (d ++ [c]) with
    | Some nd => Found (d ++ [c]) nd
    | None => Missing d [c]
    end.
Proof.
  rewrite walk_cons. destruct (fs !! (d ++ [c])) as [[| |]|]; try done.
  apply walk_nil.
Qed.

(** One component that is no link. *)
Lemma walk_last_follow n fs d c :
  (∀ t, fs !! (d ++ [c]) ≠ Some (Link t)) →
  walk n true fs d [c] =
    match fs !! (d ++ [c]) with
    | Some nd => Found (d ++ [c]) nd
    | None => Missing d [c]
    end.
Proof.
  intros H. rewrite walk_cons.
  destruct (fs !! (d ++ [c])) as [[| |t]|]; try done.
  - apply walk_nil.
  - by destruct (H t).
Qed.

Lemma lstat_snoc fs p d c :
  stat fs p = Found d Dir →
  lstat fs (p ++ [c]) =
    match fs !! (d ++ [c]) with
    | Some nd => Found (d ++ [c]) nd
    | None => Missing d [c]
    end.
Proof.
  unfold stat, lstat. intros H.
  pose proof (walk_app limit false fs [] p [c]) as Happ.
  rewrite H in Happ. destruct Happ as (n' & _ & ->); [done|].
  apply walk_last.
Qed.

Lemma stat_snoc fs p d c :
  stat fs p = Found d Dir →
  (∀ t, fs !! (d ++ [c]) ≠ Some (Link t)) →
  stat fs (p ++ [c]) =
    match fs !! (d ++ [c]) with
    | Some nd => Found (d ++ [c]) nd
    | None => Missing d [c]
    end.
Proof.
  unfold stat. intros H Hl.
  pose proof (walk_app limit true fs [] p [c]) as Happ.
  rewrite H in Happ. destruct Happ as (n' & _ & ->); [done|].
  by apply walk_last_follow.
Qed.

(** Whatever is found below [p], [p] is a directory. *)
Lemma walk_app_Found n b fs cur r r2 ph nd :
  r2 ≠ [] →
  walk n b fs cur (r ++ r2) = Found ph nd →
  ∃ d, walk n true fs cur r = Found d Dir.
Proof.
  intros Hr2 H. pose proof (walk_app n b fs cur r r2 Hr2) as Happ.
  destruct (walk n true fs cur r) as [d [| |]| | |]; try congruence; eauto.
  done.
Qed.

Lemma path_exists_app fs p r2 :
  path_exists fs (p ++ r2) = true → is_dir fs p = true ∨ r2 = [].
Proof.
  destruct (decide (r2 = [])) as [->|Hr2]; [by right|]. left.
  unfold path_exists, is_dir, stat in *.
  destruct (walk _ _ _ _ (p ++ r2)) eqn:E; [|done..].
  apply walk_app_Found in E as [d ->]; done.
Qed.

Lemma is_dir_exists fs p : is_dir fs p = true → path_exists fs p = true.
Proof. unfold is_dir, path_exists. by destruct (stat fs p) as [? [| |]| | |]. Qed.

Lemma lstat_Missing_inv fs p d c :
  lstat fs p = Missing d [c] →
  ∃ r, p = r ++ [c] ∧ stat fs r = Found d Dir ∧ fs !! (d ++ [c]) = None.
Proof.
  destruct p as [|x r _] using rev_ind.
  { unfold lstat. by rewrite walk_nil. }
  unfold lstat, stat. intros H.
  pose proof (walk_app limit false fs [] r [x]) as Happ.
  destruct (walk limit true fs [] r) as [d' [| |]|d' rest| |] eqn:E.
  - destruct Happ as (n' & _ & Happ); [done|].
    rewrite Happ, walk_last in H.
    destruct (fs !! (d' ++ [x])) eqn:El; simplify_eq. eauto.
  - rewrite Happ in H; done.
  - by destruct Happ.
  - rewrite Happ in H by done. simplify_eq.
    apply walk_Missing_inv in E as (c' & r' & -> & _).
    by destruct r'.
  - rewrite Happ in H; done.
  - rewrite Happ in H; done.
Qed.
(** Creating what a lookup that follows links found missing. *)
Lemma walk_create n fs cur r d c nd :
  (∀ t, nd ≠ Link t) →
  walk n true fs cur r = Missing d [c] →
  walk n true (<[d ++ [c] := nd]> fs) cur r = Found (d ++ [c]) nd.
Proof.
  intros Hl. revert n cur r.
  apply (walk_ind (λ n cur r, walk n true fs cur r = Missing d [c] →
    walk n true (<[d ++ [c] := nd]> fs) cur r = Found (d ++ [c]) nd) true fs).
  - intros n cur. by rewrite walk_nil.
  - intros n cur x rest E. rewrite !walk_cons, E. intros [= -> -> ->].
    rewrite lookup_insert_eq. destruct nd as [| |t]; try done.
    + apply walk_nil.
    + by destruct (Hl t).
  - intros n cur x rest E IH H. rewrite walk_cons, E in H.
    pose proof (walk_Missing_inv _ _ _ _ _ _ _ H) as (c' & r' & [= <- <-] & Hnone).
    rewrite walk_cons, lookup_insert_ne, E by congruence. by apply IH.
  - intros n cur x rest s E. rewrite walk_cons, E. by destruct rest.
  - intros n cur x rest t E Eb. by rewrite andb_false_r in Eb.
  - intros cur x rest t E Eb. by rewrite walk_cons, E, Eb.
  - intros n cur x rest t E Eb IH H. rewrite walk_cons, E, Eb in H.
    pose proof (walk_Missing_inv _ _ _ _ _ _ _ H) as (c' & r' & [= <- <-] & Hnone).
    rewrite walk_cons, lookup_insert_ne, E, Eb by congruence. by apply IH.
Qed.


(** ** The same for [stat] and [lstat] *)

Lemma stat_nil fs : stat fs [] = Found [] Dir.
Proof. exact (walk_nil limit true fs []). Qed.

Lemma lstat_nil fs : lstat fs [] = Found [] Dir.
Proof. exact (walk_nil limit false fs []). Qed.

Lemma lstat_or_stat fs p :
  (∃ ph t, lstat fs p = Found ph (Link t)) ∨ lstat fs p = stat fs p.
Proof. exact (walk_nofollow limit fs [] p). Qed.

Lemma stat_not_link fs p ph t : stat fs p ≠ Found ph (Link t).
Proof. exact (walk_follow_not_link limit fs [] p ph t). Qed.

Lemma stat_Found_lookup fs p ph nd :
  stat fs p = Found ph nd → ph = [] ∧ nd = Dir ∨ fs !! ph = Some nd.
Proof.
  intros H. destruct (walk_Found_lookup limit true fs [] p ph nd H); naive_solver.
Qed.

Lemma lstat_Found_lookup fs p ph nd :
  lstat fs p = Found ph nd → ph = [] ∧ nd = Dir ∨ fs !! ph = Some nd.
Proof.
  intros H. destruct (walk_Found_lookup limit false fs [] p ph nd H); naive_solver.
Qed.

Lemma stat_Missing_inv fs p d r :
  stat fs p = Missing d r → ∃ c r', r = c :: r' ∧ fs !! (d ++ [c]) = None.
Proof. exact (walk_Missing_inv limit true fs [] p d r). Qed.

Lemma stat_mono fs fs' p ph nd :
  fs ⊆ fs' → stat fs p = Found ph nd → stat fs' p = Found ph nd.
Proof. exact (walk_mono limit true fs fs' [] p ph nd). Qed.

Lemma lstat_mono fs fs' p ph nd :
  fs ⊆ fs' → lstat fs p = Found ph nd → lstat fs' p = Found ph nd.
Proof. exact (walk_mono limit false fs fs' [] p ph nd). Qed.

Lemma stat_create fs p d c nd :
  (∀ t, nd ≠ Link t) →
  stat fs p = Missing d [c] →
  stat (<[d ++ [c] := nd]> fs) p = Found (d ++ [c]) nd.
Proof. exact (walk_create limit fs [] p d c nd). Qed.

(** A link that is the last component and leads somewhere leads where
    its target leads. *)
Lemma stat_link_last fs p d c t ph nd :
  stat fs p = Found d Dir →
  fs !! (d ++ [c]) = Some (Link t) →
  stat fs (p ++ [c]) = Found ph nd →
  stat fs t = Found ph nd.
Proof.
  unfold stat. intros H E Hf.
  pose proof (walk_app limit true fs [] p [c]) as Happ.
  rewrite H in Happ. destruct Happ as (n' & Hle & Happ); [done|].
  rewrite Happ, walk_cons, E in Hf. rewrite andb_false_r in Hf.
  destruct n' as [|n']; [done|]. rewrite app_nil_r in Hf.
  rewrite <- Hf. apply walk_fuel_mono; [lia|]. by rewrite Hf.
Qed.
End walk_app.



Section fs_calls.
Implicit Types fs : gmap path node.
Implicit Types cur rest p q d ph r k : path.
Implicit Types (n m : nat) (b : bool) (nd : node) (c : string).

Lemma path_exists_mono fs fs' p :
  fs ⊆ fs' → path_exists fs p = true → path_exists fs' p = true.
Proof.
  unfold path_exists. intros Hsub. destruct (stat fs p) eqn:E; [|done..].
  by rewrite (stat_mono _ _ _ _ _ Hsub E).
Qed.

Lemma is_dir_mono fs fs' p :
  fs ⊆ fs' → is_dir fs p = true → is_dir fs' p = true.
Proof.
  unfold is_dir. intros Hsub. destruct (stat fs p) as [? [| |]| | |] eqn:E; try done.
  by rewrite (stat_mono _ _ _ _ _ Hsub E).
Qed.

Lemma is_symlink_mono fs fs' p :
  fs ⊆ fs' → is_symlink fs p = true → is_symlink fs' p = true.
Proof.
  unfold is_symlink. intros Hsub. destruct (lstat fs p) as [? [| |]| | |] eqn:E; try done.
  by rewrite (lstat_mono _ _ _ _ _ Hsub E).
Qed.

Lemma read_text_mono fs fs' p s :
  fs ⊆ fs' → read_text fs p = Some s → read_text fs' p = Some s.
Proof.
  unfold read_text. intros Hsub. destruct (stat fs p) as [? [| |]| | |] eqn:E; try done.
  by rewrite (stat_mono _ _ _ _ _ Hsub E).
Qed.

(** What exists and is no link is what [lstat] finds. *)
Lemma stat_lstat fs p ph nd :
  stat fs p = Found ph nd → is_symlink fs p = false → lstat fs p = Found ph nd.
Proof.
  unfold is_symlink. intros H Hl.
  destruct (lstat_or_stat fs p) as [(ph' & t & E)|E].
  - by rewrite E in Hl.
  - by rewrite E.
Qed.

Lemma lstat_stat fs p ph nd :
  lstat fs p = Found ph nd → (∀ t, nd ≠ Link t) → stat fs p = Found ph nd.
Proof.
  intros H Hl.
  destruct (lstat_or_stat fs p) as [(ph' & t & E)|E].
  - rewrite E in H. simplify_eq. by destruct (Hl t).
  - by rewrite <- E.
Qed.

Lemma stat_exists_lstat fs p ph nd :
  stat fs p = Found ph nd → ∃ ph' nd', lstat fs p = Found ph' nd'.
Proof.
  intros H.
  destruct (lstat_or_stat fs p) as [(ph' & t & E)|E]; eauto.
  rewrite E. eauto.
Qed.

(** ** Creating an entry where [lstat] found none *)

Lemma create_lstat fs p d c nd :
  lstat fs p = Missing d [c] →
  lstat (<[d ++ [c] := nd]> fs) p = Found (d ++ [c]) nd.
Proof.
  intros (r & -> & Hr & Hnone)%lstat_Missing_inv.
  rewrite (lstat_snoc _ _ d).
  - by rewrite lookup_insert_eq.
  - eapply stat_mono; [|done]. by apply insert_subseteq.
Qed.

Lemma create_stat fs p d c nd :
  lstat fs p = Missing d [c] →
  (∀ t, nd ≠ Link t) →
  stat (<[d ++ [c] := nd]> fs) p = Found (d ++ [c]) nd.
Proof.
  intros H Hl. apply lstat_stat; [|done]. by apply create_lstat.
Qed.

Lemma lstat_Missing_fresh fs p d c : lstat fs p = Missing d [c] → fs !! (d ++ [c]) = None.
Proof. by intros (r & -> & Hr & Hnone)%lstat_Missing_inv. Qed.

(** ** [mkdir] *)

Lemma os_mkdir_Created fs p fs' :
  os_mkdir fs p = Created fs' →
  ∃ d c, lstat fs p = Missing d [c] ∧ fs' = <[d ++ [c] := Dir]> fs.
Proof.
  unfold os_mkdir. destruct (lstat fs p) as [| d [|c [|]] | |]; try done.
  intros [= <-]. eauto.
Qed.

Lemma os_mkdir_Created_spec fs p fs' :
  os_mkdir fs p = Created fs' →
  fs ⊆ fs' ∧ is_dir fs' p = true ∧
  (∀ k nd, fs' !! k = Some nd → fs !! k = Some nd ∨ nd = Dir ∧ fs !! k = None).
Proof.
  intros (d & c & H & ->)%os_mkdir_Created.
  pose proof (lstat_Missing_fresh _ _ _ _ H) as Hnone.
  split_and!.
  - by apply insert_subseteq.
  - unfold is_dir. by rewrite (create_stat _ _ _ _ _ H).
  - intros k nd. rewrite lookup_insert. case_decide; simplify_eq; naive_solver.
Qed.

Lemma os_mkdir_exists fs p : path_exists fs p = true → os_mkdir fs p = EOTHER.
Proof.
  unfold path_exists, os_mkdir. destruct (stat fs p) eqn:E; [|done..].
  intros _. apply stat_exists_lstat in E as (ph' & nd' & ->). done.
Qed.

(** [mkdir] of a directory that is there changes nothing. *)
Lemma mkdir_parents_noop fs p : is_dir fs p = true → mkdir_parents fs p = Some fs.
Proof.
  intros H. unfold mkdir_parents.
  assert (os_mkdir fs (rev (rev p)) = EOTHER ∧ is_dir fs (rev (rev p)) = true) as [H1 H2].
  { rewrite rev_involutive. split; [|done]. by apply os_mkdir_exists, is_dir_exists. }
  destruct (rev p); simpl in *; by rewrite H1, H2.
Qed.

(** [mkdir] only adds directories, and the path is one afterwards. *)
Lemma mkdir_rev_spec fs rp fs' :
  mkdir_rev fs rp = Some fs' →
  fs ⊆ fs' ∧ is_dir fs' (rev rp) = true ∧
  (∀ k nd, fs' !! k = Some nd → fs !! k = Some nd ∨ nd = Dir ∧ fs !! k = None).
Proof.
  revert fs'. induction rp as [|c rp IH]; intros fs'.
  - cbn [mkdir_rev]. destruct (os_mkdir fs (rev [])) eqn:E.
    + intros [= <-]. by apply os_mkdir_Created_spec.
    + done.
    + destruct (is_dir fs (rev [])) eqn:Ed; [|done]. intros [= <-]. naive_solver.
  - cbn [mkdir_rev]. destruct (os_mkdir fs (rev (c :: rp))) eqn:E.
    + intros [= <-]. by apply os_mkdir_Created_spec.
    + destruct (mkdir_rev fs rp) as [fs1|] eqn:E1; [|done].
      destruct (IH _ eq_refl) as (Hsub & Hd & Hnew).
      destruct (os_mkdir fs1 (rev (c :: rp))) eqn:E2.
      * intros [= <-]. apply os_mkdir_Created_spec in E2 as (Hsub2 & Hd2 & Hnew2).
        split_and!; [by etrans|done|].
        intros k nd Hk. destruct (Hnew2 _ _ Hk) as [Hk1|[-> Hk1]].
        -- by apply Hnew.
        -- right. split; [done|].
           destruct (fs !! k) eqn:Ek; [|done].
           by rewrite (lookup_weaken _ _ _ _ Ek Hsub) in Hk1.
      * done.
      * destruct (is_dir fs1 (rev (c :: rp))) eqn:Ed; [|done]. intros [= <-]. done.
    + destruct (is_dir fs (rev (c :: rp))) eqn:Ed; [|done]. intros [= <-]. naive_solver.
Qed.

Lemma mkdir_parents_spec fs p fs' :
  mkdir_parents fs p = Some fs' →
  fs ⊆ fs' ∧ is_dir fs' p = true ∧
  (∀ k nd, fs' !! k = Some nd → fs !! k = Some nd ∨ nd = Dir ∧ fs !! k = None).
Proof.
  unfold mkdir_parents. intros H%mkdir_rev_spec. by rewrite rev_involutive in H.
Qed.

(** ** [write_text] of a file that is not there *)

Lemma write_text_new fs p s fs' :
  path_exists fs p = false →
  write_text fs p s = Some fs' →
  fs ⊆ fs' ∧ read_text fs' p = Some s ∧
  ∃ k, fs !! k = None ∧ fs' = <[k := File s]> fs.
Proof.
  unfold path_exists, write_text, read_text.
  destruct (stat fs p) as [|d [|c [|]]| |] eqn:E; try done.
  intros _ [= <-].
  pose proof (stat_Missing_inv _ _ _ _ E) as (c' & r' & [= <- <-] & Hnone).
  split_and!.
  - by apply insert_subseteq.
  - by rewrite (stat_create _ _ _ _ (File s)).
  - eauto.
Qed.

Lemma read_text_exists fs p s : read_text fs p = Some s → path_exists fs p = true.
Proof. unfold read_text, path_exists. by destruct (stat fs p). Qed.

(** ** [symlink_to] *)

Lemma symlink_to_spec fs link target fs' :
  symlink_to fs link target = Some fs' →
  ∃ d c, lstat fs link = Missing d [c] ∧ fs' = <[d ++ [c] := Link target]> fs ∧
         fs ⊆ fs' ∧ lstat fs' link = Found (d ++ [c]) (Link target).
Proof.
  unfold symlink_to. destruct (lstat fs link) as [|d [|c [|]]| |] eqn:E; try done.
  intros [= <-]. exists d, c. split_and!; [done..| |].
  - apply insert_subseteq. by eapply lstat_Missing_fresh.
  - by apply create_lstat.
Qed.
End fs_calls.

(** ** Dictionaries and sorting *)

Section dicts.
Context {V : Type}.
Implicit Types (d : dict V) (k : string) (v : V).

Lemma dict_get_set d k v k' :
  dict_get (dict_set d k v) k' = if decide (k = k') then Some v else dict_get d k'.
Proof.
  induction d as [|[k0 v0] d IH]; simpl.
  - done.
  - destruct (decide (k0 = k)) as [->|Hne]; simpl.
    + by destruct (decide (k = k')).
    + rewrite IH. destruct (decide (k0 = k')) as [->|]; [|done].
      by rewrite decide_False.
Qed.

Lemma dict_set_keys d k v k' : k' ∈ (dict_set d k v).*1 ↔ k' = k ∨ k' ∈ d.*1.
Proof.
  induction d as [|[k0 v0] d IH]; simpl.
  - set_solver.
  - destruct (decide (k0 = k)) as [->|Hne]; simpl; set_solver.
Qed.

Lemma dict_set_NoDup d k v : NoDup d.*1 → NoDup (dict_set d k v).*1.
Proof.
  induction d as [|[k0 v0] d IH]; simpl.
  - intros _. apply NoDup_singleton.
  - intros [Hnotin Hnd]%NoDup_cons.
    destruct (decide (k0 = k)) as [->|Hne]; simpl.
    + by apply NoDup_cons.
    + apply NoDup_cons. split; [|by apply IH].
      rewrite dict_set_keys. naive_solver.
Qed.

Lemma dict_get_Some_elem d k v : dict_get d k = Some v → (k, v) ∈ d.
Proof.
  induction d as [|[k0 v0] d IH]; simpl; [done|].
  destruct (decide (k0 = k)) as [->|Hne].
  - intros [= ->]. left.
  - intros H. right. by apply IH.
Qed.

Lemma dict_get_elem d k v : NoDup d.*1 → dict_get d k = Some v ↔ (k, v) ∈ d.
Proof.
  intros Hnd. split; [apply dict_get_Some_elem|].
  induction d as [|[k0 v0] d IH]; simpl.
  - by intros ?%elem_of_nil.
  - apply NoDup_cons in Hnd as [Hnotin Hnd].
    intros [[= <- <-]|Hin]%elem_of_cons.
    + by rewrite decide_True.
    + rewrite decide_False; [by apply IH|].
      intros ->. apply Hnotin. by apply (list_elem_of_fmap_2 fst) in Hin.
Qed.

Lemma dict_get_Permutation d d' k :
  NoDup d.*1 → d ≡ₚ d' → dict_get d' k = dict_get d k.
Proof.
  intros Hnd Hp.
  assert (NoDup d'.*1) as Hnd' by (by rewrite <- Hp).
  destruct (dict_get d k) as [v|] eqn:E.
  - apply dict_get_elem; [done|]. rewrite <- Hp. by apply dict_get_elem.
  - destruct (dict_get d' k) as [v|] eqn:E'; [|done].
    apply dict_get_elem in E'; [|done]. rewrite <- Hp in E'.
    apply dict_get_elem in E'; [|done]. congruence.
Qed.

Lemma dict_mem_true d k : dict_mem d k = true ↔ is_Some (dict_get d k).
Proof. unfold dict_mem. apply bool_decide_eq_true. Qed.

Lemma dict_mem_false d k : dict_mem d k = false ↔ dict_get d k = None.
Proof.
  unfold dict_mem. rewrite bool_decide_eq_false. rewrite <- eq_None_not_Some. done.
Qed.
End dicts.

Section sorting.
Context {A : Type} (le : A → A → bool).
Hypothesis le_total : ∀ x y, le x y = true ∨ le y x = true.
Implicit Types (x y : A) (l : list A).

Lemma insert_sorted_Permutation x l : insert_sorted le x l ≡ₚ x :: l.
Proof.
  induction l as [|y l IH]; simpl; [done|].
  destruct (le y x); [|done]. rewrite IH. apply Permutation_swap.
Qed.

Lemma sorted_by_Permutation l : sorted_by le l ≡ₚ l.
Proof.
  unfold sorted_by.
  cut (∀ acc, foldl (λ acc x, insert_sorted le x acc) acc l ≡ₚ acc ++ l).
  { intros H. apply H. }
  induction l as [|x l IH]; intros acc; simpl.
  - by rewrite app_nil_r.
  - rewrite IH, insert_sorted_Permutation. by rewrite <- Permutation_middle.
Qed.

Lemma insert_sorted_HdRel z x l :
  le z x = true → HdRel (λ a b, le a b = true) z l →
  HdRel (λ a b, le a b = true) z (insert_sorted le x l).
Proof.
  intros Hzx Hz. destruct l as [|y l]; simpl.
  - by constructor.
  - destruct (le y x); constructor; [|done]. by inversion Hz.
Qed.

Lemma insert_sorted_Sorted x l :
  Sorted (λ a b, le a b = true) l → Sorted (λ a b, le a b = true) (insert_sorted le x l).
Proof.
  induction l as [|y l IH]; simpl; intros Hs.
  - by repeat constructor.
  - apply Sorted_inv in Hs as [Hs Hhd].
    destruct (le y x) eqn:E.
    + constructor; [by apply IH|]. by apply insert_sorted_HdRel.
    + constructor; [by constructor|]. constructor.
      destruct (le_total x y); congruence.
Qed.

Lemma sorted_by_Sorted l : Sorted (λ a b, le a b = true) (sorted_by le l).
Proof.
  unfold sorted_by.
  cut (∀ acc, Sorted (λ a b, le a b = true) acc →
              Sorted (λ a b, le a b = true) (foldl (λ acc x, insert_sorted le x acc) acc l)).
  { intros H. apply H. constructor. }
  induction l as [|x l IH]; intros acc Hacc; simpl; [done|].
  apply IH. by apply insert_sorted_Sorted.
Qed.
End sorting.

Lemma key_le_total (kv1 kv2 : string * path) : key_le kv1 kv2 = true ∨ key_le kv2 kv1 = true.
Proof. apply String.leb_total. Qed.

(** ** The rules for global vaults *)

Section globals.
Implicit Types (cfg : Config) (fs : gmap path node) (p root d : path) (c : string).

Lemma is_mountable_global_true cfg fs p :
  is_mountable_global cfg fs p = true ↔
    is_dir fs p = true ∧ is_ignored_root_entry p = false ∧ is_symlink fs p = false ∧
    parent p = vault_root cfg ∧ path_exists fs (joinpath p (mount_dir cfg)) = false.
Proof.
  unfold is_mountable_global. split.
  - destruct (path_exists fs p) eqn:Ee; [|done].
    destruct (is_dir fs p) eqn:Ed; [|done]. simpl.
    destruct (is_ignored_root_entry p); [done|].
    destruct (is_symlink fs p); [done|].
    destruct (relative_to p (vault_root cfg)); [|done].
    case_bool_decide as Hp; [done|].
    destruct (path_exists fs (joinpath p (mount_dir cfg))); [done|].
    intros _. split_and!; try done.
  - intros (Hd & Hi & Hl & Hp & Hm).
    rewrite (is_dir_exists _ _ Hd), Hd, Hi, Hl, Hm. simpl.
    assert (∃ rel, relative_to p (vault_root cfg) = Some rel) as [rel ->].
    { destruct (parent_inv _ _ Hp) as [[-> ->]|[c ->]]; [by exists []|].
      exists [c]. apply relative_to_app. }
    by rewrite bool_decide_eq_false_2 by (by intros []).
Qed.

(** A mountable child of the root is a real directory in the directory
    the root leads to. *)
Lemma is_mountable_global_child cfg fs root c :
  is_mountable_global cfg fs (root ++ [c]) = true →
  ∃ d, stat fs root = Found d Dir ∧ fs !! (d ++ [c]) = Some Dir ∧
       lstat fs (root ++ [c]) = Found (d ++ [c]) Dir.
Proof.
  intros (Hd & _ & Hl & _ & _)%is_mountable_global_true.
  assert (is_dir fs root = true) as Hroot.
  { apply is_dir_exists, path_exists_app in Hd as [?|?]; done. }
  unfold is_dir in Hd, Hroot.
  destruct (stat fs (root ++ [c])) as [ph [| |]| | |] eqn:E; try done.
  destruct (stat fs root) as [d [| |]| | |] eqn:Er; try done.
  exists d. pose proof (stat_lstat _ _ _ _ E Hl) as El.
  rewrite (lstat_snoc _ _ _ _ Er) in El.
  destruct (fs !! (d ++ [c])) as [nd|] eqn:Ek; simplify_eq.
  split_and!; [done..|]. rewrite (lstat_snoc _ _ _ _ Er), Ek. done.
Qed.

Lemma is_mountable_global_root_dir cfg fs root c :
  is_mountable_global cfg fs (root ++ [c]) = true → is_dir fs root = true.
Proof.
  intros (d & H & _)%is_mountable_global_child. unfold is_dir. by rewrite H.
Qed.

(** ** Listing a directory *)

Lemma elem_of_entries fs d c : c ∈ entries fs d ↔ is_Some (fs !! (d ++ [c])).
Proof.
  unfold entries. rewrite list_elem_of_omap. split.
  - intros ([k nd] & Hin & Hf). simpl in Hf.
    apply elem_of_map_to_list in Hin.
    destruct (relative_to k d) as [[|c' [|]]|] eqn:E; simplify_eq.
    apply relative_to_Some in E as ->. eauto.
  - intros [nd Hk]. exists (d ++ [c], nd). split.
    + by apply elem_of_map_to_list.
    + simpl. by rewrite relative_to_app.
Qed.

Lemma iterdir_Some fs p names :
  iterdir fs p = Some names ↔ ∃ d, stat fs p = Found d Dir ∧ names = entries fs d.
Proof.
  unfold iterdir. destruct (stat fs p) as [d [| |]| | |]; naive_solver.
Qed.

Lemma iterdir_is_dir fs p : is_dir fs p = true → ∃ names, iterdir fs p = Some names.
Proof.
  unfold is_dir, iterdir. destruct (stat fs p) as [d [| |]| | |]; try done. eauto.
Qed.

(** ** Discovery *)

Lemma collect_globals_fold cfg fs root names (acc : dict path) :
  let out := foldl (λ out c,
                      let child := root ++ [c] in
                      if is_mountable_global cfg fs child
                      then dict_set out (name child) child else out)
                   acc names in
  (NoDup acc.*1 → NoDup out.*1) ∧
  ∀ n, dict_get out n =
       if decide (n ∈ names ∧ is_mountable_global cfg fs (root ++ [n]) = true)
       then Some (root ++ [n]) else dict_get acc n.
Proof.
  revert acc. induction names as [|c names IH]; intros acc; cbn [foldl].
  - split; [done|]. intros n. rewrite decide_False; [done|].
    intros [?%elem_of_nil _]. done.
  - destruct (is_mountable_global cfg fs (root ++ [c])) eqn:Em.
    + destruct (IH (dict_set acc (name (root ++ [c])) (root ++ [c]))) as [H1 H2].
      split; [intros Hacc; by apply H1, dict_set_NoDup|].
      intros n. rewrite H2, dict_get_set, name_snoc.
      destruct (decide (n ∈ names ∧ is_mountable_global cfg fs (root ++ [n]) = true))
        as [[Hin Hm]|Hnot].
      * rewrite decide_True; [done|]. split; [by right|done].
      * destruct (decide (c = n)) as [->|Hne].
        -- rewrite decide_True; [done|]. split; [by left|done].
        -- rewrite decide_False; [done|].
           intros [[?|?]%elem_of_cons ?]; [congruence|]. by apply Hnot.
    + destruct (IH acc) as [H1 H2]. split; [done|].
      intros n. rewrite H2.
      destruct (decide (n ∈ names ∧ is_mountable_global cfg fs (root ++ [n]) = true))
        as [[Hin Hm]|Hnot].
      * rewrite decide_True; [done|]. split; [by right|done].
      * rewrite decide_False; [done|].
        intros [[->|?]%elem_of_cons ?]; [congruence|]. by apply Hnot.
Qed.

Lemma collect_globals_spec cfg fs root names :
  NoDup (collect_globals cfg fs root names).*1 ∧
  ∀ n p, dict_get (collect_globals cfg fs root names) n = Some p ↔
         n ∈ names ∧ p = root ++ [n] ∧ is_mountable_global cfg fs p = true.
Proof.
  destruct (collect_globals_fold cfg fs root names []) as [H1 H2].
  split; [apply H1, NoDup_nil_2|].
  intros n p. unfold collect_globals. rewrite H2. cbn [dict_get].
  destruct (decide (n ∈ names ∧ is_mountable_global cfg fs (root ++ [n]) = true))
    as [[Hin Hm]|Hnot].
  - split; [by intros [= <-]|]. by intros (_ & -> & _).
  - split; [done|]. intros (? & -> & ?). destruct Hnot. done.
Qed.

Lemma discover_globals_unfold cfg fs :
  discover_globals cfg fs =
    match mkdir_parents fs (vault_root cfg) with
    | None => Raise FsError fs
    | Some fs1 =>
        match iterdir fs1 (vault_root cfg) with
        | None => Raise FsError fs1
        | Some names =>
            Ok (sorted_by key_le (collect_globals cfg fs1 (vault_root cfg) names)) fs1
        end
    end.
Proof.
  unfold discover_globals, mbind, M_bind, bind, fs_call, fs_read, ask, mret, M_ret, ret.
  destruct (mkdir_parents fs (vault_root cfg)); [|done].
  by destruct (iterdir _ (vault_root cfg)).
Qed.

(** What [discover_globals] returns: the filesystem with the root made,
    and the mountable children of the root by name, in order. *)
Lemma discover_globals_spec cfg fs m fs' :
  discover_globals cfg fs = Ok m fs' →
  mkdir_parents fs (vault_root cfg) = Some fs' ∧
  is_dir fs' (vault_root cfg) = true ∧
  NoDup m.*1 ∧
  Sorted (λ a b, key_le a b = true) m ∧
  ∀ n p, dict_get m n = Some p ↔
         p = vault_root cfg ++ [n] ∧ is_mountable_global cfg fs' p = true.
Proof.
  rewrite discover_globals_unfold.
  destruct (mkdir_parents fs (vault_root cfg)) as [fs1|] eqn:Emk; [|done].
  destruct (iterdir fs1 (vault_root cfg)) as [names|] eqn:Eit; [|done].
  intros [= <- <-].
  destruct (mkdir_parents_spec _ _ _ Emk) as (_ & Hd & _).
  destruct (collect_globals_spec cfg fs1 (vault_root cfg) names) as [Hnd Hget].
  pose proof (sorted_by_Permutation key_le
                (collect_globals cfg fs1 (vault_root cfg) names)) as Hperm.
  split_and!; [done..| | |].
  - by rewrite Hperm.
  - apply sorted_by_Sorted, key_le_total.
  - intros n p. rewrite (dict_get_Permutation _ _ _ Hnd); [|done].
    rewrite Hget. split; [naive_solver|]. intros [-> Hm]. split_and!; [|done..].
    apply iterdir_Some in Eit as (d & Hst & ->).
    apply is_mountable_global_child in Hm as (d' & Hst' & Hk & _).
    rewrite Hst in Hst'. simplify_eq. apply elem_of_entries. eauto.
Qed.

(** With the root in place discovery succeeds and changes nothing. *)
Lemma discover_globals_is_dir cfg fs :
  is_dir fs (vault_root cfg) = true → ∃ m, discover_globals cfg fs = Ok m fs.
Proof.
  intros Hd. rewrite discover_globals_unfold, (mkdir_parents_noop _ _ Hd).
  destruct (iterdir_is_dir _ _ Hd) as [names ->]. eauto.
Qed.

Lemma discover_globals_mountable cfg fs n :
  is_mountable_global cfg fs (vault_root cfg ++ [n]) = true →
  ∃ m, discover_globals cfg fs = Ok m fs ∧ dict_get m n = Some (vault_root cfg ++ [n]).
Proof.
  intros Hm. pose proof (is_mountable_global_root_dir _ _ _ _ Hm) as Hd.
  destruct (discover_globals_is_dir _ _ Hd) as [m Hdisc]. exists m. split; [done|].
  destruct (discover_globals_spec _ _ _ _ Hdisc) as (_ & _ & _ & _ & Hget).
  by apply Hget.
Qed.
End globals.

(** ** Making a chain of directories *)

Section mkdir_chain.
Implicit Types (fs : gmap path node) (p q d r k : path) (c : string).

Lemma closed_free fs d c :
  closed fs → fs !! (d ++ [c]) = None → ∀ r, fs !! (d ++ c :: r) = None.
Proof.
  intros Hcl Hnone r. induction r as [|x r IH] using rev_ind; [done|].
  destruct (fs !! (d ++ c :: r ++ [x])) as [nd|] eqn:E; [|done].
  apply Hcl in E.
  replace (d ++ c :: r ++ [x]) with ((d ++ c :: r) ++ [x]) in E
    by (by rewrite <- (assoc_L (++))).
  rewrite parent_snoc in E. destruct E as [E|E].
  - by destruct d.
  - pose proof (eq_trans (eq_sym IH) E). done.
Qed.

Lemma add_dirs_snoc fs d r c :
  add_dirs fs d (r ++ [c]) = <[d ++ r ++ [c] := Dir]> (add_dirs fs d r).
Proof.
  revert fs d. induction r as [|x r IH]; intros fs d; simpl; [done|].
  rewrite IH. by rewrite <- (assoc_L (++)).
Qed.

Lemma add_dirs_lookup_long fs d r k :
  (length (d ++ r) < length k)%nat → add_dirs fs d r !! k = fs !! k.
Proof.
  revert fs d. induction r as [|x r IH]; intros fs d Hlen; simpl; [done|].
  rewrite IH.
  - apply lookup_insert_ne. intros <-. rewrite !length_app in Hlen. simpl in Hlen. lia.
  - rewrite <- (assoc_L (++)). done.
Qed.

Lemma lstat_app_Missing fs q d c r :
  stat fs q = Found d Dir → fs !! (d ++ [c]) = None →
  lstat fs (q ++ c :: r) = Missing d (c :: r).
Proof.
  unfold stat, lstat. intros H Hnone.
  pose proof (walk_app limit false fs [] q (c :: r)) as Happ.
  rewrite H in Happ. destruct Happ as (n' & _ & ->); [done|].
  by rewrite walk_cons, Hnone.
Qed.

Lemma add_dirs_stat fs q d c r :
  stat fs q = Found d Dir →
  (∀ r1, fs !! (d ++ c :: r1) = None) →
  fs ⊆ add_dirs fs d (c :: r) ∧
  stat (add_dirs fs d (c :: r)) (q ++ c :: r) = Found (d ++ c :: r) Dir.
Proof.
  revert fs q d c. induction r as [|c2 r IH]; intros fs q d c Hq Hfree.
  - cbn [add_dirs]. split; [by apply insert_subseteq, Hfree|].
    apply create_stat; [|done]. by rewrite (lstat_snoc _ _ _ _ Hq), Hfree.
  - replace (q ++ c :: c2 :: r) with ((q ++ [c]) ++ c2 :: r)
      by (by rewrite <- (assoc_L (++))).
    replace (d ++ c :: c2 :: r) with ((d ++ [c]) ++ c2 :: r)
      by (by rewrite <- (assoc_L (++))).
    change (add_dirs fs d (c :: c2 :: r))
      with (add_dirs (<[d ++ [c] := Dir]> fs) (d ++ [c]) (c2 :: r)).
    destruct (IH (<[d ++ [c] := Dir]> fs) (q ++ [c]) (d ++ [c]) c2) as [Hsub Hst].
    + apply create_stat; [|done]. by rewrite (lstat_snoc _ _ _ _ Hq), Hfree.
    + intros r1. rewrite lookup_insert_ne.
      * rewrite <- (assoc_L (++)). apply Hfree.
      * intros Heq. apply (f_equal length) in Heq.
        rewrite !length_app in Heq. simpl in Heq. lia.
    + split; [|done]. etrans; [|exact Hsub]. apply insert_subseteq, (Hfree []).
Qed.

(** [mkdir] makes every directory that is missing below an existing one,
    when nothing is in the way. *)
Lemma mkdir_parents_creates fs q d c rest :
  stat fs q = Found d Dir →
  (∀ r, fs !! (d ++ c :: r) = None) →
  mkdir_parents fs (q ++ c :: rest) = Some (add_dirs fs d (c :: rest)).
Proof.
  intros Hq Hfree. unfold mkdir_parents.
  induction rest as [|x rest IH] using rev_ind.
  - rewrite rev_unit. cbn [mkdir_rev]. rewrite <- rev_unit, rev_involutive.
    unfold os_mkdir. by rewrite (lstat_snoc _ _ _ _ Hq), Hfree.
  - replace (q ++ c :: rest ++ [x]) with ((q ++ c :: rest) ++ [x])
      by (by rewrite <- (assoc_L (++))).
    rewrite rev_unit. cbn [mkdir_rev]. rewrite IH. rewrite <- rev_unit, rev_involutive.
    assert (os_mkdir fs ((q ++ c :: rest) ++ [x]) = ENOENT) as ->.
    { unfold os_mkdir. rewrite <- (assoc_L (++)). cbn [app].
      rewrite (lstat_app_Missing _ _ _ _ _ Hq (Hfree [])).
      by destruct rest. }
    destruct (add_dirs_stat fs q d c rest Hq Hfree) as [Hsub Hst].
    unfold os_mkdir. rewrite (lstat_snoc _ _ _ _ Hst).
    rewrite add_dirs_lookup_long, <- (assoc_L (++)).
    + cbn [app]. rewrite Hfree.
      change (c :: rest ++ [x]) with ((c :: rest) ++ [x]). rewrite add_dirs_snoc.
      by rewrite (assoc_L (++) d).
    + rewrite !length_app. simpl. lia.
Qed.
End mkdir_chain.

(** ** Resolved paths *)

Section resolve.
Implicit Types (fs : gmap path node) (p q d r k ph cur : path) (c : string).
Implicit Types (n : nat) (b : bool) (nd : node).

Lemma walk_physical n b fs cur r :
  physical fs cur →
  match walk n b fs cur r with
  | Found ph nd => (physical fs ph ∧ nd = Dir) ∨
                   (∃ d c, ph = d ++ [c] ∧ physical fs d ∧ fs !! ph = Some nd ∧ nd ≠ Dir)
  | Missing d _ => physical fs d
  | NotDir f _ => ∃ d c s, f = d ++ [c] ∧ physical fs d ∧ fs !! f = Some (File s)
  | Loop => True
  end.
Proof.
  revert n cur r.
  apply (walk_ind (λ n cur r, physical fs cur →
    match walk n b fs cur r with
    | Found ph nd => (physical fs ph ∧ nd = Dir) ∨
                     (∃ d c, ph = d ++ [c] ∧ physical fs d ∧ fs !! ph = Some nd ∧ nd ≠ Dir)
    | Missing d _ => physical fs d
    | NotDir f _ => ∃ d c s, f = d ++ [c] ∧ physical fs d ∧ fs !! f = Some (File s)
    | Loop => True
    end) b fs).
  - intros n cur Hc. rewrite walk_nil. by left.
  - intros n cur c rest E Hc. by rewrite walk_cons, E.
  - intros n cur c rest E IH Hc. rewrite walk_cons, E. apply IH. by constructor.
  - intros n cur c rest s E Hc. rewrite walk_cons, E. destruct rest.
    + right. by exists cur, c.
    + by exists cur, c, s.
  - intros n cur c rest t E Eb Hc. rewrite walk_cons, E, Eb. right. by exists cur, c.
  - intros cur c rest t E Eb Hc. by rewrite walk_cons, E, Eb.
  - intros n cur c rest t E Eb IH Hc. rewrite walk_cons, E, Eb. apply IH. constructor.
Qed.

Lemma walk_NotDir_rest n b fs cur p f r : walk n b fs cur p = NotDir f r → r ≠ [].
Proof.
  revert n cur p.
  apply (walk_ind (λ n cur p, walk n b fs cur p = NotDir f r → r ≠ []) b fs).
  - intros n cur. by rewrite walk_nil.
  - intros n cur c' rest E. by rewrite walk_cons, E.
  - intros n cur c' rest E IH. by rewrite walk_cons, E.
  - intros n cur c' rest s' E. rewrite walk_cons, E. destruct rest; [done|].
    by intros [= _ <-].
  - intros n cur c' rest t E Eb. by rewrite walk_cons, E, Eb.
  - intros cur c' rest t E Eb. by rewrite walk_cons, E, Eb.
  - intros n cur c' rest t E Eb IH. by rewrite walk_cons, E, Eb.
Qed.

(** Along a physical directory the lookup follows no link. *)
Lemma walk_along_physical n b fs d r :
  physical fs d → walk n b fs [] (d ++ r) = walk n b fs d r.
Proof.
  induction 1 as [|d c Hd IH E] in r |- *; [done|].
  rewrite <- (assoc_L (++)). cbn [app]. rewrite IH, walk_cons, E. done.
Qed.

Lemma stat_physical fs d : physical fs d → stat fs d = Found d Dir.
Proof.
  intros Hd. unfold stat. rewrite <- (app_nil_r d) at 1.
  rewrite walk_along_physical by done. apply walk_nil.
Qed.

End resolve.

(** ** The real path *)

Section realpath.
Implicit Types (fs : gmap path node) (p q d r k ph cur rest s t C Y : path) (c : string).
Implicit Types (n m fuel : nat) (b : bool) (nd : node).
Implicit Types (seen : gmap path (option path)).

Lemma joinrealpath_nil fuel fs cur seen :
  joinrealpath fuel fs cur [] seen = (cur, true, seen).
Proof. by destruct fuel. Qed.

Lemma joinrealpath_cons fuel fs cur c rest seen :
  joinrealpath fuel fs cur (c :: rest) seen =
    match lstat fs (cur ++ [c]) with
    | Found _ (Link target) =>
        match seen !! (cur ++ [c]) with
        | Some (Some p) => joinrealpath fuel fs p rest seen
        | Some None => ((cur ++ [c]) ++ rest, false, seen)
        | None =>
            match fuel with
            | O => ((cur ++ [c]) ++ rest, false, seen)
            | S fuel' =>
                match joinrealpath fuel' fs [] target (<[cur ++ [c] := None]> seen) with
                | (p, true, seen') => joinrealpath fuel fs p rest (<[cur ++ [c] := Some p]> seen')
                | (p, false, seen') => (p ++ rest, false, seen')
                end
            end
        end
    | _ => joinrealpath fuel fs (cur ++ [c]) rest seen
    end.
Proof. by destruct fuel. Qed.

(** One name below a physical directory. *)
Lemma lstat_physical fs d c :
  physical fs d →
  lstat fs (d ++ [c]) = match fs !! (d ++ [c]) with
                        | Some nd => Found (d ++ [c]) nd
                        | None => Missing d [c]
                        end.
Proof.
  intros Hd. unfold lstat. rewrite walk_along_physical by done. apply walk_last.
Qed.

(** The lookup of a terminal path. *)
Lemma walk_terminal n b fs q C :
  terminal fs q →
  walk n b fs [] (q ++ C) ≠ Loop ∧ resolved [] (walk n b fs [] (q ++ C)) = q ++ C ∧
  (C ≠ [] → ∀ ph nd, walk n b fs [] (q ++ C) ≠ Found ph nd).
Proof.
  intros (d & c & r & -> & Hd & Hc).
  rewrite <- (assoc_L (++)), walk_along_physical by done.
  rewrite <- app_comm_cons, walk_cons.
  destruct Hc as [->|[s ->]].
  - by cbn.
  - destruct (r ++ C) as [|x l] eqn:E.
    + apply app_eq_nil in E as [-> ->]. by cbn.
    + cbn. split_and!; [done|by rewrite <- (assoc_L (++))|done].
Qed.

Lemma terminal_app fs q r : terminal fs q → terminal fs (q ++ r).
Proof.
  intros (d & c & r0 & -> & Hd & Hc). exists d, c, (r0 ++ r).
  by rewrite <- (assoc_L (++)).
Qed.

Lemma lstat_terminal fs q c t ph :
  terminal fs q → lstat fs (q ++ [c]) ≠ Found ph (Link t).
Proof.
  intros Hq. by apply (walk_terminal limit false fs q [c] Hq).
Qed.

(** Below a terminal path everything is appended as it is. *)
Lemma joinrealpath_terminal fuel fs cur rest seen :
  terminal fs cur →
  joinrealpath fuel fs cur rest seen = (cur ++ rest, true, seen).
Proof.
  revert cur. induction rest as [|c rest IH]; intros cur Hc.
  - by rewrite joinrealpath_nil, app_nil_r.
  - rewrite joinrealpath_cons.
    pose proof (λ ph t, lstat_terminal fs cur c t ph Hc) as Hl.
    assert (joinrealpath fuel fs (cur ++ [c]) rest seen = (cur ++ c :: rest, true, seen)) as E.
    { rewrite IH by by apply terminal_app. by rewrite <- (assoc_L (++)). }
    destruct (lstat fs (cur ++ [c])) as [ph [| |t]| | |]; try done.
    by destruct (Hl ph t).
Qed.

(** The lookup of a clean path ends where the path says. *)
Lemma walk_clean n fs q :
  clean fs q →
  walk n true fs [] q ≠ Loop ∧ resolved [] (walk n true fs [] q) = q.
Proof.
  intros [Hq|Hq].
  - rewrite <- (app_nil_r q) at 1 2. rewrite walk_along_physical, walk_nil by done. done.
  - pose proof (walk_terminal n true fs q [] Hq) as (H1 & H2 & _).
    rewrite app_nil_r in H1, H2. done.
Qed.

Lemma flow_refl fs p : flow fs p p.
Proof. exists 0%nat. intros C m. split; [lia|]. by rewrite Nat.add_0_r. Qed.

Lemma flow_trans fs p q r : flow fs p q → flow fs q r → flow fs p r.
Proof.
  intros [k1 H1] [k2 H2]. exists (k2 + k1)%nat. intros C m. split.
  - intros Hm. destruct (decide (m < k1)%nat) as [Hlt|Hge].
    + by apply H1.
    + replace m with ((m - k1) + k1)%nat by lia.
      rewrite (proj2 (H1 C _)). apply H2. lia.
  - rewrite Nat.add_assoc. rewrite (proj2 (H1 C _)). apply H2.
Qed.

Lemma flow_app fs p q r : flow fs p q → flow fs (p ++ r) (q ++ r).
Proof.
  intros [k H]. exists k. intros C m. rewrite <- !(assoc_L (++)). apply H.
Qed.

(** Following the link at a physical place. *)
Lemma walk_link n fs d c t C :
  physical fs d → fs !! (d ++ [c]) = Some (Link t) →
  walk n true fs [] ((d ++ [c]) ++ C) =
    match n with O => Loop | S n' => walk n' true fs [] (t ++ C) end.
Proof.
  intros Hd E. rewrite <- (assoc_L (++)), walk_along_physical by done.
  change ([c] ++ C) with (c :: C). by rewrite walk_cons, E, andb_false_r.
Qed.

Lemma flow_link fs d c t :
  physical fs d → fs !! (d ++ [c]) = Some (Link t) → flow fs (d ++ [c]) t.
Proof.
  intros Hd E. exists 1%nat. intros C m. rewrite !(walk_link _ _ _ _ _ _ Hd E). split.
  - intros Hm. by assert (m = 0%nat) as -> by lia.
  - by rewrite Nat.add_1_r.
Qed.

Lemma flow_loops fs p q : flow fs p q → loops fs q → loops fs p.
Proof.
  intros [k H] Hq C m. destruct (decide (m < k)%nat) as [Hlt|Hge].
  - by apply H.
  - replace m with ((m - k) + k)%nat by lia. rewrite (proj2 (H C _)). apply Hq.
Qed.

Lemma loops_app fs p r : loops fs p → loops fs (p ++ r).
Proof. intros H C m. rewrite <- (assoc_L (++)). apply H. Qed.

(** A target whose lookup comes back to the link it is the target of. *)
Lemma flow_back_loops fs d c t Z :
  physical fs d → fs !! (d ++ [c]) = Some (Link t) →
  flow fs t ((d ++ [c]) ++ Z) → loops fs t.
Proof.
  intros Hd E [k H] C m. revert C. induction m as [m IH] using lt_wf_ind. intros C.
  destruct (decide (m < k)%nat) as [Hlt|Hge]; [by apply H|].
  replace m with ((m - k) + k)%nat by lia. rewrite (proj2 (H C _)).
  rewrite <- (assoc_L (++)), (walk_link _ _ _ _ _ _ Hd E).
  destruct (m - k)%nat as [|m'] eqn:Em; [done|].
  apply IH. lia.
Qed.

Lemma seen_ok_flow fs seen cp cp' :
  seen_ok fs seen cp → flow fs cp cp' → seen_ok fs seen cp'.
Proof.
  intros Hs Hf j o Hj. destruct (Hs j o Hj) as (t & Et & Ho). exists t. split; [done|].
  destruct o as [p|]; [done|]. destruct Ho as [Y HY]. exists Y.
  eapply flow_trans; [done|]. by apply flow_app.
Qed.

Lemma seen_ok_dom fs seen cp j :
  seen_ok fs seen cp → is_Some (seen !! j) → is_Some (fs !! j).
Proof. intros Hs [o Ho]. destruct (Hs j o Ho) as (t & Et & _). eauto. Qed.

(** With a link that is not in [seen], [seen] has fewer entries than the
    filesystem. *)
Lemma seen_ok_size fs seen cp j nd :
  seen_ok fs seen cp → seen !! j = None → fs !! j = Some nd → (size seen < size fs)%nat.
Proof.
  intros Hs Hj Ej.
  rewrite <- (size_dom (D := gset (list string)) seen).
  rewrite <- (size_dom (D := gset (list string)) fs).
  apply subset_size. split.
  - intros x Hx. apply elem_of_dom in Hx. apply elem_of_dom.
    by apply (seen_ok_dom fs seen cp).
  - intros Hsub. assert (j ∈ dom seen) as Hin by (apply Hsub, elem_of_dom; eauto).
    apply elem_of_dom in Hin as [? ?]. congruence.
Qed.

Lemma app_snoc {A} (l : list A) x l' : l ++ x :: l' = (l ++ [x]) ++ l'.
Proof. by rewrite <- (assoc_L (++)). Qed.

(** [joinrealpath] and the lookup agree: the real path is clean and is
    where the lookup comes to, and a failure is a lookup that never ends. *)
Lemma joinrealpath_sound fs fuel rest cur seen :
  physical fs cur →
  seen_ok fs seen (cur ++ rest) →
  (size fs ≤ fuel + size seen)%nat →
  match joinrealpath fuel fs cur rest seen with
  | (q, true, seen') =>
      flow fs (cur ++ rest) q ∧ clean fs q ∧
      (∀ j, seen' !! j = Some None → seen !! j = Some None) ∧
      (∀ j p, seen' !! j = Some (Some p) →
              ∃ t, fs !! j = Some (Link t) ∧ flow fs t p ∧ clean fs p) ∧
      (size seen ≤ size seen')%nat
  | (s, false, _) => loops fs (cur ++ rest) ∧ loops fs s
  end.
Proof.
  revert rest cur seen. induction fuel as [fuel IHf] using lt_wf_ind.
  induction rest as [|c rest IHr]; intros cur seen Hcur Hseen Hsize.
  { rewrite joinrealpath_nil, app_nil_r. rewrite app_nil_r in Hseen.
    split_and!; [apply flow_refl|by left| done | |done].
    intros j p Hj. destruct (Hseen j _ Hj) as (t & ? & ?). eauto. }
  (* going on from a clean path [p] the lookup has come to *)
  assert (∀ p seen1, clean fs p → flow fs ((cur ++ [c]) ++ rest) (p ++ rest) →
            seen_ok fs seen1 (p ++ rest) →
            (∀ j, seen1 !! j = Some None → seen !! j = Some None) →
            (size seen ≤ size seen1)%nat →
            match joinrealpath fuel fs p rest seen1 with
            | (q, true, seen') =>
                flow fs ((cur ++ [c]) ++ rest) q ∧ clean fs q ∧
                (∀ j, seen' !! j = Some None → seen !! j = Some None) ∧
                (∀ j p, seen' !! j = Some (Some p) →
                        ∃ t, fs !! j = Some (Link t) ∧ flow fs t p ∧ clean fs p) ∧
                (size seen ≤ size seen')%nat
            | (s, false, _) => loops fs ((cur ++ [c]) ++ rest) ∧ loops fs s
            end) as Hcont.
  { intros p seen1 [Hp|Hp] Hflow Hs1 Hin1 Hsz1.
    - specialize (IHr p seen1 Hp Hs1 ltac:(lia)).
      destruct (joinrealpath fuel fs p rest seen1) as [[q [|]] seen'].
      + destruct IHr as (Hf & Hq & Hin & Hca & Hsz).
        split_and!; [by eapply flow_trans|done|by eauto|done|lia].
      + destruct IHr as [Hl Hs]. split; [by eapply flow_loops|done].
    - rewrite joinrealpath_terminal by done.
      split_and!; [done|by right; apply terminal_app|done| |done].
      intros j p' Hj. destruct (Hs1 j _ Hj) as (t & ? & ?). eauto. }
  rewrite app_snoc in Hseen |- *.
  rewrite joinrealpath_cons, lstat_physical by done.
  destruct (fs !! (cur ++ [c])) as [[|s|t]|] eqn:E.
  - (* a directory *)
    apply Hcont; [left; by constructor|apply flow_refl|done|done|done].
  - (* a regular file *)
    apply Hcont; [|apply flow_refl|done|done|done].
    right. exists cur, c, []. split_and!; [done|done|right; eauto].
  - (* a link *)
    pose proof (flow_app fs _ _ rest (flow_link fs cur c t Hcur E)) as Hstep.
    destruct (seen !! (cur ++ [c])) as [[p|]|] eqn:Es.
    + (* resolved before *)
      destruct (Hseen _ _ Es) as (t' & Et' & Hf & Hp).
      assert (t' = t) as -> by congruence.
      assert (flow fs ((cur ++ [c]) ++ rest) (p ++ rest)) as Hflow.
      { eapply flow_trans; [done|]. by apply flow_app. }
      apply Hcont; [done|done| |done|done].
      by eapply seen_ok_flow.
    + (* being resolved: a loop *)
      destruct (Hseen _ _ Es) as (t' & Et' & Y & Hf).
      assert (t' = t) as -> by congruence.
      rewrite <- (assoc_L (++)) in Hf.
      pose proof (flow_back_loops fs cur c t _ Hcur E Hf) as Hl.
      assert (loops fs ((cur ++ [c]) ++ rest)).
      { eapply flow_loops; [done|]. by apply loops_app. }
      done.
    + (* met for the first time *)
      pose proof (seen_ok_size fs seen _ _ _ Hseen Es E) as Hlt.
      destruct fuel as [|fuel']; [lia|].
      assert (seen_ok fs (<[cur ++ [c] := None]> seen) ([] ++ t)) as Hs0.
      { intros j o Hj. destruct (decide (j = cur ++ [c])) as [->|Hne].
        - rewrite lookup_insert_eq in Hj. injection Hj as <-.
          exists t. split; [done|]. exists []. rewrite app_nil_r. apply flow_refl.
        - rewrite lookup_insert_ne in Hj by done.
          destruct (Hseen _ _ Hj) as (tj & Etj & Ho). exists tj. split; [done|].
          destruct o as [pj|]; [done|]. destruct Ho as [Y HY]. exists (rest ++ Y).
          eapply flow_trans; [done|]. cbn [app].
          rewrite (assoc_L (++) t). by apply flow_app. }
      specialize (IHf fuel' ltac:(lia) t [] _ (physical_root fs) Hs0).
      rewrite map_size_insert_None in IHf by done.
      specialize (IHf ltac:(lia)). cbn [app] in IHf.
      destruct (joinrealpath fuel' fs [] t (<[cur ++ [c] := None]> seen))
        as [[p [|]] seen'].
      * destruct IHf as (Hf & Hp & Hin & Hca & Hsz).
        assert (flow fs ((cur ++ [c]) ++ rest) (p ++ rest)) as Hflow.
        { eapply flow_trans; [done|]. by apply flow_app. }
        assert (∀ j, <[cur ++ [c] := Some p]> seen' !! j = Some None →
                     seen !! j = Some None) as Hin'.
        { intros j Hj. destruct (decide (j = cur ++ [c])) as [->|Hne].
          - by rewrite lookup_insert_eq in Hj.
          - rewrite lookup_insert_ne in Hj by done.
            apply Hin in Hj. by rewrite lookup_insert_ne in Hj. }
        apply Hcont; [done|done| |done|].
        -- intros j o Hj. destruct (decide (j = cur ++ [c])) as [->|Hne].
           ++ rewrite lookup_insert_eq in Hj. injection Hj as <-. eauto.
           ++ destruct o as [pj|].
              ** rewrite lookup_insert_ne in Hj by done.
                 destruct (Hca _ _ Hj) as (tj & ? & ? & ?). eauto.
              ** apply Hin' in Hj. destruct (Hseen _ _ Hj) as (tj & Etj & Y & HY).
                 exists tj. split; [done|]. exists Y.
                 eapply flow_trans; [done|]. by apply flow_app.
        -- rewrite map_size_insert. destruct (seen' !! (cur ++ [c])); unfold id; lia.
      * destruct IHf as [Hl Hs]. split.
        -- eapply flow_loops; [done|]. by apply loops_app.
        -- by apply loops_app.
  - (* no such entry *)
    apply Hcont; [|apply flow_refl|done|done|done].
    right. exists cur, c, []. split_and!; [done|done|by left].
Qed.

Lemma realpath_sound fs p :
  match joinrealpath (size fs) fs [] p ∅ with
  | (q, true, _) => realpath fs p = q ∧ flow fs p q ∧ clean fs q
  | (s, false, _) => realpath fs p = s ∧ loops fs p ∧ loops fs s
  end.
Proof.
  pose proof (joinrealpath_sound fs (size fs) p [] ∅ (physical_root fs)) as H.
  unfold realpath.
  destruct (joinrealpath (size fs) fs [] p ∅) as [[q [|]] seen'].
  - destruct H as (Hf & Hq & _); [done|lia|done].
  - destruct H as (Hl & Hs); [done|lia|done].
Qed.

(** [resolve] returns exactly when the lookup of the path ends, however
    many links it has to follow, and returns where it ends. *)
Lemma resolve_Some fs p q :
  resolve fs p = Some q ↔
  ∃ n, walk n true fs [] p ≠ Loop ∧ resolved [] (walk n true fs [] p) = q.
Proof.
  pose proof (realpath_sound fs p) as H. unfold resolve.
  destruct (joinrealpath (size fs) fs [] p ∅) as [[q' [|]] seen'].
  - destruct H as (-> & [k Hk] & Hq).
    pose proof (λ m, proj2 (Hk [] m)) as Hk'. setoid_rewrite app_nil_r in Hk'.
    pose proof (walk_clean limit fs q' Hq) as [Hs1 Hs2]. fold (stat fs q') in Hs1.
    assert (∀ n, walk n true fs [] p ≠ Loop →
                 resolved [] (walk n true fs [] p) = q') as Hn.
    { intros n Hn. pose proof (walk_clean n fs q' Hq) as [Hq1 Hq2].
      rewrite <- Hk' in Hq1, Hq2.
      rewrite <- (walk_fuel_mono n (n + k)) at 1 by (lia || done). done. }
    split.
    + intros Hr. assert (q' = q) as -> by (by destruct (stat fs q'); simplify_eq).
      exists k. pose proof (walk_clean 0 fs q Hq) as [Hq1 Hq2].
      rewrite <- (Hk' 0%nat) in Hq1, Hq2. done.
    + intros (n & Hne & Hres). rewrite (Hn n Hne) in Hres. subst q'.
      by destruct (stat fs q).
  - destruct H as (-> & Hl & Hs). pose proof (Hs [] limit) as Hst.
    rewrite app_nil_r in Hst. fold (stat fs q') in Hst. rewrite Hst. split; [done|].
    intros (n & Hne & _). pose proof (Hl [] n) as Hp. by rewrite app_nil_r in Hp.
Qed.

Lemma resolve_None fs p :
  resolve fs p = None ↔ ∀ n, walk n true fs [] p = Loop.
Proof.
  split.
  - intros Hr n.
    assert (walk n true fs [] p ≠ Loop → False) as Hne.
    { intros Hne.
      assert (resolve fs p = Some (resolved [] (walk n true fs [] p))) as E.
      { apply resolve_Some. eauto. }
      congruence. }
    destruct (walk n true fs [] p); try done; by destruct Hne.
  - intros Hl. destruct (resolve fs p) as [q|] eqn:E; [|done].
    apply resolve_Some in E as (n & Hne & _). by destruct (Hne (Hl n)).
Qed.

Lemma resolved_indep p p' res : res ≠ Loop → resolved p res = resolved p' res.
Proof. by destruct res. Qed.

Lemma resolve_walk n fs p :
  walk n true fs [] p ≠ Loop →
  resolve fs p = Some (resolved p (walk n true fs [] p)).
Proof.
  intros Hne. apply resolve_Some. exists n. split; [done|]. by apply resolved_indep.
Qed.

(** Where the platform's lookup ends, [resolve] ends the same way. *)
Lemma resolve_stat fs p :
  stat fs p ≠ Loop → resolve fs p = Some (resolved p (stat fs p)).
Proof. apply resolve_walk. Qed.

Lemma resolve_clean fs p q : resolve fs p = Some q → clean fs q.
Proof.
  intros (n & Hne & <-)%resolve_Some.
  pose proof (walk_physical n true fs [] p (physical_root fs)) as Hp.
  destruct (walk n true fs [] p) as [ph nd|d r|f r|] eqn:E; [| | |done]; cbn [resolved].
  - destruct Hp as [[Hph ->]|(d & c & -> & Hd & Hk & Hnd)]; [by left|].
    destruct nd as [|s|t]; [done| |by destruct (walk_follow_not_link _ _ _ _ _ _ E)].
    right. exists d, c, []. split_and!; [done|done|right; eauto].
  - apply walk_Missing_inv in E as (c & r' & -> & Hnone).
    right. exists d, c, r'. split_and!; [done|done|by left].
  - destruct Hp as (d & c & s & -> & Hd & Hk).
    right. exists d, c, r. split_and!; [by rewrite <- (assoc_L (++))|done|right; eauto].
Qed.

(** Resolving a resolved path changes nothing. *)
Lemma resolve_idemp fs p q : resolve fs p = Some q → resolve fs q = Some q.
Proof.
  intros Hq%resolve_clean. apply resolve_Some. exists 0%nat. by apply walk_clean.
Qed.

(** Filesystems whose lookups end together, and at the same path, resolve
    every path alike. *)
Lemma resolve_ext fs fs' p :
  (∀ n, walk n true fs' [] p = Loop ↔ walk n true fs [] p = Loop) →
  (∀ n, resolved [] (walk n true fs' [] p) = resolved [] (walk n true fs [] p)) →
  resolve fs' p = resolve fs p.
Proof.
  intros HL HR. destruct (resolve fs p) as [q|] eqn:E.
  - apply resolve_Some in E as (n & Hne & <-). apply resolve_Some. exists n.
    split; [by rewrite HL|done].
  - apply resolve_None. intros n. apply HL. by apply resolve_None.
Qed.

(** A lookup that finds a directory is a flow to it. *)
Lemma walk_flow n fs cur r d :
  physical fs cur → walk n true fs cur r = Found d Dir → flow fs (cur ++ r) d.
Proof.
  revert n cur r.
  apply (walk_ind (λ n cur r, physical fs cur → walk n true fs cur r = Found d Dir →
                              flow fs (cur ++ r) d) true fs).
  - intros n cur _. rewrite walk_nil, app_nil_r. intros [= <-]. apply flow_refl.
  - intros n cur c rest E _. by rewrite walk_cons, E.
  - intros n cur c rest E IH Hc. rewrite walk_cons, E, (app_snoc cur c rest). apply IH.
    by constructor.
  - intros n cur c rest s E _. rewrite walk_cons, E. by destruct rest.
  - intros n cur c rest t E Eb. by rewrite andb_false_r in Eb.
  - intros cur c rest t E Eb _. by rewrite walk_cons, E, Eb.
  - intros n cur c rest t E Eb IH Hc. rewrite walk_cons, E, Eb, (app_snoc cur c rest).
    intros H.
    eapply flow_trans; [by apply flow_app, flow_link|]. apply IH; [constructor|done].
Qed.

(** Paths of one flow resolve alike. *)
Lemma flow_resolve fs p q : flow fs p q → resolve fs p = resolve fs q.
Proof.
  intros [k H].
  pose proof (λ m, proj1 (H [] m)) as H1. pose proof (λ m, proj2 (H [] m)) as H2.
  setoid_rewrite app_nil_r in H1. setoid_rewrite app_nil_r in H2.
  apply option_eq. intros x. rewrite !resolve_Some. split.
  - intros (n & Hne & Hx). destruct (decide (n < k)%nat) as [Hlt|Hge].
    + by destruct Hne; apply H1.
    + exists (n - k)%nat. rewrite <- H2. by replace (n - k + k)%nat with n by lia.
  - intros (m & Hne & Hx). exists (m + k)%nat. by rewrite H2.
Qed.

End realpath.

(** ** The project vault *)

Section project_vault.
Implicit Types (cfg : Config) (fs : gmap path node) (p root : path).

Lemma ensure_project_vault_unfold cfg root fs :
  ensure_project_vault cfg root fs =
    let vault := (project_paths cfg root).1 in
    let mount := (project_paths cfg root).2 in
    let index := joinpath vault "index.md" in
    match mkdir_parents fs vault with
    | None => Raise FsError fs
    | Some fs1 =>
        match mkdir_parents fs1 mount with
        | None => Raise FsError fs1
        | Some fs2 =>
            if path_exists fs2 index then Ok (vault, mount) fs2
            else match write_text fs2 index ("# Project Notes" +:+ nl +:+ nl) with
                 | None => Raise FsError fs2
                 | Some fs3 => Ok (vault, mount) fs3
                 end
        end
    end.
Proof.
  unfold ensure_project_vault, project_paths.
  unfold mbind, M_bind, bind, fs_call, ask, mret, M_ret, ret. cbn [fst snd].
  destruct (mkdir_parents fs _) as [fs1|]; [|done].
  destruct (mkdir_parents fs1 _) as [fs2|]; [|done].
  destruct (path_exists fs2 _); [done|]. cbn [negb].
  by destruct (write_text fs2 _ _).
Qed.

(** With the vault in place nothing is done. *)
Lemma ensure_project_vault_noop cfg root fs :
  is_dir fs (project_paths cfg root).1 = true →
  is_dir fs (project_paths cfg root).2 = true →
  path_exists fs (joinpath (project_paths cfg root).1 "index.md") = true →
  ensure_project_vault cfg root fs = Ok (project_paths cfg root) fs.
Proof.
  intros Hv Hm Hi. rewrite ensure_project_vault_unfold. cbn zeta.
  rewrite (mkdir_parents_noop _ _ Hv), (mkdir_parents_noop _ _ Hm), Hi.
  by rewrite <- surjective_pairing.
Qed.

(** What a call that returns leaves behind. *)
Lemma ensure_project_vault_Ok cfg root fs r fs' :
  ensure_project_vault cfg root fs = Ok r fs' →
  r = project_paths cfg root ∧ fs ⊆ fs' ∧
  is_dir fs' (project_paths cfg root).1 = true ∧
  is_dir fs' (project_paths cfg root).2 = true ∧
  path_exists fs' (joinpath (project_paths cfg root).1 "index.md") = true.
Proof.
  rewrite ensure_project_vault_unfold. cbn zeta.
  destruct (mkdir_parents fs _) as [fs1|] eqn:E1; [|done].
  destruct (mkdir_parents fs1 _) as [fs2|] eqn:E2; [|done].
  apply mkdir_parents_spec in E1 as (Hs1 & Hd1 & _).
  apply mkdir_parents_spec in E2 as (Hs2 & Hd2 & _).
  destruct (path_exists fs2 _) eqn:Ei.
  - intros [= <- <-]. split_and!; try done.
    + by etrans.
    + by eapply is_dir_mono.
  - destruct (write_text fs2 _ _) as [fs3|] eqn:Ew; [|done].
    intros [= <- <-].
    apply write_text_new in Ew as (Hs3 & Hr & _); [|done].
    split_and!.
    + done.
    + etrans; [done|]. by etrans.
    + eapply is_dir_mono; [done|]. by eapply is_dir_mono.
    + by eapply is_dir_mono.
    + by eapply read_text_exists.
Qed.

(** Whether it returns or raises, nothing that was there is touched. *)
Lemma ensure_project_vault_final cfg root fs :
  fs ⊆ final_fs (ensure_project_vault cfg root fs).
Proof.
  rewrite ensure_project_vault_unfold. cbn zeta.
  destruct (mkdir_parents fs _) as [fs1|] eqn:E1; [|done].
  destruct (mkdir_parents fs1 _) as [fs2|] eqn:E2;
    [|simpl; by apply mkdir_parents_spec in E1 as (? & _)].
  apply mkdir_parents_spec in E1 as (Hs1 & _).
  apply mkdir_parents_spec in E2 as (Hs2 & _).
  destruct (path_exists fs2 _) eqn:Ei; [simpl; by etrans|].
  destruct (write_text fs2 _ _) as [fs3|] eqn:Ew; [|simpl; by etrans].
  apply write_text_new in Ew as (Hs3 & _); [|done].
  simpl. etrans; [done|]. by etrans.
Qed.

(** C8. [ensure_project_vault] is idempotent: a call that returned gives,
    called again, the same (vault path, mount path) pair, returns, and
    changes nothing; and whatever a call does, returning or raising, an
    index document that was there keeps its content. *)
Theorem ensure_project_vault_idempotent cfg root fs r fs1 :
  ensure_project_vault cfg root fs = Ok r fs1 →
  r = project_paths cfg root ∧
  ensure_project_vault cfg root fs1 = Ok r fs1 ∧
  ∀ fs0 s,
    read_text fs0 (joinpath (project_paths cfg root).1 "index.md") = Some s →
    read_text (final_fs (ensure_project_vault cfg root fs0))
              (joinpath (project_paths cfg root).1 "index.md") = Some s.
Proof.
  intros H. apply ensure_project_vault_Ok in H as (-> & _ & Hv & Hm & Hi).
  split_and!; [done|by apply ensure_project_vault_noop|].
  intros fs0 s Hs. eapply read_text_mono; [|done]. apply ensure_project_vault_final.
Qed.
End project_vault.

(** ** Inside a global vault *)

Section inside.
Implicit Types (cfg : Config) (fs : gmap path node) (p root rel rest : path) (c : string).

Lemma resolve_Found fs p ph nd : stat fs p = Found ph nd → resolve fs p = Some ph.
Proof. intros E. rewrite resolve_stat by by rewrite E. by rewrite E. Qed.

Lemma resolve_exists fs p : path_exists fs p = true → is_Some (resolve fs p).
Proof.
  unfold path_exists. destruct (stat fs p) as [ph nd| | |] eqn:E; try done.
  intros _. rewrite (resolve_Found _ _ _ _ E). eauto.
Qed.

Lemma is_inside_global_vault_unfold cfg fs p :
  is_inside_global_vault cfg fs p =
    match resolve fs p with
    | None => None
    | Some q =>
        if path_exists fs (vault_root cfg) then
          match resolve fs (vault_root cfg) with
          | None => None
          | Some r =>
              match relative_to q r with
              | Some (c :: _) => Some (is_mountable_global cfg fs (vault_root cfg ++ [c]))
              | _ => Some false
              end
          end
        else Some false
    end.
Proof.
  unfold is_inside_global_vault. destruct (resolve fs p) as [q|]; [|done]. cbn.
  destruct (path_exists fs (vault_root cfg)); [|done]. cbn.
  destruct (resolve fs (vault_root cfg)) as [r|]; [|done]. cbn.
  by destruct (relative_to q r) as [[|c l]|].
Qed.

Lemma is_inside_global_vault_under cfg fs p r c rest :
  path_exists fs (vault_root cfg) = true →
  resolve fs (vault_root cfg) = Some r →
  resolve fs p = Some (r ++ c :: rest) →
  is_inside_global_vault cfg fs p = Some (is_mountable_global cfg fs (vault_root cfg ++ [c])).
Proof.
  intros He Hr Hp. rewrite is_inside_global_vault_unfold, Hp, He, Hr.
  by rewrite relative_to_app.
Qed.

Lemma is_inside_global_vault_global cfg fs p r g rest :
  is_mountable_global cfg fs (vault_root cfg ++ [g]) = true →
  resolve fs (vault_root cfg) = Some r →
  resolve fs p = Some (r ++ g :: rest) →
  is_inside_global_vault cfg fs p = Some true.
Proof.
  intros Hm Hr Hp. rewrite (is_inside_global_vault_under _ _ _ r g rest); [by rewrite Hm| |done|done].
  by apply is_dir_exists, (is_mountable_global_root_dir cfg _ _ g).
Qed.

(** The check raises only when the path cannot be resolved. *)
Lemma is_inside_global_vault_None cfg fs p :
  is_inside_global_vault cfg fs p = None ↔ resolve fs p = None.
Proof.
  rewrite is_inside_global_vault_unfold. split; [|by intros ->].
  destruct (resolve fs p) as [q|]; [|done].
  destruct (path_exists fs (vault_root cfg)) eqn:He; [|done].
  destruct (resolve_exists _ _ He) as [r ->].
  by destruct (relative_to q r) as [[|c l]|].
Qed.


(** C3, as it holds. [is_mountable_global] says yes exactly when the path
    is a directory, its name starts with neither [.] nor [_], it is no
    symbolic link, its parent is [vault_root], and the path of [mount_dir]
    in it does not exist (a link there that leads nowhere does not count);
    for a path that does not exist it says no. *)
Theorem is_mountable_global_iff cfg fs p :
  (is_mountable_global cfg fs p = true ↔
     is_dir fs p = true ∧ is_ignored_root_entry p = false ∧ is_symlink fs p = false ∧
     parent p = vault_root cfg ∧ path_exists fs (joinpath p (mount_dir cfg)) = false) ∧
  (path_exists fs p = false → is_mountable_global cfg fs p = false).
Proof.
  split; [apply is_mountable_global_true|].
  intros He. unfold is_mountable_global. by rewrite He.
Qed.

(** C9, as it holds. Whatever exists at the path of [mount_dir] in [p],
    a directory, a regular file or a link that leads somewhere, makes
    [is_mountable_global] say no and keeps [p] out of what
    [discover_globals] returns. *)
Theorem mount_dir_entry_excludes cfg fs p :
  path_exists fs (joinpath p (mount_dir cfg)) = true →
  is_mountable_global cfg fs p = false ∧
  (∀ s, read_text fs (joinpath p (mount_dir cfg)) = Some s →
        is_mountable_global cfg fs p = false) ∧
  ∀ m fs', discover_globals cfg fs = Ok m fs' → ∀ n, dict_get m n ≠ Some p.
Proof.
  intros He.
  assert (∀ fs1, fs ⊆ fs1 → is_mountable_global cfg fs1 p = false) as Hno.
  { intros fs1 Hsub. destruct (is_mountable_global cfg fs1 p) eqn:Em; [|done].
    apply is_mountable_global_true in Em as (_ & _ & _ & _ & Hm).
    by rewrite (path_exists_mono _ _ _ Hsub He) in Hm. }
  split_and!.
  - by apply Hno.
  - intros _ _. by apply Hno.
  - intros m fs' Hd n Hn.
    apply discover_globals_spec in Hd as (Hmk & _ & _ & _ & Hget).
    apply Hget in Hn as [_ Hm].
    apply mkdir_parents_spec in Hmk as (Hsub & _). by rewrite (Hno _ Hsub) in Hm.
Qed.
End inside.

(** ** Discovery, and the locations that are refused *)

Section discovery.
Implicit Types (cfg : Config) (fs : gmap path node) (p q d root rel rest : path) (c : string).

(** C4. [discover_globals] returns with the filesystem unchanged when
    [vault_root] is a directory, and makes [vault_root] when it is missing
    below an existing directory; what it returns maps exactly the names of
    the children of [vault_root] that [is_mountable_global] accepts to
    these children, in ascending order of the lower-cased names, so without
    [_scratch] and without any child that holds a [mount_dir] directory. *)
Theorem discover_globals_correct cfg fs :
  (is_dir fs (vault_root cfg) = true → ∃ m, discover_globals cfg fs = Ok m fs) ∧
  (∀ q d c rest,
     closed fs → vault_root cfg = q ++ c :: rest →
     stat fs q = Found d Dir → fs !! (d ++ [c]) = None →
     ∃ m, discover_globals cfg fs = Ok m (add_dirs fs d (c :: rest))) ∧
  ∀ m fs',
    discover_globals cfg fs = Ok m fs' →
    fs ⊆ fs' ∧ is_dir fs' (vault_root cfg) = true ∧
    (∀ n p, dict_get m n = Some p ↔
            p = vault_root cfg ++ [n] ∧ is_mountable_global cfg fs' p = true) ∧
    (∀ n p, dict_get m n = Some p → name p = n) ∧
    NoDup m.*1 ∧
    Sorted (λ a b, String.leb (lower a.1) (lower b.1) = true) m ∧
    dict_get m "_scratch" = None ∧
    ∀ n, is_dir fs' (joinpath (vault_root cfg ++ [n]) (mount_dir cfg)) = true →
         dict_get m n = None.
Proof.
  split_and!.
  - apply discover_globals_is_dir.
  - intros q d c rest Hcl Hroot Hq Hnone.
    pose proof (closed_free _ _ _ Hcl Hnone) as Hfree.
    rewrite discover_globals_unfold, Hroot, (mkdir_parents_creates _ _ _ _ _ Hq Hfree).
    destruct (add_dirs_stat fs q d c rest Hq Hfree) as [_ Hst].
    unfold iterdir. rewrite Hst. eauto.
  - intros m fs' Hd.
    apply discover_globals_spec in Hd as (Hmk & Hdir & Hnd & Hsort & Hget).
    apply mkdir_parents_spec in Hmk as (Hsub & _).
    assert (∀ n, is_mountable_global cfg fs' (vault_root cfg ++ [n]) = false →
                 dict_get m n = None) as Hnone.
    { intros n Hn. destruct (dict_get m n) as [p|] eqn:E; [|done].
      apply Hget in E as [-> E]. by rewrite Hn in E. }
    split_and!; try done.
    + intros n p [-> _]%Hget. apply name_snoc.
    + apply Hnone. unfold is_mountable_global, is_ignored_root_entry.
      rewrite name_snoc.
      destruct (negb _ || negb _); [done|]. done.
    + intros n Hn. apply Hnone.
      destruct (is_mountable_global cfg fs' (vault_root cfg ++ [n])) eqn:E; [|done].
      apply is_mountable_global_true in E as (_ & _ & _ & _ & E).
      by rewrite (is_dir_exists _ _ Hn) in E.
Qed.

(** C1, as it holds. A project root that resolves to a mountable global
    vault or to a path inside one is refused: mounting, [cmd_mount] and
    [cmd_init] for a project raise [InvalidLocation] and leave the
    filesystem as it was. *)
Theorem nesting_rejected cfg fs p r g rest nm args :
  is_mountable_global cfg fs (vault_root cfg ++ [g]) = true →
  resolve fs (vault_root cfg) = Some r →
  resolve fs p = Some (r ++ g :: rest) →
  mount_global_into_project cfg p nm fs = Raise InvalidLocation fs ∧
  (arg_path args = p →
   cmd_mount cfg args fs = Raise InvalidLocation fs ∧
   (arg_global_name args = None ∨ arg_global_name args = Some "" →
    cmd_init cfg args fs = Raise InvalidLocation fs)).
Proof.
  intros Hm Hr Hp.
  pose proof (is_inside_global_vault_global _ _ _ _ _ _ Hm Hr Hp) as Hin.
  assert (is_inside_global_vault cfg fs (r ++ g :: rest) = Some true) as Hin'.
  { apply (is_inside_global_vault_global _ _ _ r g rest); [done|done|].
    by apply (resolve_idemp _ p). }
  split.
  - unfold mount_global_into_project, mbind, M_bind, bind, fs_resolve. by rewrite Hin.
  - intros Ha. split.
    + unfold cmd_mount, mount_global_into_project, mbind, M_bind, bind, fs_resolve.
      by rewrite Ha, Hp, Hin'.
    + intros Hg. unfold cmd_init, mbind, M_bind, bind, fs_resolve.
      destruct Hg as [-> | ->]; by rewrite Ha, Hp, Hin'.
Qed.
End discovery.

(** ** A new regular file moves no resolved path *)

Section new_file.
Implicit Types (fs : gmap path node) (p q d r k cur : path) (c s : string).
Implicit Types (n : nat) (b : bool).

Lemma walk_insert_file n b fs k s p cur r :
  fs !! k = None →
  resolved p (walk n b (<[k := File s]> fs) cur r) = resolved p (walk n b fs cur r).
Proof.
  intros Hk. revert n cur r.
  apply (walk_ind (λ n cur r,
    resolved p (walk n b (<[k := File s]> fs) cur r) = resolved p (walk n b fs cur r)) b fs).
  - intros n cur. by rewrite !walk_nil.
  - intros n cur c rest E. rewrite !walk_cons, E.
    destruct (decide (k = cur ++ [c])) as [->|Hne].
    + rewrite lookup_insert_eq. destruct rest; cbn [resolved]; [done|].
      by rewrite <- (assoc_L (++)).
    + by rewrite lookup_insert_ne, E.
  - intros n cur c rest E IH. rewrite !walk_cons, lookup_insert_ne, E; [done|].
    intros ->. by rewrite Hk in E.
  - intros n cur c rest s' E. rewrite !walk_cons, lookup_insert_ne, E; [done|].
    intros ->. by rewrite Hk in E.
  - intros n cur c rest t E Eb. rewrite !walk_cons, lookup_insert_ne, E, Eb; [done|].
    intros ->. by rewrite Hk in E.
  - intros cur c rest t E Eb. rewrite !walk_cons, lookup_insert_ne, E, Eb; [done|].
    intros ->. by rewrite Hk in E.
  - intros n cur c rest t E Eb IH. rewrite !walk_cons, lookup_insert_ne, E, Eb; [done|].
    intros ->. by rewrite Hk in E.
Qed.

Lemma walk_insert_file_Loop n b fs k s cur r :
  fs !! k = None →
  walk n b (<[k := File s]> fs) cur r = Loop ↔ walk n b fs cur r = Loop.
Proof.
  intros Hk. revert n cur r.
  apply (walk_ind (λ n cur r,
    walk n b (<[k := File s]> fs) cur r = Loop ↔ walk n b fs cur r = Loop) b fs).
  - intros n cur. by rewrite !walk_nil.
  - intros n cur c rest E. rewrite !walk_cons, E.
    destruct (decide (k = cur ++ [c])) as [->|Hne].
    + rewrite lookup_insert_eq. by destruct rest.
    + by rewrite lookup_insert_ne, E.
  - intros n cur c rest E IH. rewrite !walk_cons, lookup_insert_ne, E; [done|].
    intros ->. by rewrite Hk in E.
  - intros n cur c rest s' E. rewrite !walk_cons, lookup_insert_ne, E; [done|].
    intros ->. by rewrite Hk in E.
  - intros n cur c rest t E Eb. rewrite !walk_cons, lookup_insert_ne, E, Eb; [done|].
    intros ->. by rewrite Hk in E.
  - intros cur c rest t E Eb. rewrite !walk_cons, lookup_insert_ne, E, Eb; [done|].
    intros ->. by rewrite Hk in E.
  - intros n cur c rest t E Eb IH. rewrite !walk_cons, lookup_insert_ne, E, Eb; [done|].
    intros ->. by rewrite Hk in E.
Qed.

Lemma resolve_insert_file fs k s p :
  fs !! k = None → resolve (<[k := File s]> fs) p = resolve fs p.
Proof.
  intros Hk. apply resolve_ext.
  - intros n. by apply walk_insert_file_Loop.
  - intros n. by apply walk_insert_file.
Qed.

Lemma lstat_app_Found fs p r2 ph nd :
  r2 ≠ [] → lstat fs (p ++ r2) = Found ph nd → is_dir fs p = true.
Proof.
  intros Hr2 H. unfold is_dir.
  destruct (walk_app_Found limit false fs [] p r2 ph nd Hr2 H) as [d Hd].
  fold (stat fs p) in Hd. by rewrite Hd.
Qed.

(** Something at [p/c], followed or not, makes [p] a directory. *)
Lemma occupied_is_dir fs p c :
  path_exists fs (p ++ [c]) || is_symlink fs (p ++ [c]) = true → is_dir fs p = true.
Proof.
  intros [H|H]%orb_true_iff.
  - by apply path_exists_app in H as [?|?].
  - unfold is_symlink in H. destruct (lstat fs (p ++ [c])) eqn:E; [|done..].
    by eapply (lstat_app_Found _ _ [c]).
Qed.
End new_file.

(** ** Mounting *)

Section mounting.
Implicit Types (cfg : Config) (fs : gmap path node) (p root link target : path).
Implicit Types (nm : string).

(** What [mount_global_into_project] does at the link path. *)
Lemma mount_global_into_project_unfold cfg root nm fs :
  mount_global_into_project cfg root nm fs =
    match is_inside_global_vault cfg fs root with
    | None => Raise SymlinkLoop fs
    | Some true => Raise InvalidLocation fs
    | Some false =>
        match discover_globals cfg fs with
        | Raise e fs1 => Raise e fs1
        | Ok globals_map fs1 =>
            match dict_get globals_map nm with
            | None => Raise NotFound fs1
            | Some target =>
                match ensure_project_vault cfg root fs1 with
                | Raise e fs2 => Raise e fs2
                | Ok r fs2 =>
                    let link := joinpath r.2 nm in
                    if path_exists fs2 link || is_symlink fs2 link then
                      if is_symlink fs2 link then
                        match resolve fs2 link with
                        | None => Raise SymlinkLoop fs2
                        | Some a =>
                            match resolve fs2 target with
                            | None => Raise SymlinkLoop fs2
                            | Some b => if bool_decide (a = b) then Ok tt fs2
                                        else Raise AlreadyExists fs2
                            end
                        end
                      else Raise AlreadyExists fs2
                    else match symlink_to fs2 link target with
                         | Some fs3 => Ok tt fs3
                         | None => Raise FsError fs2
                         end
                end
            end
        end
    end.
Proof.
  unfold mount_global_into_project.
  unfold mbind, M_bind, bind, fs_call, fs_resolve, ask, mret, M_ret, ret, raise.
  destruct (is_inside_global_vault cfg fs root) as [[|]|]; [done| |done].
  destruct (discover_globals cfg fs) as [gm fs1|]; [|done].
  destruct (dict_get gm nm) as [target|]; [|done].
  destruct (ensure_project_vault cfg root fs1) as [[vault mount] fs2|]; [|done].
  cbn [snd]. destruct (path_exists fs2 _ || is_symlink fs2 _); [|done].
  destruct (is_symlink fs2 _); [|done].
  destruct (resolve fs2 (joinpath mount nm)) as [a|]; [|done].
  destruct (resolve fs2 target) as [b|]; [|done].
  by case_bool_decide.
Qed.

(** How a mount that returned went. *)
Lemma mount_global_into_project_Ok cfg root nm fs fs1 :
  mount_global_into_project cfg root nm fs = Ok tt fs1 →
  let link := joinpath (project_paths cfg root).2 nm in
  let target := vault_root cfg ++ [nm] in
  ∃ fsB,
    fsB ⊆ fs1 ∧
    is_dir fsB (project_paths cfg root).1 = true ∧
    is_dir fsB (project_paths cfg root).2 = true ∧
    path_exists fsB (joinpath (project_paths cfg root).1 "index.md") = true ∧
    ((fs1 = fsB ∧ is_symlink fsB link = true ∧
      ∃ a, resolve fsB link = Some a ∧ resolve fsB target = Some a) ∨
     symlink_to fsB link target = Some fs1).
Proof.
  rewrite mount_global_into_project_unfold.
  destruct (is_inside_global_vault cfg fs root) as [[|]|]; [done| |done].
  destruct (discover_globals cfg fs) as [gm fsA|] eqn:Ed; [|done].
  destruct (dict_get gm nm) as [target|] eqn:Eg; [|done].
  apply discover_globals_spec in Ed as (_ & _ & _ & _ & Hget).
  apply Hget in Eg as [-> _].
  destruct (ensure_project_vault cfg root fsA) as [r fsB|] eqn:Ee; [|done].
  apply ensure_project_vault_Ok in Ee as (-> & _ & Hv & Hm & Hi).
  cbn zeta. intros H. exists fsB.
  destruct (path_exists fsB _ || is_symlink fsB _) eqn:Eo.
  - destruct (is_symlink fsB _) eqn:El; [|done].
    destruct (resolve fsB (joinpath _ nm)) as [a|] eqn:Ea; [|done].
    destruct (resolve fsB (vault_root cfg ++ [nm])) as [b|] eqn:Eb; [|done].
    case_bool_decide as Er; [|done]. simplify_eq/=.
    split_and!; try done. left. eauto.
  - destruct (symlink_to fsB _ _) as [fs3|] eqn:Es; [|done]. simplify_eq/=.
    split_and!; try done.
    + by apply symlink_to_spec in Es as (d & c & _ & _ & ? & _).
    + by right.
Qed.

(** A link in a directory resolves to what its target resolves to. *)
Lemma resolve_link_last n fs r d c t :
  walk n true fs [] r = Found d Dir → fs !! (d ++ [c]) = Some (Link t) →
  resolve fs (r ++ [c]) = resolve fs t.
Proof.
  intros Hr E. apply flow_resolve.
  pose proof (walk_physical n true fs [] r (physical_root fs)) as Hd.
  rewrite Hr in Hd. destruct Hd as [[Hd _]|(? & ? & _ & _ & _ & ?)]; [|done].
  eapply flow_trans; [|by apply flow_link].
  apply flow_app, (walk_flow n fs [] r); [constructor|done].
Qed.

(** What a mount leaves at the link path: one symbolic link, which
    resolves to the global vault once that can be looked up. *)
Lemma mount_global_into_project_link cfg root nm fs fs1 :
  mount_global_into_project cfg root nm fs = Ok tt fs1 →
  let link := joinpath (project_paths cfg root).2 nm in
  let target := vault_root cfg ++ [nm] in
  is_symlink fs1 link = true ∧ resolve fs1 link = resolve fs1 target.
Proof.
  intros H1. cbn zeta.
  apply mount_global_into_project_Ok in H1 as (fsB & Hsub & Hv & Hmd & Hi & Hlink).
  cbn zeta in Hlink.
  destruct Hlink as [(-> & Hl & a & -> & ->)|Hs]; [done|].
  apply symlink_to_spec in Hs as (d & c & Hmiss & -> & _ & Hls).
  split; [unfold is_symlink; by rewrite Hls|].
  apply lstat_Missing_inv in Hmiss as (r & Hlk & Hst & Hnone).
  rewrite Hlk. apply (resolve_link_last limit _ _ d); [|by apply lookup_insert_eq].
  eapply (stat_mono fsB); [|done]. by apply insert_subseteq.
Qed.

(** C5, as it holds. When a mount returned, and afterwards the project
    root is still outside every global vault and the global vault is still
    mountable, then a second mount returns as well, changes nothing, and
    the mount path is one symbolic link that resolves to the global
    vault. *)
Theorem mount_idempotent cfg root nm fs fs1 :
  mount_global_into_project cfg root nm fs = Ok tt fs1 →
  is_inside_global_vault cfg fs1 root = Some false →
  is_mountable_global cfg fs1 (vault_root cfg ++ [nm]) = true →
  mount_global_into_project cfg root nm fs1 = Ok tt fs1 ∧
  is_symlink fs1 (joinpath (project_paths cfg root).2 nm) = true ∧
  ∃ a, resolve fs1 (joinpath (project_paths cfg root).2 nm) = Some a ∧
       resolve fs1 (vault_root cfg ++ [nm]) = Some a.
Proof.
  intros H1 Hin Hm.
  destruct (mount_global_into_project_link _ _ _ _ _ H1) as [Hl Hr].
  apply mount_global_into_project_Ok in H1 as (fsB & Hsub & Hv & Hmd & Hi & _).
  assert (is_Some (resolve fs1 (vault_root cfg ++ [nm]))) as [a Ha].
  { apply resolve_exists, is_dir_exists. by apply is_mountable_global_true in Hm as (? & _). }
  rewrite Ha in Hr.
  split_and!; [|done|by exists a].
  rewrite mount_global_into_project_unfold, Hin.
  destruct (discover_globals_mountable _ _ _ Hm) as (gm & -> & ->).
  rewrite ensure_project_vault_noop.
  - cbn zeta. cbn [snd]. rewrite Hl, Hr, Ha, orb_true_r.
    by rewrite bool_decide_eq_true_2.
  - by eapply is_dir_mono.
  - by eapply is_dir_mono.
  - by eapply path_exists_mono.
Qed.
End mounting.

Section conflict.
Implicit Types (cfg : Config) (fs : gmap path node) (p root link target : path).
Implicit Types (nm : string).

Lemma occupied_lstat fs p :
  path_exists fs p || is_symlink fs p = true → ∃ ph nd, lstat fs p = Found ph nd.
Proof.
  intros [H|H]%orb_true_iff.
  - unfold path_exists in H. destruct (stat fs p) eqn:E; [|done..].
    by eapply stat_exists_lstat.
  - unfold is_symlink in H. destruct (lstat fs p); [eauto|done..].
Qed.

(** A new regular file elsewhere leaves a wrong entry wrong. *)
Lemma incorrect_insert_file fs k s link target :
  fs !! k = None →
  path_exists fs link || is_symlink fs link = true →
  (is_symlink fs link = false ∨
   ∃ a, resolve fs link = Some a ∧ resolve fs target ≠ Some a) →
  path_exists (<[k := File s]> fs) link || is_symlink (<[k := File s]> fs) link = true ∧
  (is_symlink (<[k := File s]> fs) link = false ∨
   ∃ a, resolve (<[k := File s]> fs) link = Some a ∧
        resolve (<[k := File s]> fs) target ≠ Some a) ∧
  lstat (<[k := File s]> fs) link = lstat fs link.
Proof.
  intros Hk Hocc Hinc.
  assert (fs ⊆ <[k := File s]> fs) as Hsub by (by apply insert_subseteq).
  destruct (occupied_lstat _ _ Hocc) as (ph & nd & Hl).
  pose proof (lstat_mono _ _ _ _ _ Hsub Hl) as Hl'.
  split_and!.
  - apply orb_true_iff in Hocc as [H|H]; apply orb_true_iff.
    + left. by eapply path_exists_mono.
    + right. by eapply is_symlink_mono.
  - rewrite !resolve_insert_file by done.
    destruct Hinc as [H|H]; [left|by right].
    unfold is_symlink in *. rewrite Hl in H. by rewrite Hl'.
  - by rewrite Hl, Hl'.
Qed.

(** What the mount answers at a link path that is taken by something
    else. *)
Lemma conflict_at_link fs link target :
  path_exists fs link || is_symlink fs link = true →
  (is_symlink fs link = false ∨
   ∃ a, resolve fs link = Some a ∧ resolve fs target ≠ Some a) →
  is_Some (resolve fs target) →
  (if path_exists fs link || is_symlink fs link then
     if is_symlink fs link then
       match resolve fs link with
       | None => Raise SymlinkLoop fs
       | Some a =>
           match resolve fs target with
           | None => Raise SymlinkLoop fs
           | Some b => if bool_decide (a = b) then Ok tt fs else Raise AlreadyExists fs
           end
       end
     else Raise AlreadyExists fs
   else match symlink_to fs link target with
        | Some fs3 => Ok tt fs3
        | None => Raise FsError fs
        end) = Raise AlreadyExists fs.
Proof.
  intros -> Hinc [b Hb]. destruct (is_symlink fs link) eqn:El; [|done].
  destruct Hinc as [?|(a & -> & Hne)]; [done|]. rewrite Hb in Hne |- *.
  rewrite bool_decide_eq_false_2; [done|]. by intros ->.
Qed.

(** C6, as it holds. For a project root outside every global vault and a
    plain name that is a mountable global vault: when the link path is
    taken by something that is no symbolic link, or by a symbolic link
    that resolves, and to something else than the global vault does, the
    mount raises [AlreadyExists] and the entry at the link path stays as
    it is. The filesystem is unchanged when the index document of the
    project vault exists; when the project vault is a directory without
    one, the default one is written first (and when that fails, the error
    of the write is raised instead). *)
Theorem mount_conflict cfg root nm fs :
  plain nm = true →
  is_inside_global_vault cfg fs root = Some false →
  is_mountable_global cfg fs (vault_root cfg ++ [nm]) = true →
  path_exists fs (joinpath (project_paths cfg root).2 nm)
  || is_symlink fs (joinpath (project_paths cfg root).2 nm) = true →
  (is_symlink fs (joinpath (project_paths cfg root).2 nm) = false ∨
   ∃ a, resolve fs (joinpath (project_paths cfg root).2 nm) = Some a ∧
        resolve fs (vault_root cfg ++ [nm]) ≠ Some a) →
  (path_exists fs (joinpath (project_paths cfg root).1 "index.md") = true →
   mount_global_into_project cfg root nm fs = Raise AlreadyExists fs) ∧
  (is_dir fs (project_paths cfg root).1 = true →
   path_exists fs (joinpath (project_paths cfg root).1 "index.md") = false →
   match write_text fs (joinpath (project_paths cfg root).1 "index.md")
                    ("# Project Notes" +:+ nl +:+ nl) with
   | Some fs' =>
       mount_global_into_project cfg root nm fs = Raise AlreadyExists fs' ∧
       lstat fs' (joinpath (project_paths cfg root).2 nm)
       = lstat fs (joinpath (project_paths cfg root).2 nm)
   | None => mount_global_into_project cfg root nm fs = Raise FsError fs
   end).
Proof.
  intros Hnm Hin Hm Hocc Hinc.
  assert (is_dir fs (project_paths cfg root).2 = true) as Hdm.
  { rewrite (joinpath_plain _ _ Hnm) in Hocc. by eapply occupied_is_dir. }
  assert (∀ fs', is_Some (resolve fs' (vault_root cfg ++ [nm])) ∨ fs ⊆ fs' → fs ⊆ fs' →
                 is_Some (resolve fs' (vault_root cfg ++ [nm]))) as Ht.
  { intros fs' _ Hsub. apply resolve_exists, is_dir_exists.
    apply is_mountable_global_true in Hm as (Hd & _). by eapply is_dir_mono. }
  assert (mount_global_into_project cfg root nm fs
    = match ensure_project_vault cfg root fs with
      | Raise e fs2 => Raise e fs2
      | Ok r fs2 =>
          if path_exists fs2 (joinpath r.2 nm) || is_symlink fs2 (joinpath r.2 nm) then
            if is_symlink fs2 (joinpath r.2 nm) then
              match resolve fs2 (joinpath r.2 nm) with
              | None => Raise SymlinkLoop fs2
              | Some a =>
                  match resolve fs2 (vault_root cfg ++ [nm]) with
                  | None => Raise SymlinkLoop fs2
                  | Some b => if bool_decide (a = b) then Ok tt fs2
                              else Raise AlreadyExists fs2
                  end
              end
            else Raise AlreadyExists fs2
          else match symlink_to fs2 (joinpath r.2 nm) (vault_root cfg ++ [nm]) with
               | Some fs3 => Ok tt fs3
               | None => Raise FsError fs2
               end
      end) as Hmount.
  { rewrite mount_global_into_project_unfold, Hin.
    by destruct (discover_globals_mountable _ _ _ Hm) as (gm & -> & ->). }
  rewrite Hmount. clear Hmount.
  rewrite ensure_project_vault_unfold. cbn zeta.
  split.
  - intros Hi.
    assert (is_dir fs (project_paths cfg root).1 = true) as Hdv.
    { rewrite (joinpath_plain _ "index.md") in Hi by done.
      by apply path_exists_app in Hi as [?|?]. }
    rewrite (mkdir_parents_noop _ _ Hdv), (mkdir_parents_noop _ _ Hdm), Hi.
    cbn [snd]. apply conflict_at_link; [done|done|by apply Ht; [right|]].
  - intros Hdv Hi0.
    rewrite (mkdir_parents_noop _ _ Hdv), (mkdir_parents_noop _ _ Hdm), Hi0.
    destruct (write_text fs _ _) as [fs'|] eqn:Ew; [|done].
    apply write_text_new in Ew as (_ & _ & k & Hk & ->); [|done].
    destruct (incorrect_insert_file fs k ("# Project Notes" +:+ nl +:+ nl)
                _ (vault_root cfg ++ [nm]) Hk Hocc Hinc) as (Ho & Hi & Hl).
    cbn [snd]. split; [|done].
    apply conflict_at_link; [done|done|].
    apply Ht; [right|]; by apply insert_subseteq.
Qed.
End conflict.

(** ** Global vaults on demand *)

Section global_vault.
Implicit Types (cfg : Config) (fs : gmap path node) (p q d root target : path).
Implicit Types (nm c : string).

Lemma add_dirs_lstat fs q d c r :
  stat fs q = Found d Dir →
  (∀ r1, fs !! (d ++ c :: r1) = None) →
  lstat (add_dirs fs d (c :: r)) (q ++ c :: r) = Found (d ++ c :: r) Dir.
Proof.
  revert fs q d c. induction r as [|c2 r IH]; intros fs q d c Hq Hfree.
  - cbn [add_dirs]. apply create_lstat. by rewrite (lstat_snoc _ _ _ _ Hq), Hfree.
  - replace (q ++ c :: c2 :: r) with ((q ++ [c]) ++ c2 :: r)
      by (by rewrite <- (assoc_L (++))).
    replace (d ++ c :: c2 :: r) with ((d ++ [c]) ++ c2 :: r)
      by (by rewrite <- (assoc_L (++))).
    change (add_dirs fs d (c :: c2 :: r))
      with (add_dirs (<[d ++ [c] := Dir]> fs) (d ++ [c]) (c2 :: r)).
    apply IH.
    + apply create_stat; [|done]. by rewrite (lstat_snoc _ _ _ _ Hq), Hfree.
    + intros r1. rewrite lookup_insert_ne.
      * rewrite <- (assoc_L (++)). apply Hfree.
      * intros Heq. apply (f_equal length) in Heq.
        rewrite !length_app in Heq. simpl in Heq. lia.
Qed.

Lemma ensure_global_vault_unfold cfg nm fs :
  ensure_global_vault cfg nm fs =
    if String.prefix "_" nm || String.prefix "." nm then Raise InvalidName fs
    else
      let target := joinpath (vault_root cfg) nm in
      match mkdir_parents fs target with
      | None => Raise FsError fs
      | Some fs1 =>
          if path_exists fs1 (joinpath target (mount_dir cfg))
          then Raise StructuralViolation fs1
          else if path_exists fs1 (joinpath target "index.md") then Ok target fs1
          else match write_text fs1 (joinpath target "index.md")
                                ("# " +:+ nm +:+ nl +:+ nl) with
               | None => Raise FsError fs1
               | Some fs2 => Ok target fs2
               end
      end.
Proof.
  unfold ensure_global_vault.
  destruct (String.prefix "_" nm || String.prefix "." nm); [done|].
  unfold mbind, M_bind, bind, fs_call, ask, mret, M_ret, ret, raise.
  destruct (mkdir_parents fs _) as [fs1|]; [|done].
  destruct (path_exists fs1 (joinpath _ (mount_dir cfg))); [done|].
  destruct (path_exists fs1 _); [done|]. cbn [negb].
  by destruct (write_text fs1 _ _).
Qed.

(** A real directory with nothing where [mount_dir] would be is mountable,
    whatever else it holds. *)
Lemma real_dir_mountable cfg fs nm ph :
  String.prefix "_" nm || String.prefix "." nm = false →
  lstat fs (vault_root cfg ++ [nm]) = Found ph Dir →
  path_exists fs (joinpath (vault_root cfg ++ [nm]) (mount_dir cfg)) = false →
  is_mountable_global cfg fs (vault_root cfg ++ [nm]) = true.
Proof.
  intros Hv Hl Hm. apply is_mountable_global_true.
  pose proof (lstat_stat _ _ _ _ Hl) as Hs.
  split_and!.
  - unfold is_dir. by rewrite Hs.
  - unfold is_ignored_root_entry. rewrite name_snoc. by rewrite orb_comm.
  - unfold is_symlink. by rewrite Hl.
  - apply parent_snoc.
  - done.
Qed.

Lemma stat_snoc_None fs p d c :
  stat fs p = Found d Dir → fs !! (d ++ [c]) = None → path_exists fs (p ++ [c]) = false.
Proof.
  intros Hp Hnone. unfold path_exists. rewrite (stat_snoc _ _ _ _ Hp), Hnone; [done|].
  intros t. by rewrite Hnone.
Qed.

(** Writing the index into a real directory that has neither an index nor
    anything where [mount_dir] would be. *)
Lemma index_written cfg fs nm ph txt :
  String.prefix "_" nm || String.prefix "." nm = false →
  plain (mount_dir cfg) = true → mount_dir cfg ≠ "index.md" →
  lstat fs (vault_root cfg ++ [nm]) = Found ph Dir →
  fs !! (ph ++ [mount_dir cfg]) = None →
  fs !! (ph ++ ["index.md"]) = None →
  path_exists fs (joinpath (vault_root cfg ++ [nm]) (mount_dir cfg)) = false ∧
  path_exists fs (joinpath (vault_root cfg ++ [nm]) "index.md") = false ∧
  write_text fs (joinpath (vault_root cfg ++ [nm]) "index.md") txt
  = Some (<[ph ++ ["index.md"] := File txt]> fs) ∧
  is_mountable_global cfg (<[ph ++ ["index.md"] := File txt]> fs) (vault_root cfg ++ [nm])
  = true.
Proof.
  intros Hv Hmd Hne Hl Hm Hi.
  assert (stat fs (vault_root cfg ++ [nm]) = Found ph Dir) as Hs by (by apply lstat_stat).
  rewrite (joinpath_plain _ _ Hmd), joinpath_index.
  assert (fs ⊆ <[ph ++ ["index.md"] := File txt]> fs) as Hsub by (by apply insert_subseteq).
  split_and!.
  - by apply (stat_snoc_None _ _ ph).
  - by apply (stat_snoc_None _ _ ph).
  - unfold write_text. rewrite (stat_snoc _ _ _ _ Hs), Hi; [done|].
    intros t. by rewrite Hi.
  - apply (real_dir_mountable _ _ _ ph); [done|by eapply lstat_mono|].
    rewrite (joinpath_plain _ _ Hmd). apply (stat_snoc_None _ _ ph).
    + eapply stat_mono; [done|]. by apply Hs.
    + rewrite lookup_insert_ne; [done|]. intros [=]%(inj (app ph)). done.
Qed.

(** C7, as it holds. [ensure_global_vault] raises [InvalidName] for a name
    that starts with [_] or [.], touching nothing; raises
    [StructuralViolation] when the vault is a directory and the path of
    [mount_dir] in it exists, touching nothing; and when it returns, it
    returns [vault_root/name], which is then a directory with an index
    document, and an index document that was there keeps its content.
    For a plain name it returns, and [discover_globals] then has the name,
    when the vault is a real directory that holds an index and no
    [mount_dir]; when it is a real directory with neither an entry for the
    index nor one for [mount_dir]; and when it is missing below an existing
    directory with nothing in the way (the last two for a plain
    [mount_dir] other than [index.md]). *)
Theorem ensure_global_vault_spec cfg nm fs :
  (String.prefix "_" nm || String.prefix "." nm = true →
   ensure_global_vault cfg nm fs = Raise InvalidName fs) ∧
  (String.prefix "_" nm || String.prefix "." nm = false →
   is_dir fs (joinpath (vault_root cfg) nm) = true →
   path_exists fs (joinpath (joinpath (vault_root cfg) nm) (mount_dir cfg)) = true →
   ensure_global_vault cfg nm fs = Raise StructuralViolation fs) ∧
  (∀ t fs',
     ensure_global_vault cfg nm fs = Ok t fs' →
     t = joinpath (vault_root cfg) nm ∧ fs ⊆ fs' ∧ is_dir fs' t = true ∧
     path_exists fs' (joinpath t "index.md") = true ∧
     ∀ s, read_text fs (joinpath t "index.md") = Some s →
          read_text fs' (joinpath t "index.md") = Some s) ∧
  (String.prefix "_" nm || String.prefix "." nm = false → plain nm = true →
   (∀ ph,
      lstat fs (vault_root cfg ++ [nm]) = Found ph Dir →
      path_exists fs (joinpath (vault_root cfg ++ [nm]) (mount_dir cfg)) = false →
      path_exists fs (joinpath (vault_root cfg ++ [nm]) "index.md") = true →
      ensure_global_vault cfg nm fs = Ok (vault_root cfg ++ [nm]) fs ∧
      ∃ m, discover_globals cfg fs = Ok m fs ∧
           dict_get m nm = Some (vault_root cfg ++ [nm])) ∧
   (plain (mount_dir cfg) = true → mount_dir cfg ≠ "index.md" →
    (∀ ph,
       lstat fs (vault_root cfg ++ [nm]) = Found ph Dir →
       fs !! (ph ++ [mount_dir cfg]) = None →
       fs !! (ph ++ ["index.md"]) = None →
       ∃ fs',
         fs' = <[ph ++ ["index.md"] := File ("# " +:+ nm +:+ nl +:+ nl)]> fs ∧
         ensure_global_vault cfg nm fs = Ok (vault_root cfg ++ [nm]) fs' ∧
         ∃ m, discover_globals cfg fs' = Ok m fs' ∧
              dict_get m nm = Some (vault_root cfg ++ [nm])) ∧
    (∀ q d c rest,
       closed fs →
       vault_root cfg ++ [nm] = q ++ c :: rest →
       stat fs q = Found d Dir →
       fs !! (d ++ [c]) = None →
       ∃ fs',
         fs' = <[(d ++ c :: rest) ++ ["index.md"] := File ("# " +:+ nm +:+ nl +:+ nl)]>
                 (add_dirs fs d (c :: rest)) ∧
         ensure_global_vault cfg nm fs = Ok (vault_root cfg ++ [nm]) fs' ∧
         ∃ m, discover_globals cfg fs' = Ok m fs' ∧
              dict_get m nm = Some (vault_root cfg ++ [nm])))).
Proof.
  split_and!.
  - intros Hv. by rewrite ensure_global_vault_unfold, Hv.
  - intros Hv Hd Hm. rewrite ensure_global_vault_unfold, Hv. cbn zeta.
    by rewrite (mkdir_parents_noop _ _ Hd), Hm.
  - intros t fs'. rewrite ensure_global_vault_unfold.
    destruct (String.prefix "_" nm || String.prefix "." nm); [done|]. cbn zeta.
    destruct (mkdir_parents fs _) as [fs1|] eqn:Emk; [|done].
    apply mkdir_parents_spec in Emk as (Hsub & Hd & _).
    destruct (path_exists fs1 (joinpath _ (mount_dir cfg))); [done|].
    destruct (path_exists fs1 (joinpath _ "index.md")) eqn:Ei.
    + intros [= <- <-]. split_and!; try done. intros s. by apply read_text_mono.
    + destruct (write_text fs1 _ _) as [fs2|] eqn:Ew; [|done]. intros [= <- <-].
      pose proof Ew as Ew'. apply write_text_new in Ew' as (Hsub2 & Hr & _); [|done].
      split_and!; try done.
      * by etrans.
      * by eapply is_dir_mono.
      * by eapply read_text_exists.
      * intros s Hs. apply (read_text_mono _ _ _ _ Hsub) in Hs.
        apply read_text_exists in Hs. by rewrite Hs in Ei.
  - intros Hv Hnm. split; [|intros Hmd Hne; split].
    + intros ph Hl Hm Hi.
      assert (is_dir fs (vault_root cfg ++ [nm]) = true) as Hd.
      { unfold is_dir. by rewrite (lstat_stat _ _ _ _ Hl). }
      split.
      * rewrite ensure_global_vault_unfold, Hv. cbn zeta.
        rewrite (joinpath_plain _ _ Hnm), (mkdir_parents_noop _ _ Hd), Hm, Hi. done.
      * apply discover_globals_mountable. by apply (real_dir_mountable _ _ _ ph).
    + intros ph Hl Hm Hi. eexists. split; [done|].
      assert (is_dir fs (vault_root cfg ++ [nm]) = true) as Hd.
      { unfold is_dir. by rewrite (lstat_stat _ _ _ _ Hl). }
      destruct (index_written cfg fs nm ph ("# " +:+ nm +:+ nl +:+ nl)
                  Hv Hmd Hne Hl Hm Hi) as (Hm' & Hi' & Hw & Hmount).
      split.
      * rewrite ensure_global_vault_unfold, Hv. cbn zeta.
        rewrite (joinpath_plain _ _ Hnm), (mkdir_parents_noop _ _ Hd), Hm', Hi', Hw. done.
      * by apply discover_globals_mountable.
    + intros q d c rest Hcl Hroot Hq Hnone. eexists. split; [done|].
      pose proof (closed_free _ _ _ Hcl Hnone) as Hfree.
      pose proof (add_dirs_lstat fs q d c rest Hq Hfree) as Hl.
      rewrite <- Hroot in Hl.
      assert (∀ x, add_dirs fs d (c :: rest) !! ((d ++ c :: rest) ++ [x]) = None) as Hin.
      { intros x. rewrite add_dirs_lookup_long.
        - rewrite <- (assoc_L (++)). apply Hfree.
        - rewrite !length_app. simpl. lia. }
      destruct (index_written cfg (add_dirs fs d (c :: rest)) nm (d ++ c :: rest)
                  ("# " +:+ nm +:+ nl +:+ nl) Hv Hmd Hne Hl (Hin _) (Hin _))
        as (Hm' & Hi' & Hw & Hmount).
      split.
      * rewrite ensure_global_vault_unfold, Hv. cbn zeta.
        rewrite (joinpath_plain _ _ Hnm), Hroot.
        rewrite (mkdir_parents_creates _ _ _ _ _ Hq Hfree).
        rewrite <- Hroot. rewrite Hm', Hi', Hw. done.
      * by apply discover_globals_mountable.
Qed.
End global_vault.

(** ** Mounting on initialisation *)

Section auto_mount.
Implicit Types (cfg : Config) (fs : gmap path node) (root : path).
Implicit Types (globals_map : dict path) (names : list string).

Lemma auto_mount_loop_cons cfg root globals_map nm names fs :
  auto_mount_loop cfg root globals_map (nm :: names) fs =
    if dict_mem globals_map nm then
      match mount_global_into_project cfg root nm fs with
      | Ok _ fs' => auto_mount_loop cfg root globals_map names fs'
      | Raise e fs' => Raise e fs'
      end
    else auto_mount_loop cfg root globals_map names fs.
Proof.
  cbn [auto_mount_loop]. unfold mbind, M_bind, bind.
  destruct (dict_mem globals_map nm); [|done].
  by destruct (mount_global_into_project cfg root nm fs).
Qed.

Lemma auto_mount_loop_none cfg root globals_map names fs :
  (∀ nm, nm ∈ names → dict_get globals_map nm = None) →
  auto_mount_loop cfg root globals_map names fs = Ok tt fs.
Proof.
  induction names as [|nm names IH]; intros Hnone; [done|].
  rewrite auto_mount_loop_cons.
  destruct (dict_mem globals_map nm) eqn:E.
  - apply dict_mem_true in E as [p E]. rewrite Hnone in E; [done|left].
  - apply IH. intros nm' Hin. apply Hnone. by right.
Qed.

Lemma auto_mount_loop_filter cfg root globals_map names fs :
  auto_mount_loop cfg root globals_map names fs
  = auto_mount_loop cfg root globals_map
      (filter (λ nm, dict_mem globals_map nm = true) names) fs.
Proof.
  revert fs. induction names as [|nm names IH]; intros fs; [done|].
  rewrite filter_cons, auto_mount_loop_cons.
  destruct (dict_mem globals_map nm) eqn:E.
  - rewrite decide_True by done. rewrite auto_mount_loop_cons, E.
    by destruct (mount_global_into_project cfg root nm fs).
  - by rewrite decide_False by done.
Qed.

End auto_mount.

Lemma closedb_closed (fs : gmap path node) : closedb fs = true → closed fs.
Proof.
  unfold closedb. rewrite forallb_forall. intros H k nd Hk.
  specialize (H (k, nd)). cbn [fst] in H.
  assert (bool_decide (parent k = []) || bool_decide (fs !! parent k = Some Dir) = true)
    as [Hp|Hp]%orb_true_iff.
  { apply H. apply list_elem_of_In. by apply elem_of_map_to_list. }
  - left. by apply bool_decide_eq_true in Hp.
  - right. by apply bool_decide_eq_true in Hp.
Qed.

(** ** A regular file written again *)

Section overwrite.
Implicit Types (fs : gmap path node) (p q d r k cur ph : path) (c s : string).
Implicit Types (n : nat) (b : bool).

Lemma walk_overwrite n b fs k s0 s cur r :
  fs !! k = Some (File s0) →
  walk n b (<[k := File s]> fs) cur r = with_content k s (walk n b fs cur r).
Proof.
  intros Hk. revert n cur r.
  apply (walk_ind (λ n cur r,
    walk n b (<[k := File s]> fs) cur r = with_content k s (walk n b fs cur r)) b fs).
  - intros n cur. by rewrite !walk_nil.
  - intros n cur c rest E. rewrite !walk_cons, E.
    rewrite lookup_insert_ne; [by rewrite E|congruence].
  - intros n cur c rest E IH. rewrite !walk_cons, E.
    rewrite lookup_insert_ne; [by rewrite E|congruence].
  - intros n cur c rest s1 E. rewrite !walk_cons, E.
    destruct (decide (k = cur ++ [c])) as [->|Hne].
    + rewrite lookup_insert_eq. destruct rest; cbn [with_content]; [|done].
      by rewrite decide_True.
    + rewrite lookup_insert_ne, E by done. destruct rest; cbn [with_content]; [|done].
      by rewrite decide_False.
  - intros n cur c rest t E Eb. rewrite !walk_cons, E, Eb.
    rewrite lookup_insert_ne; [by rewrite E|congruence].
  - intros cur c rest t E Eb. rewrite !walk_cons, E, Eb.
    rewrite lookup_insert_ne; [by rewrite E|congruence].
  - intros n cur c rest t E Eb IH. rewrite !walk_cons, E, Eb.
    rewrite lookup_insert_ne; [by rewrite E|congruence].
Qed.

Lemma stat_overwrite fs k s0 s p :
  fs !! k = Some (File s0) →
  stat (<[k := File s]> fs) p = with_content k s (stat fs p).
Proof. exact (walk_overwrite limit true fs k s0 s [] p). Qed.

Lemma lstat_overwrite fs k s0 s p :
  fs !! k = Some (File s0) →
  lstat (<[k := File s]> fs) p = with_content k s (lstat fs p).
Proof. exact (walk_overwrite limit false fs k s0 s [] p). Qed.

Lemma path_exists_overwrite fs k s0 s p :
  fs !! k = Some (File s0) → path_exists (<[k := File s]> fs) p = path_exists fs p.
Proof.
  intros Hk. unfold path_exists. rewrite (stat_overwrite _ _ _ _ _ Hk).
  destruct (stat fs p) as [ph [| |]| | |]; cbn [with_content]; try done.
  by case_decide.
Qed.

Lemma is_dir_overwrite fs k s0 s p :
  fs !! k = Some (File s0) → is_dir (<[k := File s]> fs) p = is_dir fs p.
Proof.
  intros Hk. unfold is_dir. rewrite (stat_overwrite _ _ _ _ _ Hk).
  destruct (stat fs p) as [ph [| |]| | |]; cbn [with_content]; try done.
  by case_decide.
Qed.

Lemma is_symlink_overwrite fs k s0 s p :
  fs !! k = Some (File s0) → is_symlink (<[k := File s]> fs) p = is_symlink fs p.
Proof.
  intros Hk. unfold is_symlink. rewrite (lstat_overwrite _ _ _ _ _ Hk).
  destruct (lstat fs p) as [ph [| |]| | |]; cbn [with_content]; try done.
  by case_decide.
Qed.

Lemma resolve_overwrite fs k s0 s p :
  fs !! k = Some (File s0) → resolve (<[k := File s]> fs) p = resolve fs p.
Proof.
  intros Hk. apply resolve_ext; intros n; rewrite (walk_overwrite _ _ _ _ _ _ _ _ Hk);
    destruct (walk n true fs [] p) as [ph [| |]| | |]; cbn [with_content]; try done;
    by case_decide.
Qed.

(** [write_text] puts one regular file, where there was none or another
    regular file, and the path then leads to it. *)
Lemma write_text_spec fs p s fs' :
  write_text fs p s = Some fs' →
  ∃ k, fs' = <[k := File s]> fs ∧
       (fs !! k = None ∨ ∃ s0, fs !! k = Some (File s0)) ∧
       stat fs' p = Found k (File s).
Proof.
  unfold write_text.
  destruct (stat fs p) as [ph [|s0|]|d [|c [|]]| |] eqn:E; try done.
  - intros [= <-]. exists ph.
    destruct (stat_Found_lookup _ _ _ _ E) as [[_ [=]]|Hk].
    split_and!; [done|eauto|].
    rewrite (stat_overwrite _ _ _ _ _ Hk), E. cbn [with_content]. by rewrite decide_True.
  - intros [= <-]. exists (d ++ [c]).
    pose proof (stat_Missing_inv _ _ _ _ E) as (c' & r' & [= <- <-] & Hnone).
    split_and!; [done|by left|]. by apply stat_create.
Qed.

(** What a regular file put at [k] leaves as it was. *)
Lemma insert_file_keeps fs k s :
  fs !! k = None ∨ (∃ s0, fs !! k = Some (File s0)) →
  keeps fs (<[k := File s]> fs) ∧
  (∀ q, is_dir fs q = true → is_dir (<[k := File s]> fs) q = true) ∧
  (∀ q, path_exists fs q = true → path_exists (<[k := File s]> fs) q = true) ∧
  (∀ q, is_symlink fs q = true → is_symlink (<[k := File s]> fs) q = true) ∧
  (∀ q, resolve (<[k := File s]> fs) q = resolve fs q).
Proof.
  intros [Hk|[s0 Hk]].
  - assert (fs ⊆ <[k := File s]> fs) as Hsub by by apply insert_subseteq.
    split_and!.
    + intros k' nd Hk'. left. by eapply lookup_weaken.
    + intros q. by apply is_dir_mono.
    + intros q. by apply path_exists_mono.
    + intros q. by apply is_symlink_mono.
    + intros q. by apply resolve_insert_file.
  - split_and!.
    + intros k' nd Hk'. destruct (decide (k' = k)) as [->|Hne].
      * right. exists s0, s. rewrite lookup_insert_eq. split; congruence.
      * left. by rewrite lookup_insert_ne.
    + intros q. by rewrite (is_dir_overwrite _ _ _ _ _ Hk).
    + intros q. by rewrite (path_exists_overwrite _ _ _ _ _ Hk).
    + intros q. by rewrite (is_symlink_overwrite _ _ _ _ _ Hk).
    + intros q. by apply (resolve_overwrite _ _ _ _ _ Hk).
Qed.

Lemma keeps_refl fs : keeps fs fs.
Proof. intros k nd H. by left. Qed.

Lemma keeps_subseteq fs fs' : fs ⊆ fs' → keeps fs fs'.
Proof. intros Hsub k nd H. left. by eapply lookup_weaken. Qed.

Lemma keeps_trans fs1 fs2 fs3 : keeps fs1 fs2 → keeps fs2 fs3 → keeps fs1 fs3.
Proof.
  intros H12 H23 k nd H. destruct (H12 _ _ H) as [H2|(s & s' & -> & H2)].
  - by apply H23.
  - destruct (H23 _ _ H2) as [H3|(s1 & s1' & [= <-] & H3)]; right; eauto.
Qed.
End overwrite.

(** ** Discovery again *)

Section stable.
Implicit Types (cfg : Config) (fs : gmap path node) (p root : path).

Lemma discover_globals_again cfg fs m fs' :
  discover_globals cfg fs = Ok m fs' →
  discover_globals cfg fs' = Ok m fs'.
Proof.
  intros H. pose proof (discover_globals_spec _ _ _ _ H) as (Hmk & Hd & _).
  rewrite discover_globals_unfold in H. rewrite Hmk in H.
  rewrite discover_globals_unfold. by rewrite (mkdir_parents_noop _ _ Hd).
Qed.

(** X1. Discovery is stable: after a call that returned, a second call
    returns the same mapping and changes nothing. *)
Theorem discover_globals_stable cfg fs m fs' :
  discover_globals cfg fs = Ok m fs' →
  discover_globals cfg fs' = Ok m fs'.
Proof. apply discover_globals_again. Qed.
End stable.

(** ** What the calls add *)

Section adding.
Implicit Types (cfg : Config) (fs : gmap path node) (p root d : path).
Implicit Types (new : node → Prop).

Lemma adds_refl new fs : adds new fs fs.
Proof. split; [done|]. intros k nd Hn Hs. congruence. Qed.

Lemma adds_weaken new new' fs fs' :
  (∀ nd, new nd → new' nd) → adds new fs fs' → adds new' fs fs'.
Proof. intros Hw [Hsub Hnew]. split; [done|]. intros k nd Hn Hs. eauto. Qed.

Lemma adds_trans new fs1 fs2 fs3 : adds new fs1 fs2 → adds new fs2 fs3 → adds new fs1 fs3.
Proof.
  intros [Hs12 Hn12] [Hs23 Hn23]. split; [by etrans|].
  intros k nd Hn Hs. destruct (fs2 !! k) as [nd2|] eqn:E2.
  - rewrite (lookup_weaken _ _ _ _ E2 Hs23) in Hs. simplify_eq. by eapply Hn12.
  - by eapply Hn23.
Qed.

Lemma adds_insert new fs k nd : fs !! k = None → new nd → adds new fs (<[k := nd]> fs).
Proof.
  intros Hk Hnew. split; [by apply insert_subseteq|].
  intros k' nd' Hn. rewrite lookup_insert. case_decide; [congruence|]. congruence.
Qed.

Lemma mkdir_parents_adds fs p fs' :
  mkdir_parents fs p = Some fs' → adds (λ nd, nd = Dir) fs fs'.
Proof.
  intros (Hsub & _ & Hnew)%mkdir_parents_spec. split; [done|].
  intros k nd Hn Hs. destruct (Hnew _ _ Hs) as [?|[? _]]; congruence.
Qed.

Lemma discover_globals_adds cfg fs :
  adds (λ nd, nd = Dir) fs (final_fs (discover_globals cfg fs)).
Proof.
  rewrite discover_globals_unfold.
  destruct (mkdir_parents fs _) as [fs1|] eqn:E; [|apply adds_refl].
  apply mkdir_parents_adds in E. by destruct (iterdir fs1 _).
Qed.

Lemma ensure_project_vault_final_adds cfg root fs :
  adds (λ nd, nd = Dir ∨ nd = project_index) fs (final_fs (ensure_project_vault cfg root fs)).
Proof.
  rewrite ensure_project_vault_unfold. cbn zeta.
  destruct (mkdir_parents fs _) as [fs1|] eqn:E1; [|apply adds_refl].
  apply mkdir_parents_adds in E1.
  apply (adds_weaken _ (λ nd, nd = Dir ∨ nd = project_index)) in E1; [|by left].
  destruct (mkdir_parents fs1 _) as [fs2|] eqn:E2; [|done].
  apply mkdir_parents_adds in E2.
  apply (adds_weaken _ (λ nd, nd = Dir ∨ nd = project_index)) in E2; [|by left].
  pose proof (adds_trans _ _ _ _ E1 E2) as E12.
  destruct (path_exists fs2 _) eqn:Ei; [done|].
  destruct (write_text fs2 _ _) as [fs3|] eqn:Ew; [|done].
  apply write_text_new in Ew as (_ & _ & k0 & Hk0 & ->); [|done].
  eapply adds_trans; [done|]. apply adds_insert; [done|by right].
Qed.

(** X2. Whether [ensure_project_vault] returns or raises, every entry
    that was there is as it was, and what is new is directories and at most
    the default index document; when it returns, the vault and the mount
    directory are directories and the index document exists. *)
Theorem ensure_project_vault_adds cfg root fs :
  adds (λ nd, nd = Dir ∨ nd = project_index) fs
       (final_fs (ensure_project_vault cfg root fs)) ∧
  ∀ r fs',
    ensure_project_vault cfg root fs = Ok r fs' →
    is_dir fs' r.1 = true ∧ is_dir fs' r.2 = true ∧
    path_exists fs' (joinpath r.1 "index.md") = true.
Proof.
  split; [apply ensure_project_vault_final_adds|].
  intros r fs' H. by apply ensure_project_vault_Ok in H as (-> & _ & Hv & Hm & Hi).
Qed.

(** X3. In a project directory with nothing where the project vault
    goes, [ensure_project_vault] makes the vault directory, the mount
    directory in it and the default index document, and nothing else. *)
Theorem ensure_project_vault_fresh cfg root fs d :
  plain (project_vault_dir cfg) = true →
  plain (mount_dir cfg) = true →
  mount_dir cfg ≠ "index.md" →
  stat fs root = Found d Dir →
  (∀ r, fs !! (d ++ project_vault_dir cfg :: r) = None) →
  ensure_project_vault cfg root fs
  = Ok (root ++ [project_vault_dir cfg],
        root ++ [project_vault_dir cfg; mount_dir cfg])
       (<[d ++ [project_vault_dir cfg; "index.md"] := project_index]>
          (add_dirs fs d [project_vault_dir cfg; mount_dir cfg])).
Proof.
  intros Hpv Hpm Hne Hroot Hfree.
  set (pv := project_vault_dir cfg) in *. set (md := mount_dir cfg) in *.
  rewrite ensure_project_vault_unfold. unfold project_paths. cbn [fst snd]. cbn zeta.
  fold pv md.
  rewrite (joinpath_plain root pv Hpv), (joinpath_plain _ md Hpm), joinpath_index.
  rewrite (mkdir_parents_creates fs root d pv [] Hroot Hfree).
  destruct (add_dirs_stat fs root d pv [] Hroot Hfree) as [Hsub1 Hst1].
  set (fs1 := add_dirs fs d [pv]) in *.
  assert (∀ r, fs1 !! ((d ++ [pv]) ++ md :: r) = None) as Hfree1.
  { intros r. unfold fs1. cbn [add_dirs]. rewrite lookup_insert_ne.
    - rewrite <- (assoc_L (++)). apply Hfree.
    - intros Heq. apply (f_equal length) in Heq.
      rewrite !length_app in Heq. simpl in Heq. lia. }
  rewrite (mkdir_parents_creates fs1 (root ++ [pv]) (d ++ [pv]) md [] Hst1 Hfree1).
  destruct (add_dirs_stat fs1 (root ++ [pv]) (d ++ [pv]) md [] Hst1 Hfree1) as [Hsub2 Hst2].
  change (add_dirs fs1 (d ++ [pv]) [md]) with (add_dirs fs d [pv; md]) in *.
  set (fs2 := add_dirs fs d [pv; md]) in *.
  assert (stat fs2 (root ++ [pv]) = Found (d ++ [pv]) Dir) as Hv.
  { by eapply stat_mono. }
  assert (fs2 !! ((d ++ [pv]) ++ ["index.md"]) = None) as Hidx.
  { unfold fs2. cbn [add_dirs]. rewrite !lookup_insert_ne.
    - rewrite <- (assoc_L (++)). apply Hfree.
    - intros Heq. apply (f_equal length) in Heq.
      rewrite !length_app in Heq. simpl in Heq. lia.
    - intros Heq. apply app_inv_head in Heq. congruence. }
  rewrite (stat_snoc_None _ _ _ _ Hv Hidx).
  unfold write_text. rewrite (stat_snoc _ _ _ _ Hv) by (by rewrite Hidx).
  rewrite Hidx. cbv iota. rewrite <- !(assoc_L (++)). done.
Qed.
End adding.

(** ** What a mount does *)

Section mount_effect.
Implicit Types (cfg : Config) (fs : gmap path node) (p root d link target : path).
Implicit Types (nm : string) (new : node → Prop).

Lemma mount_global_into_project_adds cfg root nm fs :
  adds (λ nd, nd = Dir ∨ nd = project_index ∨ nd = Link (vault_root cfg ++ [nm])) fs
       (final_fs (mount_global_into_project cfg root nm fs)).
Proof.
  set (new := λ nd, nd = Dir ∨ nd = project_index ∨ nd = Link (vault_root cfg ++ [nm])).
  rewrite mount_global_into_project_unfold.
  destruct (is_inside_global_vault cfg fs root) as [[|]|]; [apply adds_refl| |apply adds_refl].
  pose proof (discover_globals_adds cfg fs) as Hd.
  apply (adds_weaken _ new) in Hd; [|by left].
  destruct (discover_globals cfg fs) as [gm fsA|e fsA] eqn:Ed; [|done].
  cbn [final_fs] in Hd.
  destruct (dict_get gm nm) as [target|] eqn:Eg; [|done].
  apply discover_globals_spec in Ed as (_ & _ & _ & _ & Hget).
  apply Hget in Eg as [-> _].
  pose proof (ensure_project_vault_final_adds cfg root fsA) as He.
  apply (adds_weaken _ new) in He; [|unfold new; tauto].
  pose proof (adds_trans _ _ _ _ Hd He) as Hde.
  destruct (ensure_project_vault cfg root fsA) as [r fsB|e fsB] eqn:Ee; [|done].
  cbn [final_fs] in Hde. cbn zeta.
  destruct (path_exists fsB _ || is_symlink fsB _).
  - destruct (is_symlink fsB _); [|done].
    destruct (resolve fsB (joinpath r.2 nm)); [|done].
    destruct (resolve fsB (vault_root cfg ++ [nm])); [|done].
    by case_bool_decide.
  - destruct (symlink_to fsB _ _) as [fs3|] eqn:Es; [|done].
    apply symlink_to_spec in Es as (d & c & Hmiss & -> & _ & _).
    cbn [final_fs]. eapply adds_trans; [done|].
    apply adds_insert; [by eapply lstat_Missing_fresh|]. unfold new. tauto.
Qed.

Lemma cmd_mount_unfold cfg args fs :
  cmd_mount cfg args fs =
    match resolve fs (arg_path args) with
    | None => Raise SymlinkLoop fs
    | Some root =>
        match mount_global_into_project cfg root (arg_name args) fs with
        | Ok _ fs' => Ok 0%nat fs'
        | Raise e fs' => Raise e fs'
        end
    end.
Proof.
  unfold cmd_mount. unfold mbind, M_bind, bind, fs_resolve, mret, M_ret, ret.
  destruct (resolve fs (arg_path args)) as [root|]; [|done].
  by destruct (mount_global_into_project _ _ _ _).
Qed.

(** X4. A mount, through [cmd_mount] as well, and whether it returns or
    raises, leaves every entry that was there as it was: nothing is removed
    and nothing is written over.  What is new is directories, the default
    index document of the project vault, and the link to the global
    vault. *)
Theorem mount_only_adds cfg root nm fs :
  adds (λ nd, nd = Dir ∨ nd = project_index ∨ nd = Link (vault_root cfg ++ [nm])) fs
       (final_fs (mount_global_into_project cfg root nm fs)) ∧
  ∀ args,
    adds (λ nd, nd = Dir ∨ nd = project_index ∨ nd = Link (vault_root cfg ++ [arg_name args]))
         fs (final_fs (cmd_mount cfg args fs)).
Proof.
  split; [apply mount_global_into_project_adds|].
  intros args. rewrite cmd_mount_unfold.
  destruct (resolve fs (arg_path args)) as [q|]; [|apply adds_refl].
  pose proof (mount_global_into_project_adds cfg q (arg_name args) fs) as H.
  by destruct (mount_global_into_project _ _ _ _).
Qed.

Lemma ignored_not_mountable cfg fs nm :
  String.prefix "_" nm || String.prefix "." nm = true →
  is_mountable_global cfg fs (vault_root cfg ++ [nm]) = false.
Proof.
  intros Hn. apply not_true_is_false. intros H.
  apply is_mountable_global_true in H as (_ & Hi & _).
  unfold is_ignored_root_entry in Hi. rewrite name_snoc in Hi.
  rewrite orb_comm in Hn. congruence.
Qed.

(** X5. Mounting a name that is no mountable global vault raises
    [NotFound]; with [vault_root] in place nothing has been changed, and
    no project vault has been made.  A name that starts with [_] or [.]
    is never mounted, whatever the filesystem holds. *)
Theorem mount_unknown_name cfg root nm fs :
  (is_inside_global_vault cfg fs root = Some false →
   is_dir fs (vault_root cfg) = true →
   is_mountable_global cfg fs (vault_root cfg ++ [nm]) = false →
   mount_global_into_project cfg root nm fs = Raise NotFound fs) ∧
  (String.prefix "_" nm || String.prefix "." nm = true →
   result (mount_global_into_project cfg root nm fs) = None).
Proof.
  split.
  - intros Hin Hd Hm. rewrite mount_global_into_project_unfold, Hin.
    destruct (discover_globals_is_dir _ _ Hd) as [gm Hg]. rewrite Hg.
    apply discover_globals_spec in Hg as (_ & _ & _ & _ & Hget).
    destruct (dict_get gm nm) as [target|] eqn:Eg; [|done].
    apply Hget in Eg as [-> Eg]. congruence.
  - intros Hn. rewrite mount_global_into_project_unfold.
    destruct (is_inside_global_vault cfg fs root) as [[|]|]; [done| |done].
    destruct (discover_globals cfg fs) as [gm fsA|e fsA] eqn:Ed; [|done].
    apply discover_globals_spec in Ed as (_ & _ & _ & _ & Hget).
    destruct (dict_get gm nm) as [target|] eqn:Eg; [|done].
    apply Hget in Eg as [-> Eg]. by rewrite ignored_not_mountable in Eg.
Qed.

(** X6. The first mount: for a project root outside every global vault
    and the plain name of a mountable global vault, once
    [ensure_project_vault] has returned and the mount directory has no
    entry for the name, the mount returns, and all it has done beyond
    [ensure_project_vault] is to make the link, which holds the path of
    the global vault. *)
Theorem mount_fresh cfg root nm fs r fs2 d :
  plain nm = true →
  is_inside_global_vault cfg fs root = Some false →
  is_mountable_global cfg fs (vault_root cfg ++ [nm]) = true →
  ensure_project_vault cfg root fs = Ok r fs2 →
  stat fs2 (project_paths cfg root).2 = Found d Dir →
  fs2 !! (d ++ [nm]) = None →
  mount_global_into_project cfg root nm fs
  = Ok tt (<[d ++ [nm] := Link (vault_root cfg ++ [nm])]> fs2).
Proof.
  intros Hp Hin Hm He Hmd Hfree.
  rewrite mount_global_into_project_unfold, Hin.
  destruct (discover_globals_mountable _ _ _ Hm) as (gm & -> & ->).
  rewrite He. apply ensure_project_vault_Ok in He as (-> & _).
  cbn zeta. rewrite (joinpath_plain _ _ Hp).
  pose proof (lstat_snoc _ _ _ nm Hmd) as Hl. rewrite Hfree in Hl.
  rewrite (stat_snoc_None _ _ _ _ Hmd Hfree).
  unfold is_symlink, symlink_to. by rewrite Hl.
Qed.

(** X7. When a mount returns, the project vault is in place (vault
    directory, mount directory, index document) and the mount path is a
    symbolic link that resolves as the global vault does; and when that
    link leads anywhere, both resolve. *)
Theorem mount_returns_link cfg root nm fs fs1 :
  mount_global_into_project cfg root nm fs = Ok tt fs1 →
  is_dir fs1 (project_paths cfg root).1 = true ∧
  is_dir fs1 (project_paths cfg root).2 = true ∧
  path_exists fs1 (joinpath (project_paths cfg root).1 "index.md") = true ∧
  is_symlink fs1 (joinpath (project_paths cfg root).2 nm) = true ∧
  resolve fs1 (joinpath (project_paths cfg root).2 nm)
  = resolve fs1 (vault_root cfg ++ [nm]) ∧
  (path_exists fs1 (joinpath (project_paths cfg root).2 nm) = true →
   ∃ a, resolve fs1 (joinpath (project_paths cfg root).2 nm) = Some a ∧
        resolve fs1 (vault_root cfg ++ [nm]) = Some a).
Proof.
  intros H1.
  destruct (mount_global_into_project_link _ _ _ _ _ H1) as [Hl Hr].
  apply mount_global_into_project_Ok in H1 as (fsB & Hsub & Hv & Hmd & Hi & _).
  split_and!; [by eapply is_dir_mono|by eapply is_dir_mono|by eapply path_exists_mono|
               done|done|].
  intros [a Ha]%resolve_exists. exists a. by rewrite <- Hr.
Qed.
End mount_effect.

(** ** Initialisation of a project *)

Section init.
Implicit Types (cfg : Config) (fs : gmap path node) (p root d vault : path).
Implicit Types (nm : string) (new : node → Prop) (args : Args).
Implicit Types (globals_map : dict path) (names : list string).

Lemma create_desktop_launcher_unfold vault cfg fs :
  create_desktop_launcher vault cfg fs =
    if String.eqb (editor cfg) "obsidian" then
      match resolve fs vault with
      | None => Raise SymlinkLoop fs
      | Some abs_vault =>
          match write_text fs (joinpath vault (desktop_launcher_name cfg))
                           (launcher_content (path_str abs_vault)) with
          | Some fs' => Ok tt fs'
          | None => Raise FsError fs
          end
      end
    else Ok tt fs.
Proof.
  unfold create_desktop_launcher. destruct (String.eqb _ _); [|done].
  cbn [negb]. unfold mbind, M_bind, bind, fs_resolve, fs_call.
  by destruct (resolve fs vault).
Qed.

Lemma ensure_gitignore_unfold root cfg fs :
  ensure_gitignore root cfg fs =
    if path_exists fs (joinpath root ".git") then Raise NameError fs else Ok tt fs.
Proof.
  unfold ensure_gitignore. unfold mbind, M_bind, bind, ask, mret, M_ret, ret, raise.
  by destruct (path_exists fs _).
Qed.

Lemma cmd_init_unfold cfg args fs :
  arg_global_name args = None ∨ arg_global_name args = Some "" →
  cmd_init cfg args fs =
    match resolve fs (arg_path args) with
    | None => Raise SymlinkLoop fs
    | Some root =>
        match is_inside_global_vault cfg fs root with
        | None => Raise SymlinkLoop fs
        | Some true => Raise InvalidLocation fs
        | Some false =>
            match ensure_project_vault cfg root fs with
            | Raise e fs1 => Raise e fs1
            | Ok r fs1 =>
                match discover_globals cfg fs1 with
                | Raise e fs2 => Raise e fs2
                | Ok globals_map fs2 =>
                    match auto_mount_loop cfg root globals_map (auto_mount cfg) fs2 with
                    | Raise e fs3 => Raise e fs3
                    | Ok _ fs3 =>
                        if path_exists fs3 (joinpath root ".git") then Raise NameError fs3
                        else if create_desktop_launcher_flag cfg then
                               match create_desktop_launcher r.1 cfg fs3 with
                               | Raise e fs4 => Raise e fs4
                               | Ok _ fs4 => Ok 0%nat fs4
                               end
                             else Ok 0%nat fs3
                    end
                end
            end
        end
    end.
Proof.
  intros Hg.
  assert (cmd_init cfg args fs =
    (project_root ← fs_resolve (λ fs, resolve fs (arg_path args));
     inside ← fs_resolve (λ fs, is_inside_global_vault cfg fs project_root);
     if (inside : bool) then raise InvalidLocation
     else
       '(vault, _mount_dir) ← ensure_project_vault cfg project_root;
       globals_map ← discover_globals cfg;
       auto_mount_loop cfg project_root globals_map (auto_mount cfg);;
       ensure_gitignore project_root cfg;;
       (if create_desktop_launcher_flag cfg then create_desktop_launcher vault cfg
        else mret tt);;
       mret 0%nat) fs) as ->.
  { unfold cmd_init. by destruct Hg as [-> | ->]. }
  unfold mbind at 1, M_bind at 1, bind at 1, fs_resolve at 1.
  destruct (resolve fs (arg_path args)) as [root|]; [|done].
  unfold mbind at 1, M_bind at 1, bind at 1, fs_resolve at 1.
  destruct (is_inside_global_vault cfg fs root) as [[|]|]; [done| |done].
  unfold mbind at 1, M_bind at 1, bind at 1.
  destruct (ensure_project_vault cfg _ fs) as [[vault mount] fs1|]; [|done].
  unfold mbind at 1, M_bind at 1, bind at 1.
  destruct (discover_globals cfg fs1) as [gm fs2|]; [|done].
  unfold mbind at 1, M_bind at 1, bind at 1.
  destruct (auto_mount_loop cfg _ gm _ fs2) as [u fs3|]; [|done].
  unfold mbind at 1, M_bind at 1, bind at 1. rewrite ensure_gitignore_unfold.
  destruct (path_exists fs3 _); [done|].
  unfold mbind at 1, M_bind at 1, bind at 1. cbn [fst].
  destruct (create_desktop_launcher_flag cfg); [|done].
  by destruct (create_desktop_launcher vault cfg fs3).
Qed.

Lemma auto_mount_loop_adds cfg root globals_map names fs :
  adds (λ nd, nd = Dir ∨ nd = project_index ∨
              ∃ nm, nm ∈ names ∧ nd = Link (vault_root cfg ++ [nm]))
       fs (final_fs (auto_mount_loop cfg root globals_map names fs)).
Proof.
  revert fs. induction names as [|nm names IH]; intros fs; [apply adds_refl|].
  set (new := λ nd, nd = Dir ∨ nd = project_index ∨
                    ∃ nm', nm' ∈ nm :: names ∧ nd = Link (vault_root cfg ++ [nm'])).
  assert (∀ fs0, adds new fs0 (final_fs (auto_mount_loop cfg root globals_map names fs0)))
    as IH'.
  { intros fs0. eapply adds_weaken; [|apply IH].
    intros nd [?|[?|(nm' & Hin & ?)]]; unfold new; [tauto..|].
    right. right. exists nm'. split; [by right|done]. }
  rewrite auto_mount_loop_cons. destruct (dict_mem globals_map nm); [|apply IH'].
  pose proof (mount_global_into_project_adds cfg root nm fs) as Hm.
  apply (adds_weaken _ new) in Hm.
  2:{ intros nd [?|[?|?]]; unfold new; [tauto..|].
      right. right. exists nm. split; [by left|done]. }
  destruct (mount_global_into_project cfg root nm fs) as [u fs1|e fs1]; [|done].
  cbn [final_fs] in Hm. eapply adds_trans; [done|]. apply IH'.
Qed.

(** X8. When the loop over [auto_mount] returns, every name of the list
    that is in the mapping is mounted: its mount path is a symbolic
    link. *)
Theorem auto_mount_loop_mounts cfg root globals_map names fs fs' :
  auto_mount_loop cfg root globals_map names fs = Ok tt fs' →
  ∀ nm, nm ∈ names → dict_mem globals_map nm = true →
        is_symlink fs' (joinpath (project_paths cfg root).2 nm) = true.
Proof.
  revert fs. induction names as [|n names IH]; intros fs H nm Hin Hmem.
  { by apply elem_of_nil in Hin. }
  rewrite auto_mount_loop_cons in H.
  destruct (dict_mem globals_map n) eqn:En.
  - destruct (mount_global_into_project cfg root n fs) as [[] fs1|] eqn:Em; [|done].
    apply elem_of_cons in Hin as [->|Hin]; [|by eapply IH].
    pose proof (auto_mount_loop_adds cfg root globals_map names fs1) as [Hsub _].
    rewrite H in Hsub. cbn [final_fs] in Hsub.
    eapply is_symlink_mono; [done|].
    by apply mount_global_into_project_link in Em as [? _].
  - apply elem_of_cons in Hin as [->|Hin]; [congruence|]. by eapply IH.
Qed.

(** X9. In a git work tree the initialisation of a project never
    returns: [ensure_gitignore] evaluates a name that is bound nowhere.
    When this is the error raised, the project vault has been made by
    then and stays; and no entry that was there has been touched. *)
Theorem cmd_init_git cfg args fs root :
  arg_global_name args = None ∨ arg_global_name args = Some "" →
  resolve fs (arg_path args) = Some root →
  path_exists fs (joinpath root ".git") = true →
  ∃ e fs',
    cmd_init cfg args fs = Raise e fs' ∧ fs ⊆ fs' ∧
    (e = NameError →
     is_dir fs' (project_paths cfg root).1 = true ∧
     is_dir fs' (project_paths cfg root).2 = true ∧
     path_exists fs' (joinpath (project_paths cfg root).1 "index.md") = true).
Proof.
  intros Hg Hroot Hgit. rewrite (cmd_init_unfold _ _ _ Hg), Hroot.
  destruct (is_inside_global_vault cfg fs root) as [[|]|].
  { exists InvalidLocation, fs. by split_and!. }
  2:{ exists SymlinkLoop, fs. by split_and!. }
  pose proof (ensure_project_vault_final_adds cfg root fs) as [Hs1 _].
  destruct (ensure_project_vault cfg root fs) as [r fs1|e fs1] eqn:Ee.
  2:{ exists e, fs1. split_and!; [done..|].
      intros ->. rewrite ensure_project_vault_unfold in Ee. cbn zeta in Ee.
      repeat case_match; simplify_eq. }
  cbn [final_fs] in Hs1.
  apply ensure_project_vault_Ok in Ee as (-> & _ & Hv & Hm & Hi).
  pose proof (discover_globals_adds cfg fs1) as [Hs2 _].
  destruct (discover_globals cfg fs1) as [gm fs2|e fs2] eqn:Ed.
  2:{ exists e, fs2. split_and!; [done|by etrans|].
      intros ->. rewrite discover_globals_unfold in Ed. repeat case_match; simplify_eq. }
  cbn [final_fs] in Hs2.
  pose proof (auto_mount_loop_adds cfg root gm (auto_mount cfg) fs2) as [Hs3 _].
  assert (fs ⊆ fs2) as Hs12 by (by etrans).
  destruct (auto_mount_loop cfg root gm (auto_mount cfg) fs2) as [u fs3|e fs3] eqn:Ea.
  2:{ exists e, fs3. cbn [final_fs] in Hs3.
      assert (fs1 ⊆ fs3) as Hs13 by (by etrans).
      split_and!; [done|by etrans|]. intros _. split_and!.
      - by eapply is_dir_mono.
      - by eapply is_dir_mono.
      - by eapply path_exists_mono. }
  cbn [final_fs] in Hs3.
  assert (fs ⊆ fs3) as Hs by (by etrans).
  assert (fs1 ⊆ fs3) as Hs13 by (by etrans).
  rewrite (path_exists_mono _ _ _ Hs Hgit).
  exists NameError, fs3. split_and!; [done..|]. intros _. split_and!.
  - by eapply is_dir_mono.
  - by eapply is_dir_mono.
  - by eapply path_exists_mono.
Qed.

Lemma create_desktop_launcher_Ok vault cfg fs fs' :
  create_desktop_launcher vault cfg fs = Ok tt fs' →
  keeps fs fs' ∧
  (∀ q, is_dir fs q = true → is_dir fs' q = true) ∧
  (∀ q, path_exists fs q = true → path_exists fs' q = true) ∧
  (∀ q, is_symlink fs q = true → is_symlink fs' q = true) ∧
  (∀ q, resolve fs' q = resolve fs q) ∧
  (editor cfg ≠ "obsidian" → fs' = fs) ∧
  (editor cfg = "obsidian" →
   ∃ a, resolve fs vault = Some a ∧
        read_text fs' (joinpath vault (desktop_launcher_name cfg))
        = Some (launcher_content (path_str a)) ∧
        ∃ k, fs' = <[k := File (launcher_content (path_str a))]> fs ∧
             (fs !! k = None ∨ ∃ s0, fs !! k = Some (File s0))).
Proof.
  rewrite create_desktop_launcher_unfold.
  destruct (String.eqb (editor cfg) "obsidian") eqn:Ee.
  - destruct (resolve fs vault) as [a|] eqn:Ea; [|done].
    destruct (write_text fs _ _) as [fs1|] eqn:Ew; [|done]. intros [= <-].
    apply write_text_spec in Ew as (k & -> & Hk & Hst).
    destruct (insert_file_keeps fs k (launcher_content (path_str a)) Hk)
      as (Hkeep & Hd & Hp & Hl & Hr).
    split_and!; try done.
    + intros Hne. by apply String.eqb_eq in Ee.
    + intros _. exists a. split_and!; [done| |by eauto].
      unfold read_text. by rewrite Hst.
  - intros [= <-]. split_and!; try done.
    + apply keeps_refl.
    + intros He. apply String.eqb_neq in Ee. done.
Qed.

Lemma create_desktop_launcher_final vault cfg fs :
  keeps fs (final_fs (create_desktop_launcher vault cfg fs)).
Proof.
  destruct (create_desktop_launcher vault cfg fs) as [[] fs'|e fs'] eqn:E.
  - by apply create_desktop_launcher_Ok in E as (? & _).
  - rewrite create_desktop_launcher_unfold in E.
    repeat case_match; simplify_eq; apply keeps_refl.
Qed.

(** X10. The launcher: with another editor than [obsidian] nothing is
    done.  With [obsidian], when the call returns, the vault resolves, the
    launcher file reads as the desktop entry that opens the resolved path
    of the vault; one regular file has been put, where there was none or
    another regular file, and every other entry is as it was. *)
Theorem create_desktop_launcher_written vault cfg fs :
  (editor cfg ≠ "obsidian" → create_desktop_launcher vault cfg fs = Ok tt fs) ∧
  ∀ fs',
    editor cfg = "obsidian" →
    create_desktop_launcher vault cfg fs = Ok tt fs' →
    ∃ a, resolve fs' vault = Some a ∧
         read_text fs' (joinpath vault (desktop_launcher_name cfg))
         = Some (launcher_content (path_str a)) ∧
         resolve fs' vault = resolve fs vault ∧
         keeps fs fs' ∧
         ∃ k, fs' = <[k := File (launcher_content (path_str a))]> fs ∧
              (fs !! k = None ∨ ∃ s0, fs !! k = Some (File s0)).
Proof.
  split.
  - intros Hne. rewrite create_desktop_launcher_unfold.
    apply String.eqb_neq in Hne. by rewrite Hne.
  - intros fs' He H.
    pose proof (create_desktop_launcher_Ok _ _ _ _ H) as (Hk & _ & _ & _ & Hr & _ & Hread).
    destruct (Hread He) as (a & Ha & Hrd & Hins).
    exists a. split_and!; [by rewrite Hr|done|by apply Hr|done|done].
Qed.

Lemma ensure_global_vault_final cfg nm fs :
  fs ⊆ final_fs (ensure_global_vault cfg nm fs).
Proof.
  rewrite ensure_global_vault_unfold.
  destruct (String.prefix "_" nm || String.prefix "." nm); [done|]. cbn zeta.
  destruct (mkdir_parents fs _) as [fs1|] eqn:E1; [|done].
  apply mkdir_parents_spec in E1 as (Hs1 & _).
  destruct (path_exists fs1 (joinpath _ (mount_dir cfg))); [done|].
  destruct (path_exists fs1 (joinpath _ "index.md")) eqn:Ei; [done|].
  destruct (write_text fs1 _ _) as [fs2|] eqn:Ew; [|done].
  apply write_text_new in Ew as (Hs2 & _); [|done].
  cbn [final_fs]. by etrans.
Qed.

(** X11. When the initialisation of a project returns, it returns 0; the
    project path resolved, to a root outside every global vault and
    outside a git work tree; the vault directory, the mount directory and
    the index document are in place; and when a launcher is asked for and
    the editor is [obsidian], the launcher file reads as the desktop entry
    for the resolved vault. *)
Theorem cmd_init_project cfg args fs n fs' :
  arg_global_name args = None ∨ arg_global_name args = Some "" →
  cmd_init cfg args fs = Ok n fs' →
  ∃ root,
    resolve fs (arg_path args) = Some root ∧
    n = 0%nat ∧
    is_inside_global_vault cfg fs root = Some false ∧
    path_exists fs (joinpath root ".git") = false ∧
    is_dir fs' (project_paths cfg root).1 = true ∧
    is_dir fs' (project_paths cfg root).2 = true ∧
    path_exists fs' (joinpath (project_paths cfg root).1 "index.md") = true ∧
    (create_desktop_launcher_flag cfg = true → editor cfg = "obsidian" →
     ∃ a, resolve fs' (project_paths cfg root).1 = Some a ∧
          read_text fs' (joinpath (project_paths cfg root).1 (desktop_launcher_name cfg))
          = Some (launcher_content (path_str a))).
Proof.
  intros Hg. rewrite (cmd_init_unfold _ _ _ Hg).
  destruct (resolve fs (arg_path args)) as [root|]; [|done].
  destruct (is_inside_global_vault cfg fs root) as [[|]|] eqn:Ein; [done| |done].
  pose proof (ensure_project_vault_final_adds cfg root fs) as [Hs1 _].
  destruct (ensure_project_vault cfg root fs) as [r fs1|e fs1] eqn:Ee; [|done].
  cbn [final_fs] in Hs1.
  apply ensure_project_vault_Ok in Ee as (-> & _ & Hv & Hm & Hi).
  pose proof (discover_globals_adds cfg fs1) as [Hs2 _].
  destruct (discover_globals cfg fs1) as [gm fs2|e fs2] eqn:Ed; [|done].
  cbn [final_fs] in Hs2.
  pose proof (auto_mount_loop_adds cfg root gm (auto_mount cfg) fs2) as [Hs3 _].
  destruct (auto_mount_loop cfg root gm (auto_mount cfg) fs2) as [u fs3|e fs3] eqn:Ea;
    [|done].
  cbn [final_fs] in Hs3.
  assert (fs1 ⊆ fs3) as Hs13 by (by etrans).
  assert (fs ⊆ fs3) as Hs by (by etrans).
  destruct (path_exists fs3 (joinpath root ".git")) eqn:Egit; [done|].
  assert (path_exists fs (joinpath root ".git") = false) as Hgit.
  { apply not_true_is_false. intros Ht.
    by rewrite (path_exists_mono _ _ _ Hs Ht) in Egit. }
  pose proof (is_dir_mono _ _ _ Hs13 Hv) as Hv3.
  pose proof (is_dir_mono _ _ _ Hs13 Hm) as Hm3.
  pose proof (path_exists_mono _ _ _ Hs13 Hi) as Hi3.
  destruct (create_desktop_launcher_flag cfg).
  - destruct (create_desktop_launcher _ cfg fs3) as [[] fs4|e fs4] eqn:El; [|done].
    intros [= <- <-]. exists root.
    apply create_desktop_launcher_Ok in El as (_ & Hd & Hp & _ & Hr & _ & Hread).
    split_and!; [done|done|done|done|by apply Hd|by apply Hd|by apply Hp|].
    intros _ He. destruct (Hread He) as (a & Ha & Hrd & _). exists a.
    split; [by rewrite Hr|done].
  - intros [= <- <-]. exists root. split_and!; auto. done.
Qed.

Lemma cmd_init_global_unfold cfg args fs nm :
  arg_global_name args = Some nm → nm ≠ "" →
  cmd_init cfg args fs =
    match ensure_global_vault cfg nm fs with
    | Ok _ fs' => Ok 0%nat fs'
    | Raise e fs' => Raise e fs'
    end.
Proof.
  intros Hg Hne. unfold cmd_init. rewrite Hg. destruct nm as [|c s]; [done|].
  unfold mbind, M_bind, bind, mret, M_ret, ret.
  by destruct (ensure_global_vault cfg _ fs).
Qed.

Lemma cmd_init_project_keeps cfg args fs :
  arg_global_name args = None ∨ arg_global_name args = Some "" →
  keeps fs (final_fs (cmd_init cfg args fs)).
Proof.
  intros Hg. rewrite (cmd_init_unfold _ _ _ Hg).
  destruct (resolve fs (arg_path args)) as [root|]; [|apply keeps_refl].
  destruct (is_inside_global_vault cfg fs root) as [[|]|];
    [apply keeps_refl| |apply keeps_refl].
  pose proof (ensure_project_vault_final_adds cfg root fs) as [Hs1 _].
  destruct (ensure_project_vault cfg root fs) as [r fs1|e fs1]; [|by apply keeps_subseteq].
  cbn [final_fs] in Hs1.
  pose proof (discover_globals_adds cfg fs1) as [Hs2 _].
  destruct (discover_globals cfg fs1) as [gm fs2|e fs2];
    [|apply keeps_subseteq; by etrans].
  cbn [final_fs] in Hs2.
  pose proof (auto_mount_loop_adds cfg root gm (auto_mount cfg) fs2) as [Hs3 _].
  assert (fs ⊆ fs2) as Hs12 by (by etrans).
  destruct (auto_mount_loop cfg root gm (auto_mount cfg) fs2) as [u fs3|e fs3];
    [|apply keeps_subseteq; by etrans].
  cbn [final_fs] in Hs3.
  assert (fs ⊆ fs3) as Hs by (by etrans).
  destruct (path_exists fs3 (joinpath root ".git")); [by apply keeps_subseteq|].
  destruct (create_desktop_launcher_flag cfg); [|by apply keeps_subseteq].
  pose proof (create_desktop_launcher_final r.1 cfg fs3) as Hk.
  apply (keeps_trans _ fs3); [by apply keeps_subseteq|].
  by destruct (create_desktop_launcher r.1 cfg fs3).
Qed.

(** X12. Whatever [cmd_init] is asked and however it ends, it removes no
    entry and changes the kind of none: a directory stays a directory, a
    link stays the link it was, and a regular file stays a regular file,
    with its content unless the launcher is written over it. *)
Theorem cmd_init_keeps cfg args fs :
  keeps fs (final_fs (cmd_init cfg args fs)).
Proof.
  destruct (arg_global_name args) as [nm|] eqn:Hg.
  - destruct (decide (nm = "")) as [->|Hne].
    + apply cmd_init_project_keeps. by right.
    + rewrite (cmd_init_global_unfold _ _ _ _ Hg Hne).
      pose proof (ensure_global_vault_final cfg nm fs) as H.
      apply keeps_subseteq. by destruct (ensure_global_vault cfg nm fs).
  - apply cmd_init_project_keeps. by left.
Qed.
(** The failures of the calls on the way of [cmd_init]. *)
Lemma ensure_project_vault_raises cfg root fs e fs' :
  ensure_project_vault cfg root fs = Raise e fs' → e = FsError.
Proof.
  rewrite ensure_project_vault_unfold. cbn zeta. intros H.
  repeat case_match; by simplify_eq.
Qed.

Lemma discover_globals_raises cfg fs e fs' :
  discover_globals cfg fs = Raise e fs' → e = FsError.
Proof.
  rewrite discover_globals_unfold. intros H. repeat case_match; by simplify_eq.
Qed.

Lemma ensure_global_vault_raises cfg nm fs :
  raised (ensure_global_vault cfg nm fs) ≠ Some NotFound.
Proof.
  rewrite ensure_global_vault_unfold. cbn zeta. repeat case_match; by cbn.
Qed.

Lemma create_desktop_launcher_raises vault cfg fs :
  raised (create_desktop_launcher vault cfg fs) ≠ Some NotFound.
Proof.
  rewrite create_desktop_launcher_unfold. repeat case_match; by cbn.
Qed.

(** A name of a mapping just discovered is found again by the mount. *)
Lemma mount_global_into_project_found cfg root nm globals_map fs0 fs :
  discover_globals cfg fs0 = Ok globals_map fs →
  dict_mem globals_map nm = true →
  raised (mount_global_into_project cfg root nm fs) ≠ Some NotFound.
Proof.
  intros Hd [target Ht]%dict_mem_true.
  rewrite mount_global_into_project_unfold.
  destruct (is_inside_global_vault cfg fs root) as [[|]|]; [done| |done].
  rewrite (discover_globals_again _ _ _ _ Hd), Ht.
  destruct (ensure_project_vault cfg root fs) as [r fs2|e fs2] eqn:Ee.
  - cbn zeta. repeat case_match; by cbn.
  - apply ensure_project_vault_raises in Ee as ->. by cbn.
Qed.

Lemma auto_mount_loop_single cfg root globals_map names fs0 fs :
  discover_globals cfg fs0 = Ok globals_map fs →
  (length (filter (λ nm, dict_mem globals_map nm = true) names) ≤ 1)%nat →
  raised (auto_mount_loop cfg root globals_map names fs) ≠ Some NotFound.
Proof.
  intros Hd Hlen. rewrite auto_mount_loop_filter.
  destruct (filter _ names) as [|nm [|nm' l]]; [done| |cbn in Hlen; lia].
  rewrite auto_mount_loop_cons.
  destruct (dict_mem globals_map nm) eqn:Em; [|done].
  pose proof (mount_global_into_project_found cfg root nm _ _ _ Hd Em) as Hm.
  by destruct (mount_global_into_project cfg root nm fs).
Qed.

Lemma cmd_init_single cfg args fs :
  (length (auto_mount cfg) ≤ 1)%nat →
  raised (cmd_init cfg args fs) ≠ Some NotFound.
Proof.
  intros Hlen.
  assert (∀ nm, nm ≠ "" → arg_global_name args = Some nm →
                raised (cmd_init cfg args fs) ≠ Some NotFound) as Hglobal.
  { intros nm Hne Hg. rewrite (cmd_init_global_unfold _ _ _ _ Hg Hne).
    pose proof (ensure_global_vault_raises cfg nm fs) as H.
    by destruct (ensure_global_vault cfg nm fs). }
  assert (arg_global_name args = None ∨ arg_global_name args = Some "" →
          raised (cmd_init cfg args fs) ≠ Some NotFound) as Hproject.
  { intros Hg. rewrite (cmd_init_unfold _ _ _ Hg).
    destruct (resolve fs (arg_path args)) as [root|]; [|done].
    destruct (is_inside_global_vault cfg fs root) as [[|]|]; [done| |done].
    destruct (ensure_project_vault cfg root fs) as [r fs1|e fs1] eqn:Ee.
    2:{ apply ensure_project_vault_raises in Ee as ->. by cbn. }
    destruct (discover_globals cfg fs1) as [gm fs2|e fs2] eqn:Ed.
    2:{ apply discover_globals_raises in Ed as ->. by cbn. }
    assert (length (filter (λ nm, dict_mem gm nm = true) (auto_mount cfg)) ≤ 1)%nat as Hf.
    { etrans; [apply length_filter|done]. }
    pose proof (auto_mount_loop_single cfg root gm (auto_mount cfg) _ _ Ed Hf) as Hl.
    destruct (auto_mount_loop cfg root gm (auto_mount cfg) fs2) as [u fs3|e fs3]; [|done].
    destruct (path_exists fs3 _); [done|].
    destruct (create_desktop_launcher_flag cfg); [|done].
    pose proof (create_desktop_launcher_raises r.1 cfg fs3) as Hc.
    by destruct (create_desktop_launcher r.1 cfg fs3). }
  destruct (arg_global_name args) as [nm|] eqn:Hg; [|by apply Hproject; left].
  destruct (decide (nm = "")) as [->|Hne]; [by apply Hproject; right|].
  by apply (Hglobal nm).
Qed.

(** C10, as it holds. The loop of [cmd_init] goes through [auto_mount] in
    order: a name that is in the mapping discovered before the loop is
    mounted, and the loop ends with the error of the first mount that
    raises; a name that is not in the mapping is passed over without
    raising.  So the names mounted are exactly those in the mapping; when
    none is, the loop does nothing and [cmd_init] goes on as with no name
    to mount.  When at most one of the names is in the mapping, the loop
    does not raise [NotFound], and with at most one name in [auto_mount]
    [cmd_init] never does. *)
Theorem auto_mount_skips_missing cfg root globals_map names fs :
  auto_mount_loop cfg root globals_map [] fs = Ok tt fs ∧
  (∀ nm names',
     auto_mount_loop cfg root globals_map (nm :: names') fs =
       if dict_mem globals_map nm then
         match mount_global_into_project cfg root nm fs with
         | Ok _ fs' => auto_mount_loop cfg root globals_map names' fs'
         | Raise e fs' => Raise e fs'
         end
       else auto_mount_loop cfg root globals_map names' fs) ∧
  auto_mount_loop cfg root globals_map names fs
  = auto_mount_loop cfg root globals_map
      (filter (λ nm, dict_mem globals_map nm = true) names) fs ∧
  ((∀ nm, nm ∈ names → dict_get globals_map nm = None) →
   auto_mount_loop cfg root globals_map names fs = Ok tt fs) ∧
  (∀ fs0,
     discover_globals cfg fs0 = Ok globals_map fs →
     (length (filter (λ nm, dict_mem globals_map nm = true) names) ≤ 1)%nat →
     raised (auto_mount_loop cfg root globals_map names fs) ≠ Some NotFound) ∧
  (∀ args, (length (auto_mount cfg) ≤ 1)%nat →
           raised (cmd_init cfg args fs) ≠ Some NotFound) ∧
  ∀ args r fs1 fs2,
    arg_global_name args = None →
    resolve fs (arg_path args) = Some root →
    names = auto_mount cfg →
    is_inside_global_vault cfg fs root = Some false →
    ensure_project_vault cfg root fs = Ok r fs1 →
    discover_globals cfg fs1 = Ok globals_map fs2 →
    (∀ nm, nm ∈ names → dict_get globals_map nm = None) →
    cmd_init cfg args fs
    = (ensure_gitignore root cfg;;
       (if create_desktop_launcher_flag cfg then create_desktop_launcher r.1 cfg
        else mret tt);;
       mret 0%nat) fs2.
Proof.
  split_and!.
  - done.
  - intros nm names'. apply auto_mount_loop_cons.
  - apply auto_mount_loop_filter.
  - apply auto_mount_loop_none.
  - intros fs0. apply auto_mount_loop_single.
  - intros args. apply cmd_init_single.
  - intros args r fs1 fs2 Hg Hroot Hnames Hin He Hd Hnone.
    unfold cmd_init. rewrite Hg.
    unfold mbind at 1 2, M_bind at 1 2, bind at 1 2, fs_resolve.
    rewrite Hroot, Hin.
    unfold mbind at 1, M_bind at 1, bind at 1. rewrite He.
    destruct r as [vault mount].
    unfold mbind at 1, M_bind at 1, bind at 1. rewrite Hd.
    unfold mbind at 1, M_bind at 1, bind at 1.
    rewrite <- Hnames, (auto_mount_loop_none _ _ _ _ fs2 Hnone). done.
Qed.
End init.

(** ** The listing *)

Section listing.
Implicit Types (cfg : Config) (fs : gmap path node) (p root d : path).
Implicit Types (nm : string) (args : Args).

(** The listing with [vault_root] in place. *)
Lemma cmd_list_unfold cfg args fs :
  is_dir fs (vault_root cfg) = true →
  ∃ m,
    discover_globals cfg fs = Ok m fs ∧
    cmd_list cfg args fs =
      match resolve fs (arg_path args) with
      | None => (print_globals cfg m, Raise SymlinkLoop fs)
      | Some root =>
          let vault := (project_paths cfg root).1 in
          let mount := (project_paths cfg root).2 in
          if path_exists fs vault && path_exists fs mount then
            match iterdir fs mount with
            | None =>
                (print_globals cfg m ++ [nl +:+ "project vault: " +:+ path_str vault],
                 Raise FsError fs)
            | Some names =>
                match mapM (mount_entry fs mount) (sorted_by name_le names) with
                | None =>
                    (print_globals cfg m ++ [nl +:+ "project vault: " +:+ path_str vault],
                     Raise SymlinkLoop fs)
                | Some mounts =>
                    ((print_globals cfg m ++ [nl +:+ "project vault: " +:+ path_str vault])
                     ++ print_mounts mounts,
                     Ok 0%nat fs)
                end
            end
          else (print_globals cfg m, Ok 0%nat fs)
      end.
Proof.
  intros Hd. destruct (discover_globals_is_dir _ _ Hd) as [m Hm].
  exists m. split; [done|]. unfold cmd_list. rewrite Hm.
  destruct (resolve fs (arg_path args)) as [root|]; [|done].
  by destruct (project_paths cfg root) as [vault mount].
Qed.

(** X13. The listing reads: with [vault_root] in place it leaves the
    filesystem as it is, however it ends; without, all it can add is the
    directories of [vault_root]. *)
Theorem cmd_list_reads cfg args fs :
  adds (λ nd, nd = Dir) fs (final_fs (cmd_list cfg args fs).2) ∧
  (is_dir fs (vault_root cfg) = true → final_fs (cmd_list cfg args fs).2 = fs).
Proof.
  split.
  - unfold cmd_list. pose proof (discover_globals_adds cfg fs) as H.
    destruct (discover_globals cfg fs) as [m fs1|e fs1]; [|done].
    cbn [final_fs] in H.
    destruct (resolve fs1 (arg_path args)) as [root|]; [|done].
    destruct (project_paths cfg root) as [vault mount].
    destruct (path_exists fs1 vault && path_exists fs1 mount); [|done].
    destruct (iterdir fs1 mount); [|done].
    by destruct (mapM _ _).
  - intros Hd. destruct (cmd_list_unfold cfg args fs Hd) as (m & _ & ->).
    destruct (resolve fs (arg_path args)) as [root|]; [|done]. cbn zeta.
    destruct (path_exists fs _ && path_exists fs _); [|done].
    destruct (iterdir fs _); [|done].
    by destruct (mapM _ _).
Qed.

Lemma iterdir_None fs p : iterdir fs p = None ↔ is_dir fs p = false.
Proof.
  unfold iterdir, is_dir. by destruct (stat fs p) as [? [| |]| | |].
Qed.

(** The entries of the listing, when every link resolves. *)
Lemma mapM_mount_entry_Some fs mount l :
  forallb (λ c, negb (is_symlink fs (mount ++ [c])) || resolves fs (mount ++ [c])) l = true →
  ∃ mounts,
    mapM (mount_entry fs mount) l = Some mounts ∧
    ∀ c, c ∈ l → is_symlink fs (mount ++ [c]) = true →
         ∃ q, resolve fs (mount ++ [c]) = Some q ∧ (c, path_str q) ∈ mounts.
Proof.
  induction l as [|x l IH]; intros H.
  { exists []. split; [done|]. intros c Hc. by apply elem_of_nil in Hc. }
  cbn [forallb] in H. apply andb_true_iff in H as [Hx Hl].
  destruct (IH Hl) as (mounts & Hm & Hin).
  assert (∃ y, mount_entry fs mount x = Some y ∧
               (is_symlink fs (mount ++ [x]) = true →
                ∃ q, resolve fs (mount ++ [x]) = Some q ∧ y = (x, path_str q)))
    as (y & Hy & Hyq).
  { unfold mount_entry. rewrite name_snoc. unfold resolves in Hx.
    destruct (is_symlink fs (mount ++ [x])); cbn [negb orb] in Hx.
    - destruct (resolve fs (mount ++ [x])) as [q|]; [|done]. cbn. eauto.
    - eexists. split; [done|]. done. }
  exists (y :: mounts). split.
  - cbn. rewrite Hy. cbn. by rewrite Hm.
  - intros c [->|Hc]%elem_of_cons Hs.
    + destruct (Hyq Hs) as (q & Hq & ->). exists q. split; [done|left].
    + destruct (Hin c Hc Hs) as (q & Hq & Hqin). exists q. split; [done|by right].
Qed.

(** One link that cannot be resolved stops the listing. *)
Lemma mapM_mount_entry_None fs mount l :
  forallb (λ c, negb (is_symlink fs (mount ++ [c])) || resolves fs (mount ++ [c])) l = false →
  mapM (mount_entry fs mount) l = None.
Proof.
  induction l as [|x l IH]; [done|]. cbn [forallb]. intros H.
  change (mapM (mount_entry fs mount) (x :: l))
    with (y ← mount_entry fs mount x; k ← mapM (mount_entry fs mount) l; mret (y :: k)).
  unfold mount_entry at 2. unfold resolves in H.
  destruct (is_symlink fs (mount ++ [x])); cbn [negb orb andb] in H.
  - destruct (resolve fs (mount ++ [x])) as [q|]; [|reflexivity].
    cbn [andb] in H. cbn. by rewrite (IH H).
  - cbn. by rewrite (IH H).
Qed.

Lemma forallb_Permutation {A} (f : A → bool) (l l' : list A) :
  l ≡ₚ l' → forallb f l = forallb f l'.
Proof.
  induction 1 as [|x l l' _ IH|x y l|l l' l'' _ IH1 _ IH2]; cbn [forallb].
  - done.
  - by rewrite IH.
  - by rewrite !andb_assoc, (andb_comm (f y)).
  - congruence.
Qed.

(** X14. With [vault_root] in place the listing returns 0, but for three
    cases.  The project path cannot be resolved: it raises the error of
    [resolve].  The project vault and the mount path exist and the mount
    path is no directory: it raises the error of [iterdir].  The mount
    path is a directory with a symbolic link that cannot be resolved: it
    raises the error of [resolve].  In the last two cases the last thing
    printed is the line of the project vault. *)
Theorem cmd_list_returns cfg args fs :
  is_dir fs (vault_root cfg) = true →
  (resolve fs (arg_path args) = None →
   (cmd_list cfg args fs).2 = Raise SymlinkLoop fs) ∧
  ∀ root,
    resolve fs (arg_path args) = Some root →
    (path_exists fs (project_paths cfg root).1
     && path_exists fs (project_paths cfg root).2 = false →
     (cmd_list cfg args fs).2 = Ok 0%nat fs) ∧
    (path_exists fs (project_paths cfg root).1
     && path_exists fs (project_paths cfg root).2 = true →
     (is_dir fs (project_paths cfg root).2 = false →
      (cmd_list cfg args fs).2 = Raise FsError fs ∧
      last (cmd_list cfg args fs).1
      = Some (nl +:+ "project vault: " +:+ path_str (project_paths cfg root).1)) ∧
     (is_dir fs (project_paths cfg root).2 = true →
      links_resolve fs (project_paths cfg root).2 = true →
      (cmd_list cfg args fs).2 = Ok 0%nat fs) ∧
     (is_dir fs (project_paths cfg root).2 = true →
      links_resolve fs (project_paths cfg root).2 = false →
      (cmd_list cfg args fs).2 = Raise SymlinkLoop fs ∧
      last (cmd_list cfg args fs).1
      = Some (nl +:+ "project vault: " +:+ path_str (project_paths cfg root).1))).
Proof.
  intros Hd. destruct (cmd_list_unfold cfg args fs Hd) as (m & _ & ->). split.
  { by intros ->. }
  intros root ->. cbn zeta. split.
  { by intros ->. }
  intros ->. unfold links_resolve. split_and!.
  - intros Hm. apply iterdir_None in Hm. rewrite Hm. cbn [fst snd].
    split; [done|]. by rewrite last_snoc.
  - intros Hm. destruct (iterdir fs _) as [names|] eqn:Ei;
      [|apply iterdir_None in Ei; congruence].
    rewrite <- (forallb_Permutation _ _ _ (sorted_by_Permutation name_le names)).
    intros (mounts & -> & _)%mapM_mount_entry_Some. done.
  - intros Hm. destruct (iterdir fs _) as [names|] eqn:Ei; [|done].
    rewrite <- (forallb_Permutation _ _ _ (sorted_by_Permutation name_le names)).
    intros ->%mapM_mount_entry_None. cbn [fst snd].
    split; [done|]. by rewrite last_snoc.
Qed.

Lemma mount_global_into_project_vault_root cfg root nm fs fs1 :
  mount_global_into_project cfg root nm fs = Ok tt fs1 →
  is_dir fs1 (vault_root cfg) = true.
Proof.
  intros H.
  pose proof (mount_global_into_project_adds cfg root nm fs) as [Hsub _].
  rewrite H in Hsub. cbn [final_fs] in Hsub.
  rewrite mount_global_into_project_unfold in H.
  destruct (is_inside_global_vault cfg fs root) as [[|]|]; [done| |done].
  pose proof (discover_globals_adds cfg fs) as [Hs1 _].
  destruct (discover_globals cfg fs) as [gm fsA|] eqn:Ed; [|done].
  cbn [final_fs] in Hs1.
  apply discover_globals_spec in Ed as (_ & Hdir & _).
  destruct (dict_get gm nm) as [target|]; [|done].
  pose proof (ensure_project_vault_final_adds cfg root fsA) as [Hs2 _].
  destruct (ensure_project_vault cfg root fsA) as [r fsB|] eqn:Ee; [|done].
  cbn [final_fs] in Hs2. cbn zeta in H.
  assert (fsB ⊆ fs1) as Hs3.
  { destruct (path_exists fsB _ || is_symlink fsB _).
    - destruct (is_symlink fsB _); [|done].
      destruct (resolve fsB (joinpath r.2 nm)); [|done].
      destruct (resolve fsB target); [|done].
      case_bool_decide; by simplify_eq.
    - destruct (symlink_to fsB _ _) as [fs3|] eqn:Es; [|done]. simplify_eq.
      by apply symlink_to_spec in Es as (d & c & _ & _ & ? & _). }
  eapply is_dir_mono; [|done]. by etrans.
Qed.

(** X15. A mount shows in the listing: after a mount of a plain name
    returned, and when every symbolic link in the mount directory can be
    resolved, the listing for the same project root returns 0, prints the
    line of the project vault and then, under [mounted:], the line of the
    name with the resolved path of its link, which is the resolved path of
    the global vault. *)
Theorem cmd_list_shows_mount cfg root nm args fs fs1 :
  plain nm = true →
  mount_global_into_project cfg root nm fs = Ok tt fs1 →
  resolve fs1 (arg_path args) = Some root →
  links_resolve fs1 (project_paths cfg root).2 = true →
  ∃ pre post q,
    cmd_list cfg args fs1
    = (pre ++ (nl +:+ "project vault: " +:+ path_str (project_paths cfg root).1)
           :: "mounted:" :: post,
       Ok 0%nat fs1) ∧
    resolve fs1 ((project_paths cfg root).2 ++ [nm]) = Some q ∧
    resolve fs1 (vault_root cfg ++ [nm]) = Some q ∧
    list_line nm (path_str q) ∈ post.
Proof.
  intros Hp Hm Hroot Hlr.
  pose proof (mount_global_into_project_vault_root _ _ _ _ _ Hm) as Hvr.
  destruct (cmd_list_unfold cfg args fs1 Hvr) as (m & _ & ->). rewrite Hroot. cbn zeta.
  destruct (mount_global_into_project_link _ _ _ _ _ Hm) as [Hl Hr].
  rewrite (joinpath_plain _ _ Hp) in Hl, Hr.
  apply mount_global_into_project_Ok in Hm as (fsB & Hsub & Hv & Hmd & _ & _).
  set (vault := (project_paths cfg root).1) in *.
  set (mount := (project_paths cfg root).2) in *.
  pose proof (is_dir_mono _ _ _ Hsub Hv) as Hv1.
  pose proof (is_dir_mono _ _ _ Hsub Hmd) as Hmd1.
  rewrite (is_dir_exists _ _ Hv1), (is_dir_exists _ _ Hmd1). cbn [andb].
  unfold links_resolve in Hlr.
  unfold is_dir in Hmd1.
  destruct (stat fs1 mount) as [d [| |]| | |] eqn:Est; try done.
  assert (iterdir fs1 mount = Some (entries fs1 d)) as Hit.
  { apply iterdir_Some. eauto. }
  rewrite Hit in Hlr |- *.
  assert (nm ∈ entries fs1 d) as Hin.
  { apply elem_of_entries. unfold is_symlink in Hl.
    rewrite (lstat_snoc _ _ _ nm Est) in Hl. by destruct (fs1 !! (d ++ [nm])). }
  assert (nm ∈ sorted_by name_le (entries fs1 d)) as Hin'.
  { by rewrite sorted_by_Permutation. }
  rewrite <- (forallb_Permutation _ _ _ (sorted_by_Permutation name_le (entries fs1 d)))
    in Hlr.
  destruct (mapM_mount_entry_Some _ _ _ Hlr) as (mounts & -> & Hall).
  destruct (Hall nm Hin' Hl) as (q & Hq & Hme).
  exists (print_globals cfg m), (map (λ nd, list_line nd.1 nd.2) mounts), q. split_and!.
  - unfold print_mounts. destruct mounts as [|x mounts'] eqn:E.
    + by apply elem_of_nil in Hme.
    + by rewrite <- (assoc_L (++)).
  - done.
  - by rewrite <- Hr.
  - apply list_elem_of_fmap. by exists (nm, path_str q).
Qed.

(** X16. With [vault_root] in place, what the listing prints first is
    the line of [vault_root] and then the global vaults: each child of
    [vault_root] that is a mountable global vault on one line, none twice,
    in ascending order of the lower-cased names, and no other. *)
Theorem cmd_list_globals cfg args fs :
  is_dir fs (vault_root cfg) = true →
  ∃ m rest,
    (cmd_list cfg args fs).1
    = ("vault_root: " +:+ path_str (vault_root cfg))
      :: (match m with
          | [] => ["(no global vaults found)"]
          | _ => "global vaults:" :: map (λ kv, list_line kv.1 (path_str kv.2)) m
          end) ++ rest ∧
    NoDup m.*1 ∧
    Sorted (λ a b, String.leb (lower a.1) (lower b.1) = true) m ∧
    ∀ n p, (n, p) ∈ m ↔
           p = vault_root cfg ++ [n] ∧ is_mountable_global cfg fs p = true.
Proof.
  intros Hd. destruct (cmd_list_unfold cfg args fs Hd) as (m & Hm & ->).
  apply discover_globals_spec in Hm as (_ & _ & Hnd & Hs & Hget).
  assert (∀ rest, print_globals cfg m ++ rest
          = ("vault_root: " +:+ path_str (vault_root cfg))
            :: (match m with
                | [] => ["(no global vaults found)"]
                | _ => "global vaults:" :: map (λ kv, list_line kv.1 (path_str kv.2)) m
                end) ++ rest) as Hpre by done.
  assert (∀ n p, (n, p) ∈ m ↔
                 p = vault_root cfg ++ [n] ∧ is_mountable_global cfg fs p = true) as Hin.
  { intros n p. rewrite <- Hget. symmetry. by apply dict_get_elem. }
  assert (∀ out o, (∃ rest, out = print_globals cfg m ++ rest) →
    ∃ m0 rest,
      (out, o : outcome nat).1
      = ("vault_root: " +:+ path_str (vault_root cfg))
        :: (match m0 with
            | [] => ["(no global vaults found)"]
            | _ => "global vaults:" :: map (λ kv, list_line kv.1 (path_str kv.2)) m0
            end) ++ rest ∧
      NoDup m0.*1 ∧
      Sorted (λ a b, String.leb (lower a.1) (lower b.1) = true) m0 ∧
      ∀ n p, (n, p) ∈ m0 ↔
             p = vault_root cfg ++ [n] ∧ is_mountable_global cfg fs p = true) as Hall.
  { intros out o [rest ->]. exists m, rest. cbn [fst]. by rewrite <- Hpre. }
  destruct (resolve fs (arg_path args)) as [root|].
  2:{ apply Hall. exists []. by rewrite app_nil_r. }
  cbn zeta. destruct (path_exists fs _ && path_exists fs _).
  2:{ apply Hall. exists []. by rewrite app_nil_r. }
  destruct (iterdir fs _); [|apply Hall; eauto].
  destruct (mapM _ _); apply Hall; [|eauto].
  rewrite <- (assoc_L (++)). eauto.
Qed.

Lemma mkdir_parents_not_dir fs p :
  path_exists fs p = true → is_dir fs p = false → mkdir_parents fs p = None.
Proof.
  intros He Hd. unfold mkdir_parents.
  assert (os_mkdir fs (rev (rev p)) = EOTHER ∧ is_dir fs (rev (rev p)) = false) as [H1 H2].
  { rewrite rev_involutive. split; [|done]. by apply os_mkdir_exists. }
  destruct (rev p); simpl in *; by rewrite H1, H2.
Qed.

Lemma not_inside_without_root cfg fs p :
  is_dir fs (vault_root cfg) = false → is_Some (resolve fs p) →
  is_inside_global_vault cfg fs p = Some false.
Proof.
  intros Hd [q Hq]. rewrite is_inside_global_vault_unfold, Hq.
  destruct (path_exists fs (vault_root cfg)) eqn:He; [|done].
  destruct (resolve_exists _ _ He) as [r ->].
  destruct (relative_to _ _) as [[|c rel]|]; [done| |done].
  f_equal. apply not_true_is_false. intros Hm%is_mountable_global_root_dir. congruence.
Qed.

(** X17. When [vault_root] exists and is no directory (a regular file,
    or a link to one), nothing works and nothing is changed: discovery
    raises the error of [mkdir], and so do the listing, which has printed
    nothing by then, and a mount for every project root that can be
    resolved; for one that cannot, the mount raises the error of
    [resolve]. *)
Theorem vault_root_not_a_directory cfg fs :
  path_exists fs (vault_root cfg) = true →
  is_dir fs (vault_root cfg) = false →
  discover_globals cfg fs = Raise FsError fs ∧
  (∀ root nm, is_Some (resolve fs root) →
              mount_global_into_project cfg root nm fs = Raise FsError fs) ∧
  (∀ root nm, resolve fs root = None →
              mount_global_into_project cfg root nm fs = Raise SymlinkLoop fs) ∧
  (∀ args, is_Some (resolve fs (arg_path args)) →
           cmd_mount cfg args fs = Raise FsError fs) ∧
  (∀ args, resolve fs (arg_path args) = None →
           cmd_mount cfg args fs = Raise SymlinkLoop fs) ∧
  (∀ args, cmd_list cfg args fs = ([], Raise FsError fs)).
Proof.
  intros He Hd.
  assert (discover_globals cfg fs = Raise FsError fs) as Hdisc.
  { rewrite discover_globals_unfold. by rewrite (mkdir_parents_not_dir _ _ He Hd). }
  assert (∀ root nm, is_Some (resolve fs root) →
                     mount_global_into_project cfg root nm fs = Raise FsError fs) as Hm.
  { intros root nm Hr. rewrite mount_global_into_project_unfold.
    by rewrite (not_inside_without_root _ _ _ Hd Hr), Hdisc. }
  split_and!; [done|done| | | |].
  - intros root nm Hr. rewrite mount_global_into_project_unfold.
    by rewrite (proj2 (is_inside_global_vault_None cfg fs root) Hr).
  - intros args [q Hq]. rewrite cmd_mount_unfold, Hq, Hm; [done|].
    exists q. by apply (resolve_idemp _ (arg_path args)).
  - intros args Hr. by rewrite cmd_mount_unfold, Hr.
  - intros args. unfold cmd_list. by rewrite Hdisc.
Qed.
End listing.

End vaultctl.

(** * The program at work

    Runs of the program under the limit of Linux, on the filesystems
    above. *)

(** C1 as stated fails: [cmd_init] with the project root [/vaults], which
    is [vault_root] itself, is not refused; it returns and has made the
    project vault [/vaults/.vault] in [vault_root]. *)
Lemma init_at_vault_root_accepted :
  result (cmd_init MAXSYMLINKS cfg_vaults (args_init ["vaults"]) fs_scenario) = Some 0%nat ∧
  final_fs (cmd_init MAXSYMLINKS cfg_vaults (args_init ["vaults"]) fs_scenario)
    !! ["vaults"; ".vault"] = Some Dir.
Proof. split; vm_compute; reflexivity. Qed.


(** C3 as stated fails: [/vaults/global] holds an entry named [_m], a link
    to nowhere, and is mountable all the same. *)
Lemma mountable_despite_entry :
  is_mountable_global MAXSYMLINKS cfg_vaults fs_dangling ["vaults"; "global"] = true ∧
  ¬ mountable_as_specified MAXSYMLINKS cfg_vaults fs_dangling ["vaults"; "global"].
Proof.
  split; [vm_compute; reflexivity|].
  intros (_ & _ & _ & _ & H). vm_compute in H. discriminate.
Qed.

(** C5 as stated fails, in two ways.  Mounting [global] for the project
    root [/vaults/g/p] returns, and makes [/vaults/g] on the way, which is
    then a global vault: the second mount is refused.  And with the mount
    directory of [/proj] a link to the global vault [m], and [m] the name
    of the mount directory, mounting [m] returns and puts the link into
    the global vault itself, which is then no global vault any more: the
    second mount, from a project root that is still outside every global
    vault, does not find it. *)
Lemma second_mount_refused :
  (result (mount_global_into_project MAXSYMLINKS cfg_vaults ["vaults"; "g"; "p"] "global"
             fs_scenario) = Some tt ∧
   raised (mount_global_into_project MAXSYMLINKS cfg_vaults ["vaults"; "g"; "p"] "global"
             (final_fs (mount_global_into_project MAXSYMLINKS cfg_vaults
                          ["vaults"; "g"; "p"] "global" fs_scenario)))
   = Some InvalidLocation) ∧
  (result (mount_global_into_project MAXSYMLINKS cfg_m ["proj"] "m" fs_mount_is_vault)
   = Some tt ∧
   is_inside_global_vault MAXSYMLINKS cfg_m
     (final_fs (mount_global_into_project MAXSYMLINKS cfg_m ["proj"] "m" fs_mount_is_vault))
     ["proj"] = Some false ∧
   is_mountable_global MAXSYMLINKS cfg_m
     (final_fs (mount_global_into_project MAXSYMLINKS cfg_m ["proj"] "m" fs_mount_is_vault))
     ["vaults"; "m"] = false ∧
   raised (mount_global_into_project MAXSYMLINKS cfg_m ["proj"] "m"
             (final_fs (mount_global_into_project MAXSYMLINKS cfg_m ["proj"] "m"
                          fs_mount_is_vault)))
   = Some NotFound).
Proof. split_and!; vm_compute; reflexivity. Qed.

(** C6 as stated fails, in two ways.  With a regular file at the mount
    path the mount raises [AlreadyExists], but the index document of the
    project vault has been written by then.  And with a symbolic link to
    itself at the mount path, a stale link, the mount does not raise
    [AlreadyExists]: [resolve] raises. *)
Lemma conflict_writes_index :
  (raised (mount_global_into_project MAXSYMLINKS cfg_vaults ["home"; "u"; "proj"] "global"
             fs_conflict) = Some AlreadyExists ∧
   fs_conflict !! ["home"; "u"; "proj"; ".vault"; "index.md"] = None ∧
   final_fs (mount_global_into_project MAXSYMLINKS cfg_vaults ["home"; "u"; "proj"] "global"
               fs_conflict) !! ["home"; "u"; "proj"; ".vault"; "index.md"]
   = Some (File ("# Project Notes" +:+ nl +:+ nl))) ∧
  (is_symlink MAXSYMLINKS fs_conflict_loop ["home"; "u"; "proj"; ".vault"; "_m"; "global"]
   = true ∧
   raised (mount_global_into_project MAXSYMLINKS cfg_vaults ["home"; "u"; "proj"] "global"
             fs_conflict_loop) = Some SymlinkLoop).
Proof. split_and!; vm_compute; reflexivity. Qed.

(** C7 as stated fails: [work] is a valid name and [ensure_global_vault]
    returns for it, through the link [/vaults/work], but
    [discover_globals] does not have [work] afterwards. *)
Lemma linked_vault_not_discovered :
  result (ensure_global_vault MAXSYMLINKS cfg_vaults "work" fs_linked_vault)
  = Some ["vaults"; "work"] ∧
  result (discover_globals MAXSYMLINKS cfg_vaults
            (final_fs (ensure_global_vault MAXSYMLINKS cfg_vaults "work" fs_linked_vault)))
  = Some [].
Proof. split; vm_compute; reflexivity. Qed.

(** C9 as stated fails: [/vaults/notes] is a direct child of [vault_root],
    not ignored and no link, and holds an entry named [_m]; it is
    mountable and discovered. *)
Lemma discovered_despite_entry :
  has_entry MAXSYMLINKS fs_dangling_notes ["vaults"; "notes"] "_m" = true ∧
  is_mountable_global MAXSYMLINKS cfg_vaults fs_dangling_notes ["vaults"; "notes"] = true ∧
  result (discover_globals MAXSYMLINKS cfg_vaults fs_dangling_notes)
  = Some [("notes", ["vaults"; "notes"])].
Proof. split_and!; vm_compute; reflexivity. Qed.

(** C10 as stated fails: both [auto_mount] names are global vaults when
    [cmd_init] discovers them; mounting [m] puts a link named [m] into
    [/vaults/g2], and the mount of [g2] then raises [NotFound]. *)
Lemma init_raises_not_found :
  result (discover_globals MAXSYMLINKS cfg_m fs_linked_mount)
  = Some [("g2", ["vaults"; "g2"]); ("m", ["vaults"; "m"])] ∧
  raised (cmd_init MAXSYMLINKS cfg_m (args_init ["proj"]) fs_linked_mount) = Some NotFound.
Proof. split; vm_compute; reflexivity. Qed.

(** ** The theorems at work *)

(** C1: [cmd_init] in [/vaults/global/sub], inside the global vault
    [/vaults/global], is refused. *)
Lemma nesting_rejected_witness :
  is_mountable_global MAXSYMLINKS cfg_vaults fs_scenario ["vaults"; "global"] = true ∧
  cmd_init MAXSYMLINKS cfg_vaults (args_init ["vaults"; "global"; "sub"]) fs_scenario
  = Raise InvalidLocation fs_scenario.
Proof.
  split; [vm_compute; reflexivity|].
  destruct (nesting_rejected MAXSYMLINKS cfg_vaults fs_scenario ["vaults"; "global"; "sub"]
              ["vaults"] "global" ["sub"] "global" (args_init ["vaults"; "global"; "sub"]))
    as [_ H].
  - vm_compute; reflexivity.
  - vm_compute; reflexivity.
  - vm_compute; reflexivity.
  - apply H; [reflexivity|left; reflexivity].
Defined.


(** C3: the five conditions hold for [/vaults/global]. *)
Lemma is_mountable_global_iff_witness :
  is_mountable_global MAXSYMLINKS cfg_vaults fs_scenario ["vaults"; "global"] = true.
Proof.
  apply (is_mountable_global_iff MAXSYMLINKS cfg_vaults fs_scenario ["vaults"; "global"]).
  split_and!; vm_compute; reflexivity.
Defined.

(** C4: discovery in the scenario, and discovery that has to make
    [/vaults] first. *)
Lemma discover_globals_correct_witness :
  (dict_get [("global", ["vaults"; "global"])] "_scratch" = None ∧
   is_mountable_global MAXSYMLINKS cfg_vaults fs_scenario ["vaults"; "global"] = true) ∧
  ∃ m, discover_globals MAXSYMLINKS cfg_vaults {[ ["home"] := Dir ]}
       = Ok m (add_dirs {[ ["home"] := Dir ]} [] ["vaults"]).
Proof.
  split.
  - destruct (discover_globals_correct MAXSYMLINKS cfg_vaults fs_scenario) as (_ & _ & H).
    destruct (H [("global", ["vaults"; "global"])] fs_scenario)
      as (_ & _ & Hget & _ & _ & _ & Hs & _); [vm_compute; reflexivity|].
    split; [exact Hs|]. by apply (Hget "global").
  - destruct (discover_globals_correct MAXSYMLINKS cfg_vaults {[ ["home"] := Dir ]})
      as (_ & H & _).
    apply (H [] [] "vaults" []).
    + apply closedb_closed. vm_compute; reflexivity.
    + reflexivity.
    + vm_compute; reflexivity.
    + vm_compute; reflexivity.
Defined.

(** C5: the scenario, mounted twice. *)
Lemma mount_idempotent_witness :
  mount_global_into_project MAXSYMLINKS cfg_vaults ["home"; "u"; "proj"] "global"
    (final_fs (mount_global_into_project MAXSYMLINKS cfg_vaults ["home"; "u"; "proj"]
                 "global" fs_scenario))
  = Ok tt (final_fs (mount_global_into_project MAXSYMLINKS cfg_vaults ["home"; "u"; "proj"]
                       "global" fs_scenario)).
Proof.
  apply (mount_idempotent MAXSYMLINKS cfg_vaults ["home"; "u"; "proj"] "global" fs_scenario);
    vm_compute; reflexivity.
Defined.

(** C6: a regular file at the mount path of a project vault that has its
    index document. *)
Lemma mount_conflict_witness :
  mount_global_into_project MAXSYMLINKS cfg_vaults ["home"; "u"; "proj"] "global"
    fs_conflict_index
  = Raise AlreadyExists fs_conflict_index.
Proof.
  destruct (mount_conflict MAXSYMLINKS cfg_vaults ["home"; "u"; "proj"] "global"
              fs_conflict_index) as [H _].
  - vm_compute; reflexivity.
  - vm_compute; reflexivity.
  - vm_compute; reflexivity.
  - vm_compute; reflexivity.
  - left. vm_compute; reflexivity.
  - apply H. vm_compute; reflexivity.
Defined.

(** C7: a reserved name, and a new vault [work] in the scenario. *)
Lemma ensure_global_vault_spec_witness :
  ensure_global_vault MAXSYMLINKS cfg_vaults "_work" fs_scenario
  = Raise InvalidName fs_scenario ∧
  ∃ fs',
    fs' = <[ ["vaults"; "work"; "index.md"] := File ("# work" +:+ nl +:+ nl) ]>
            (add_dirs fs_scenario ["vaults"] ["work"]) ∧
    ensure_global_vault MAXSYMLINKS cfg_vaults "work" fs_scenario
    = Ok ["vaults"; "work"] fs' ∧
    ∃ m, discover_globals MAXSYMLINKS cfg_vaults fs' = Ok m fs' ∧
         dict_get m "work" = Some ["vaults"; "work"].
Proof.
  split.
  - apply (ensure_global_vault_spec MAXSYMLINKS cfg_vaults "_work" fs_scenario).
    reflexivity.
  - destruct (ensure_global_vault_spec MAXSYMLINKS cfg_vaults "work" fs_scenario)
      as (_ & _ & _ & H).
    destruct H as [_ H]; [reflexivity|reflexivity|].
    destruct H as [_ H]; [reflexivity|discriminate|].
    apply (H ["vaults"] ["vaults"] "work" []).
    + apply closedb_closed. vm_compute; reflexivity.
    + reflexivity.
    + vm_compute; reflexivity.
    + vm_compute; reflexivity.
Defined.

(** C8: the project vault of the scenario, ensured twice. *)
Lemma ensure_project_vault_idempotent_witness :
  ensure_project_vault MAXSYMLINKS cfg_vaults ["home"; "u"; "proj"]
    (final_fs (ensure_project_vault MAXSYMLINKS cfg_vaults ["home"; "u"; "proj"] fs_scenario))
  = Ok (["home"; "u"; "proj"; ".vault"], ["home"; "u"; "proj"; ".vault"; "_m"])
       (final_fs (ensure_project_vault MAXSYMLINKS cfg_vaults ["home"; "u"; "proj"]
                    fs_scenario)).
Proof.
  apply (ensure_project_vault_idempotent MAXSYMLINKS cfg_vaults ["home"; "u"; "proj"]
           fs_scenario).
  vm_compute; reflexivity.
Defined.

(** C9: a regular file named [_m] in [/vaults/notes]. *)
Lemma mount_dir_entry_excludes_witness :
  read_text MAXSYMLINKS fs_file_entry ["vaults"; "notes"; "_m"] = Some "" ∧
  is_mountable_global MAXSYMLINKS cfg_vaults fs_file_entry ["vaults"; "notes"] = false.
Proof.
  split; [vm_compute; reflexivity|].
  apply (mount_dir_entry_excludes MAXSYMLINKS cfg_vaults fs_file_entry ["vaults"; "notes"]).
  vm_compute; reflexivity.
Defined.

(** C10: a name that is no global vault is passed over, and with the one
    name of the defaults [cmd_init] does not raise [NotFound]. *)
Lemma auto_mount_skips_missing_witness :
  auto_mount_loop MAXSYMLINKS cfg_vaults ["home"; "u"; "proj"]
    [("global", ["vaults"; "global"])] ["ghost"] fs_scenario
  = Ok tt fs_scenario ∧
  raised (cmd_init MAXSYMLINKS cfg_vaults (args_init ["home"; "u"; "proj"]) fs_scenario)
  ≠ Some NotFound.
Proof.
  destruct (auto_mount_skips_missing MAXSYMLINKS cfg_vaults ["home"; "u"; "proj"]
              [("global", ["vaults"; "global"])] ["ghost"] fs_scenario)
    as (_ & _ & _ & Hnone & _ & Hinit & _).
  split.
  - apply Hnone.
    intros nm Hin. apply list_elem_of_singleton in Hin. subst nm. reflexivity.
  - apply Hinit. vm_compute. lia.
Defined.

(** ** The further properties at work *)

(** X1: discovery that had to make [/vaults], once more. *)
Lemma discover_globals_stable_witness :
  discover_globals MAXSYMLINKS cfg_vaults (add_dirs {[ ["home"] := Dir ]} [] ["vaults"])
  = Ok [] (add_dirs {[ ["home"] := Dir ]} [] ["vaults"]).
Proof.
  apply (discover_globals_stable MAXSYMLINKS cfg_vaults {[ ["home"] := Dir ]} []
           (add_dirs {[ ["home"] := Dir ]} [] ["vaults"])).
  vm_compute; reflexivity.
Defined.

(** X2: the project vault of the scenario. *)
Lemma ensure_project_vault_adds_witness :
  is_dir MAXSYMLINKS
    (final_fs (ensure_project_vault MAXSYMLINKS cfg_vaults ["home"; "u"; "proj"] fs_scenario))
    ["home"; "u"; "proj"; ".vault"] = true.
Proof.
  destruct (ensure_project_vault_adds MAXSYMLINKS cfg_vaults ["home"; "u"; "proj"]
              fs_scenario) as [_ H].
  destruct (H (["home"; "u"; "proj"; ".vault"], ["home"; "u"; "proj"; ".vault"; "_m"])
              (final_fs (ensure_project_vault MAXSYMLINKS cfg_vaults ["home"; "u"; "proj"]
                           fs_scenario))) as (Hv & _).
  - vm_compute; reflexivity.
  - exact Hv.
Defined.

(** X3: the same, entry by entry. *)
Lemma ensure_project_vault_fresh_witness :
  ensure_project_vault MAXSYMLINKS cfg_vaults ["home"; "u"; "proj"] fs_scenario
  = Ok (["home"; "u"; "proj"] ++ [project_vault_dir cfg_vaults],
        ["home"; "u"; "proj"] ++ [project_vault_dir cfg_vaults; mount_dir cfg_vaults])
       (<[ ["home"; "u"; "proj"] ++ [project_vault_dir cfg_vaults; "index.md"]
           := project_index ]>
          (add_dirs fs_scenario ["home"; "u"; "proj"]
             [project_vault_dir cfg_vaults; mount_dir cfg_vaults])).
Proof.
  apply (ensure_project_vault_fresh MAXSYMLINKS cfg_vaults ["home"; "u"; "proj"]
           fs_scenario ["home"; "u"; "proj"]).
  - reflexivity.
  - reflexivity.
  - discriminate.
  - vm_compute; reflexivity.
  - intros r. apply (closed_free fs_scenario ["home"; "u"; "proj"] ".vault").
    + apply closedb_closed. vm_compute; reflexivity.
    + vm_compute; reflexivity.
Defined.

(** X4: the mount of the scenario has removed nothing. *)
Lemma mount_only_adds_witness :
  fs_scenario ⊆ final_fs (mount_global_into_project MAXSYMLINKS cfg_vaults
                            ["home"; "u"; "proj"] "global" fs_scenario).
Proof.
  destruct (mount_only_adds MAXSYMLINKS cfg_vaults ["home"; "u"; "proj"] "global"
              fs_scenario) as [[H _] _].
  exact H.
Defined.

(** X5: a name that is no global vault, and a reserved name. *)
Lemma mount_unknown_name_witness :
  mount_global_into_project MAXSYMLINKS cfg_vaults ["home"; "u"; "proj"] "ghost" fs_scenario
  = Raise NotFound fs_scenario ∧
  result (mount_global_into_project MAXSYMLINKS cfg_vaults ["home"; "u"; "proj"] "_hidden"
            fs_scenario) = None.
Proof.
  split.
  - destruct (mount_unknown_name MAXSYMLINKS cfg_vaults ["home"; "u"; "proj"] "ghost"
                fs_scenario) as [H _].
    apply H; vm_compute; reflexivity.
  - destruct (mount_unknown_name MAXSYMLINKS cfg_vaults ["home"; "u"; "proj"] "_hidden"
                fs_scenario) as [_ H].
    apply H. reflexivity.
Defined.

(** X6: the first mount in the scenario, where the project vault is made
    on the way. *)
Lemma mount_fresh_witness :
  mount_global_into_project MAXSYMLINKS cfg_vaults ["home"; "u"; "proj"] "global" fs_scenario
  = Ok tt (<[ ["home"; "u"; "proj"; ".vault"; "_m"] ++ ["global"]
              := Link (vault_root cfg_vaults ++ ["global"]) ]>
             (final_fs (ensure_project_vault MAXSYMLINKS cfg_vaults ["home"; "u"; "proj"]
                          fs_scenario))).
Proof.
  apply (mount_fresh MAXSYMLINKS cfg_vaults ["home"; "u"; "proj"] "global" fs_scenario
           (["home"; "u"; "proj"; ".vault"], ["home"; "u"; "proj"; ".vault"; "_m"])
           (final_fs (ensure_project_vault MAXSYMLINKS cfg_vaults ["home"; "u"; "proj"]
                        fs_scenario))
           ["home"; "u"; "proj"; ".vault"; "_m"]); vm_compute; reflexivity.
Defined.

(** X7: the link the mount of the scenario has made. *)
Lemma mount_returns_link_witness :
  is_symlink MAXSYMLINKS
    (final_fs (mount_global_into_project MAXSYMLINKS cfg_vaults ["home"; "u"; "proj"]
                 "global" fs_scenario))
    (joinpath (project_paths cfg_vaults ["home"; "u"; "proj"]).2 "global") = true.
Proof.
  destruct (mount_returns_link MAXSYMLINKS cfg_vaults ["home"; "u"; "proj"] "global"
              fs_scenario
              (final_fs (mount_global_into_project MAXSYMLINKS cfg_vaults
                           ["home"; "u"; "proj"] "global" fs_scenario)))
    as (_ & _ & _ & H & _).
  - vm_compute; reflexivity.
  - exact H.
Defined.

(** X8: a loop over a name that is missing and one that is there. *)
Lemma auto_mount_loop_mounts_witness :
  is_symlink MAXSYMLINKS
    (final_fs (auto_mount_loop MAXSYMLINKS cfg_vaults ["home"; "u"; "proj"]
                 [("global", ["vaults"; "global"])] ["ghost"; "global"] fs_scenario))
    (joinpath (project_paths cfg_vaults ["home"; "u"; "proj"]).2 "global") = true.
Proof.
  apply (auto_mount_loop_mounts MAXSYMLINKS cfg_vaults ["home"; "u"; "proj"]
           [("global", ["vaults"; "global"])] ["ghost"; "global"] fs_scenario
           (final_fs (auto_mount_loop MAXSYMLINKS cfg_vaults ["home"; "u"; "proj"]
                        [("global", ["vaults"; "global"])] ["ghost"; "global"]
                        fs_scenario))).
  - vm_compute; reflexivity.
  - do 2 constructor.
  - reflexivity.
Defined.

(** X9: the scenario in a git work tree. *)
Lemma cmd_init_git_witness :
  ∃ e fs',
    cmd_init MAXSYMLINKS cfg_vaults (args_init ["home"; "u"; "proj"]) fs_git = Raise e fs' ∧
    fs_git ⊆ fs'.
Proof.
  destruct (cmd_init_git MAXSYMLINKS cfg_vaults (args_init ["home"; "u"; "proj"]) fs_git
              ["home"; "u"; "proj"])
    as (e & fs' & H & Hsub & _).
  - left. reflexivity.
  - vm_compute; reflexivity.
  - vm_compute; reflexivity.
  - exists e, fs'. split; [exact H|exact Hsub].
Defined.

(** X10: the launcher of the project vault. *)
Lemma create_desktop_launcher_written_witness :
  ∃ a,
    resolve MAXSYMLINKS
      (final_fs (create_desktop_launcher MAXSYMLINKS ["home"; "u"; "proj"; ".vault"]
                   cfg_vaults fs_project))
      ["home"; "u"; "proj"; ".vault"] = Some a ∧
    read_text MAXSYMLINKS
      (final_fs (create_desktop_launcher MAXSYMLINKS ["home"; "u"; "proj"; ".vault"]
                   cfg_vaults fs_project))
      (joinpath ["home"; "u"; "proj"; ".vault"] (desktop_launcher_name cfg_vaults))
    = Some (launcher_content (path_str a)).
Proof.
  destruct (create_desktop_launcher_written MAXSYMLINKS ["home"; "u"; "proj"; ".vault"]
              cfg_vaults fs_project) as [_ H].
  destruct (H (final_fs (create_desktop_launcher MAXSYMLINKS
                           ["home"; "u"; "proj"; ".vault"] cfg_vaults fs_project)))
    as (a & Ha & Hr & _).
  - reflexivity.
  - vm_compute; reflexivity.
  - exists a. split; [exact Ha|exact Hr].
Defined.

(** X11: the initialisation of the project of the scenario. *)
Lemma cmd_init_project_witness :
  ∃ root,
    resolve MAXSYMLINKS fs_scenario (arg_path (args_init ["home"; "u"; "proj"])) = Some root ∧
    is_dir MAXSYMLINKS
      (final_fs (cmd_init MAXSYMLINKS cfg_vaults (args_init ["home"; "u"; "proj"])
                   fs_scenario))
      (project_paths cfg_vaults root).2 = true.
Proof.
  destruct (cmd_init_project MAXSYMLINKS cfg_vaults (args_init ["home"; "u"; "proj"])
              fs_scenario 0%nat
              (final_fs (cmd_init MAXSYMLINKS cfg_vaults (args_init ["home"; "u"; "proj"])
                           fs_scenario)))
    as (root & Hroot & _ & _ & _ & _ & H & _).
  - left. reflexivity.
  - vm_compute; reflexivity.
  - exists root. split; [exact Hroot|exact H].
Defined.

(** X12: the same initialisation has removed nothing. *)
Lemma cmd_init_keeps_witness :
  keeps fs_scenario
    (final_fs (cmd_init MAXSYMLINKS cfg_vaults (args_init ["home"; "u"; "proj"]) fs_scenario)).
Proof.
  exact (cmd_init_keeps MAXSYMLINKS cfg_vaults (args_init ["home"; "u"; "proj"]) fs_scenario).
Defined.

(** X13: the listing of the scenario changes nothing. *)
Lemma cmd_list_reads_witness :
  final_fs (cmd_list MAXSYMLINKS cfg_vaults (args_init ["home"; "u"; "proj"]) fs_scenario).2
  = fs_scenario.
Proof.
  destruct (cmd_list_reads MAXSYMLINKS cfg_vaults (args_init ["home"; "u"; "proj"])
              fs_scenario) as [_ H].
  apply H. vm_compute; reflexivity.
Defined.

(** X14: the listing of a project whose mount path is a regular file,
    the listing for a project path that is a link to itself, and the
    listing of a project with such a link in its mount directory. *)
Lemma cmd_list_returns_witness :
  (cmd_list MAXSYMLINKS cfg_vaults (args_init ["proj"]) fs_mount_file).2
  = Raise FsError fs_mount_file ∧
  (cmd_list MAXSYMLINKS cfg_vaults (args_init ["loop"]) fs_loop).2
  = Raise SymlinkLoop fs_loop ∧
  (cmd_list MAXSYMLINKS cfg_vaults (args_init ["home"; "u"; "proj"]) fs_conflict_loop).2
  = Raise SymlinkLoop fs_conflict_loop.
Proof.
  split_and!.
  - destruct (cmd_list_returns MAXSYMLINKS cfg_vaults (args_init ["proj"]) fs_mount_file)
      as [_ H]; [vm_compute; reflexivity|].
    destruct (H ["proj"]) as [_ H1]; [vm_compute; reflexivity|].
    destruct H1 as [H2 _]; [vm_compute; reflexivity|].
    destruct H2 as [H3 _]; [vm_compute; reflexivity|]. exact H3.
  - destruct (cmd_list_returns MAXSYMLINKS cfg_vaults (args_init ["loop"]) fs_loop)
      as [H _]; [vm_compute; reflexivity|].
    apply H. vm_compute; reflexivity.
  - destruct (cmd_list_returns MAXSYMLINKS cfg_vaults (args_init ["home"; "u"; "proj"])
                fs_conflict_loop) as [_ H]; [vm_compute; reflexivity|].
    destruct (H ["home"; "u"; "proj"]) as [_ H1]; [vm_compute; reflexivity|].
    destruct H1 as (_ & _ & H2); [vm_compute; reflexivity|].
    destruct H2 as [H3 _]; [vm_compute; reflexivity|vm_compute; reflexivity|]. exact H3.
Defined.

(** X15: the listing after the mount of the scenario. *)
Lemma cmd_list_shows_mount_witness :
  ∃ pre post q,
    cmd_list MAXSYMLINKS cfg_vaults (args_init ["home"; "u"; "proj"])
      (final_fs (mount_global_into_project MAXSYMLINKS cfg_vaults ["home"; "u"; "proj"]
                   "global" fs_scenario))
    = (pre ++ (nl +:+ "project vault: "
               +:+ path_str (project_paths cfg_vaults ["home"; "u"; "proj"]).1)
           :: "mounted:" :: post,
       Ok 0%nat
         (final_fs (mount_global_into_project MAXSYMLINKS cfg_vaults ["home"; "u"; "proj"]
                      "global" fs_scenario))) ∧
    resolve MAXSYMLINKS
      (final_fs (mount_global_into_project MAXSYMLINKS cfg_vaults
                   ["home"; "u"; "proj"] "global" fs_scenario))
      ((project_paths cfg_vaults ["home"; "u"; "proj"]).2 ++ ["global"]) = Some q ∧
    resolve MAXSYMLINKS
      (final_fs (mount_global_into_project MAXSYMLINKS cfg_vaults
                   ["home"; "u"; "proj"] "global" fs_scenario))
      (vault_root cfg_vaults ++ ["global"]) = Some q ∧
    list_line "global" (path_str q) ∈ post.
Proof.
  apply (cmd_list_shows_mount MAXSYMLINKS cfg_vaults ["home"; "u"; "proj"] "global"
           (args_init ["home"; "u"; "proj"]) fs_scenario
           (final_fs (mount_global_into_project MAXSYMLINKS cfg_vaults
                        ["home"; "u"; "proj"] "global" fs_scenario)));
    vm_compute; reflexivity.
Defined.

(** X16: the global vaults in the listing of the scenario. *)
Lemma cmd_list_globals_witness :
  ∃ m rest,
    (cmd_list MAXSYMLINKS cfg_vaults (args_init ["home"; "u"; "proj"]) fs_scenario).1
    = ("vault_root: " +:+ path_str (vault_root cfg_vaults))
      :: (match m with
          | [] => ["(no global vaults found)"]
          | _ => "global vaults:" :: map (λ kv, list_line kv.1 (path_str kv.2)) m
          end) ++ rest ∧
    NoDup m.*1 ∧
    Sorted (λ a b, String.leb (lower a.1) (lower b.1) = true) m ∧
    ∀ n p, (n, p) ∈ m ↔
           p = vault_root cfg_vaults ++ [n] ∧
           is_mountable_global MAXSYMLINKS cfg_vaults fs_scenario p = true.
Proof.
  apply (cmd_list_globals MAXSYMLINKS cfg_vaults (args_init ["home"; "u"; "proj"])
           fs_scenario).
  vm_compute; reflexivity.
Defined.

(** X17: a regular file where [vault_root] should be. *)
Lemma vault_root_not_a_directory_witness :
  cmd_list MAXSYMLINKS cfg_vaults (args_init ["proj"]) fs_root_file
  = ([], Raise FsError fs_root_file) ∧
  cmd_mount MAXSYMLINKS cfg_vaults (args_mount "global" ["proj"]) fs_root_file
  = Raise FsError fs_root_file.
Proof.
  destruct (vault_root_not_a_directory MAXSYMLINKS cfg_vaults fs_root_file)
    as (_ & _ & _ & Hm & _ & H).
  - vm_compute; reflexivity.
  - vm_compute; reflexivity.
  - split; [apply H|]. apply Hm. vm_compute. eauto.
Defined.
